(** * Contact manager: the ordered, hierarchical record store of [base.py]

    A shallow embedding of the data operations of [ContactManagerApp]
    (record store, folder index, drag-and-drop reorder engine, CSV
    persistence) together with the properties of its specification. *)

From Stdlib Require Import Ascii String.
From stdpp Require Import base option list gmap strings sorting.

Set Default Proof Using "Type".
#[local] Set Warnings "-clear-no-such-hyp".

(** ** Python values, exceptions and built-in operations *)

Module Py.

(** The exceptions that the modelled code can raise. *)
Inductive exn : Type :=
| IndexError
| KeyError
| AttributeError
| ValueError
| TclError
| CsvError.

Inductive result (A : Type) : Type :=
| Ok (a : A)
| Raise (e : exn).
Global Arguments Ok {A} a.
Global Arguments Raise {A} e.

Global Instance result_ret : MRet result := λ A a, Ok a.
Global Instance result_bind : MBind result := λ A B f m,
  match m with
  | Ok a => f a
  | Raise e => Raise e
  end.

Definition is_ok {A} (r : result A) : bool :=
  match r with Ok _ => true | Raise _ => false end.

(** *** Lists.  Indices are the non-negative integers produced by
    [enumerate] and [int(iid)]. *)

(** [l[i]] *)
Definition getitem {A} (l : list A) (i : nat) : result A :=
  match l !! i with
  | Some x => Ok x
  | None => Raise IndexError
  end.

(** [l[i] = x] *)
Definition setitem {A} (l : list A) (i : nat) (x : A) : result (list A) :=
  if decide (i < length l) then Ok (<[i:=x]> l) else Raise IndexError.

(** [del l[i]] *)
Definition delitem {A} (l : list A) (i : nat) : result (list A) :=
  if decide (i < length l) then Ok (delete i l) else Raise IndexError.

(** [l.pop(i)]: the removed element and the remaining list. *)
Definition pop {A} (l : list A) (i : nat) : result (A * list A) :=
  match l !! i with
  | Some x => Ok (x, delete i l)
  | None => Raise IndexError
  end.

(** [l.insert(i, x)]: a position past the end appends. *)
Definition insert {A} (i : nat) (x : A) (l : list A) : list A :=
  take i l ++ x :: drop i l.

(** [l.index(x)]: position of the first occurrence. *)
Fixpoint index_from `{EqDecision A} (k : nat) (x : A) (l : list A)
  : result nat :=
  match l with
  | [] => Raise ValueError
  | y :: l' => if decide (y = x) then Ok k else index_from (S k) x l'
  end.
Definition index `{EqDecision A} (x : A) (l : list A) : result nat :=
  index_from 0 x l.

(** [enumerate(l)] *)
Fixpoint enumerate_from {A} (k : nat) (l : list A) : list (nat * A) :=
  match l with
  | [] => []
  | x :: l' => (k, x) :: enumerate_from (S k) l'
  end.
Definition enumerate {A} (l : list A) : list (nat * A) := enumerate_from 0 l.

(** [sorted(l, reverse=True)] on integers. *)
Definition nat_ge (a b : nat) : Prop := b ≤ a.
Global Instance nat_ge_dec : RelDecision nat_ge.
Proof. intros a b. unfold nat_ge. apply _. Defined.
Definition sorted_reverse (l : list nat) : list nat := merge_sort nat_ge l.

(** *** Strings.  Characters are 8-bit code points. *)

(** [str.isspace] on one character: TAB..CR, FS..US, space, NEL, NBSP. *)
Definition isspace (c : ascii) : bool :=
  let n := nat_of_ascii c in
  ((9 <=? n) && (n <=? 13)) || ((28 <=? n) && (n <=? 32))
  || (n =? 133) || (n =? 160).

Fixpoint lstrip (p : ascii → bool) (s : string) : string :=
  match s with
  | EmptyString => EmptyString
  | String c s' => if p c then lstrip p s' else s
  end.

Fixpoint rstrip (p : ascii → bool) (s : string) : string :=
  match s with
  | EmptyString => EmptyString
  | String c s' =>
      match rstrip p s' with
      | EmptyString => if p c then EmptyString else String c EmptyString
      | r => String c r
      end
  end.

(** [s.strip()] *)
Definition strip (s : string) : string := rstrip isspace (lstrip isspace s).

(** [s.strip(ch)] for a one-character argument. *)
Definition strip_char (ch : ascii) (s : string) : string :=
  rstrip (Ascii.eqb ch) (lstrip (Ascii.eqb ch) s).

(** [s.startswith(p)] *)
Fixpoint startswith (s p : string) : bool :=
  match p, s with
  | EmptyString, _ => true
  | String b p', String a s' => Ascii.eqb a b && startswith s' p'
  | String _ _, EmptyString => false
  end.

(** [ch in s] for a one-character [ch]. *)
Fixpoint contains (ch : ascii) (s : string) : bool :=
  match s with
  | EmptyString => false
  | String c s' => Ascii.eqb c ch || contains ch s'
  end.

(** [s.split(sep)] for a one-character separator; never empty. *)
Fixpoint split (sep : ascii) (s : string) : list string :=
  match s with
  | EmptyString => [EmptyString]
  | String c s' =>
      if Ascii.eqb c sep then EmptyString :: split sep s'
      else match split sep s' with
           | h :: t => String c h :: t
           | [] => [String c EmptyString]
           end
  end.

(** [sorted(set(l))] on strings: distinct elements in code-point order. *)
Definition string_le (a b : string) : Prop := String.leb a b = true.
Global Instance string_le_dec : RelDecision string_le.
Proof. intros a b. unfold string_le. apply _. Defined.
Definition sorted_set (l : list string) : list string :=
  merge_sort string_le (remove_dups l).

(** *** Statements run on a mutable object: a state that survives a
    raised exception, so that partial mutations stay visible. *)
Definition SE (S A : Type) : Type := S → result A * S.

Global Instance SE_ret {S} : MRet (SE S) := λ A a s, (Ok a, s).
Global Instance SE_bind {S} : MBind (SE S) := λ A B f m s,
  match m s with
  | (Ok a, s') => f a s'
  | (Raise e, s') => (Raise e, s')
  end.

Definition gets {S A} (f : S → A) : SE S A := λ s, (Ok (f s), s).
Definition modify {S} (f : S → S) : SE S unit := λ s, (Ok (), f s).
Definition lift {S A} (r : result A) : SE S A := λ s, (r, s).
Definition skip {S} : SE S unit := mret ().

(** [for x in xs: body] *)
Fixpoint for_each {S A} (xs : list A) (body : A → SE S unit) : SE S unit :=
  match xs with
  | [] => skip
  | x :: xs' => body x ;; for_each xs' body
  end.

(** [try: body  except Exception: handler  finally: final] *)
Definition try_except_finally {S} (body : SE S unit)
    (handler : exn → SE S unit) (final : SE S unit) : SE S unit := λ s,
  match body s with
  | (Ok _, s') => final s'
  | (Raise e, s') => (handler e ;; final) s'
  end.

End Py.
Import Py.

(** ** The [csv] module: writer and reader of the default (excel) dialect

    Delimiter [,], quote character code 34, doubled quotes, minimal
    quoting, line terminator CR LF, non-strict reading, the field size
    limit at its default.  The text encoding of the file is left out:
    a character is one 8-bit code point. *)

Module Csv.

Definition delimiter : ascii := ","%char.
Definition quotechar : ascii := ascii_of_nat 34.
Definition CR : ascii := ascii_of_nat 13.
Definition LF : ascii := ascii_of_nat 10.
Definition lineterminator : string := String CR (String LF EmptyString).

(** *** Writer *)

(** A character that forces the field to be quoted. *)
Definition special (c : ascii) : bool :=
  Ascii.eqb c delimiter || Ascii.eqb c quotechar
  || Ascii.eqb c CR || Ascii.eqb c LF.

Fixpoint any_special (s : string) : bool :=
  match s with
  | EmptyString => false
  | String c s' => special c || any_special s'
  end.

(** The field's characters with every quote character doubled. *)
Fixpoint doublequote (s : string) : string :=
  match s with
  | EmptyString => EmptyString
  | String c s' =>
      if Ascii.eqb c quotechar
      then String quotechar (String quotechar (doublequote s'))
      else String c (doublequote s')
  end.

(** One field of a record; [quote_empty] holds for a record made of a
    single field. *)
Definition join_append (quote_empty : bool) (field : string) : string :=
  let quoted :=
    any_special field || (quote_empty && String.eqb field EmptyString) in
  if quoted
  then String quotechar (doublequote field +:+ String quotechar EmptyString)
  else doublequote field.

Fixpoint join (fields : list string) : string :=
  match fields with
  | [] => EmptyString
  | [f] => f
  | f :: rest => f +:+ String delimiter (join rest)
  end.

(** [writer.writerow(row)]: [None] is written as the empty string. *)
Definition writerow (row : list (option string)) : string :=
  let quote_empty := length row =? 1 in
  join (join_append quote_empty <$> (default EmptyString <$> row))
  +:+ lineterminator.

Fixpoint writerows (rows : list (list (option string))) : string :=
  match rows with
  | [] => EmptyString
  | row :: rest => writerow row +:+ writerows rest
  end.

(** *** Reader *)

Inductive state : Type :=
| START_RECORD
| START_FIELD
| IN_FIELD
| IN_QUOTED_FIELD
| QUOTE_IN_QUOTED_FIELD
| EAT_CRNL.

Global Instance state_eq_dec : EqDecision state.
Proof. solve_decision. Defined.

(** The reader object: parser state, the field being collected and
    the fields of the record collected so far. *)
Record parser : Type := mkParser {
  st : state;
  field : string;
  fields : list string;
}.

Definition parse_reset : parser :=
  {| st := START_RECORD; field := EmptyString; fields := [] |}.

Definition set_state (s : state) (p : parser) : parser :=
  {| st := s; field := field p; fields := fields p |}.

Definition parse_save_field (p : parser) : parser :=
  {| st := st p; field := EmptyString; fields := fields p ++ [field p] |}.

(** [csv.field_size_limit()], which the application never changes. *)
Definition field_size_limit : N := 131072.

(** A field that holds [field_size_limit] characters takes no more:
    ["field larger than field limit"]. *)
Definition parse_add_char (c : ascii) (p : parser) : result parser :=
  if (N.of_nat (String.length (field p)) <? field_size_limit)%N
  then Ok {| st := st p; field := field p +:+ String c EmptyString;
             fields := fields p |}
  else Raise CsvError.

Definition is_newline (c : ascii) : bool := Ascii.eqb c LF || Ascii.eqb c CR.

Definition start_field (c : option ascii) (p : parser) : result parser :=
  match c with
  | None => Ok (set_state START_RECORD (parse_save_field p))
  | Some ch =>
      if is_newline ch then Ok (set_state EAT_CRNL (parse_save_field p))
      else if Ascii.eqb ch quotechar then Ok (set_state IN_QUOTED_FIELD p)
      else if Ascii.eqb ch delimiter
           then Ok (set_state START_FIELD (parse_save_field p))
      else p' ← parse_add_char ch p; Ok (set_state IN_FIELD p')
  end.

(** One step of the parser; [None] is the end-of-line marker that the
    reader feeds after the characters of each line. *)
Definition parse_process_char (p : parser) (c : option ascii)
  : result parser :=
  match st p with
  | START_RECORD =>
      match c with
      | None => Ok p
      | Some ch =>
          if is_newline ch then Ok (set_state EAT_CRNL p)
          else start_field c p
      end
  | START_FIELD => start_field c p
  | IN_FIELD =>
      match c with
      | None => Ok (set_state START_RECORD (parse_save_field p))
      | Some ch =>
          if is_newline ch then Ok (set_state EAT_CRNL (parse_save_field p))
          else if Ascii.eqb ch delimiter
               then Ok (set_state START_FIELD (parse_save_field p))
          else parse_add_char ch p
      end
  | IN_QUOTED_FIELD =>
      match c with
      | None => Ok p
      | Some ch =>
          if Ascii.eqb ch quotechar then Ok (set_state QUOTE_IN_QUOTED_FIELD p)
          else parse_add_char ch p
      end
  | QUOTE_IN_QUOTED_FIELD =>
      match c with
      | None => Ok (set_state START_RECORD (parse_save_field p))
      | Some ch =>
          if Ascii.eqb ch quotechar
          then p' ← parse_add_char ch p; Ok (set_state IN_QUOTED_FIELD p')
          else if Ascii.eqb ch delimiter
               then Ok (set_state START_FIELD (parse_save_field p))
          else if is_newline ch
               then Ok (set_state EAT_CRNL (parse_save_field p))
          else p' ← parse_add_char ch p; Ok (set_state IN_FIELD p')
      end
  | EAT_CRNL =>
      match c with
      | None => Ok (set_state START_RECORD p)
      | Some ch => if is_newline ch then Ok p else Raise CsvError
      end
  end.

(** The characters of one line, then the end-of-line marker. *)
Fixpoint parse_chars (p : parser) (line : string) : result parser :=
  match line with
  | EmptyString => Ok p
  | String c line' => p' ← parse_process_char p (Some c); parse_chars p' line'
  end.

Definition parse_line (p : parser) (line : string) : result parser :=
  p' ← parse_chars p line; parse_process_char p' None.

(** Iterating a text file opened with [newline=""]: lines end at LF,
    CR or CR LF and keep their line ending; [cur] is the line read so
    far. *)
Fixpoint readlines (cur : string) (s : string) : list string :=
  match s with
  | EmptyString => if String.eqb cur EmptyString then [] else [cur]
  | String c s' =>
      let cur' := cur +:+ String c EmptyString in
      if Ascii.eqb c LF then cur' :: readlines EmptyString s'
      else if Ascii.eqb c CR then
        match s' with
        | String c2 s'' =>
            if Ascii.eqb c2 LF
            then (cur' +:+ String c2 EmptyString) :: readlines EmptyString s''
            else cur' :: readlines EmptyString s'
        | EmptyString => [cur']
        end
      else readlines cur' s'
  end.

(** Iterating [csv.reader(lines)]: the records that it yields one
    after the other, and the exception that ends the iteration, if any.
    A record is complete when the parser is back in [START_RECORD] at the
    end of a line; at the end of the input a pending field closes the
    last record. *)
Definition stream : Type := list (list string) * option exn.

Definition yield (record : list string) (more : stream) : stream :=
  (record :: more.1, more.2).

Fixpoint read_records (p : parser) (lines : list string) : stream :=
  match lines with
  | [] =>
      if negb (String.eqb (field p) EmptyString)
         || bool_decide (st p = IN_QUOTED_FIELD)
      then ([fields (parse_save_field p)], None)
      else ([], None)
  | line :: rest =>
      match parse_line p line with
      | Raise e => ([], Some e)
      | Ok p' =>
          if bool_decide (st p' = START_RECORD)
          then yield (fields p') (read_records parse_reset rest)
          else read_records p' rest
      end
  end.

Definition reader (file : string) : stream :=
  read_records parse_reset (readlines EmptyString file).

(** *** DictReader *)

(** A row as a dictionary from column name to value; the value [None]
    is the [restval] of a column that a short row does not reach.  The
    list of surplus values that a long row stores under the key [None]
    is not a string key and is left out. *)
Definition row_dict (fieldnames row : list string)
  : gmap string (option string) :=
  let d := foldl (λ d kv, <[kv.1 := Some kv.2]> d) ∅ (zip fieldnames row) in
  foldl (λ d key, <[key := None]> d) d (drop (length row) fieldnames).

(** The rows that [csv.DictReader(f)] makes of the records read: the
    first record holds the field names, blank records are skipped. *)
Definition dict_rows (records : list (list string))
  : list (gmap string (option string)) :=
  match records with
  | [] => []
  | fieldnames :: rest =>
      row_dict fieldnames <$> filter (λ row, row ≠ []) rest
  end.

End Csv.

(** ** Data model *)

Record Contact : Type := mkContact {
  folder_path : string;
  name : option string;
  ammyadmin_id : option string;
  anydesk_id : option string;
  rustdesk_id : option string;
  notes : option string;
}.

Global Instance Contact_eq_dec : EqDecision Contact.
Proof. solve_decision. Defined.

(** [contact.folder_path = folder] *)
Definition set_folder_path (folder : string) (c : Contact) : Contact :=
  {| folder_path := folder; name := name c; ammyadmin_id := ammyadmin_id c;
     anydesk_id := anydesk_id c; rustdesk_id := rustdesk_id c;
     notes := notes c |}.

Definition _norm_path (p : string) : string := strip p.

(** An item of the folder [ttk.Treeview]. *)
Record tree_item : Type := mkItem {
  iid : string;
  parent : string;
  text : string;
}.

Inductive messagebox : Type :=
| showwarning (title : string)
| showinfo (title : string)
| showerror (title : string).

Record DragData : Type := mkDrag {
  contact_idx : nat;
  dragged : bool;
}.

(** The state of [ContactManagerApp].  Every slot of [contacts] holds
    an object of its own: contacts are created by [load_contacts] and
    [_add_contact_callback] and are only moved afterwards, so assigning
    a field of one contact changes this one slot.  [csv_file] is the
    content of [CONTACTS_FILE], [None] while the file does not exist;
    [messages] records the message boxes shown, the latest first. *)
Record App : Type := mkApp {
  contacts : list Contact;
  folder_path_to_id : gmap string string;
  folder_tree : list tree_item;
  tree_selection : option string;
  current_folder : string;
  drag_data : option DragData;
  csv_file : option string;
  messages : list messagebox;
}.

Definition set_contacts (l : list Contact) (a : App) : App :=
  mkApp l (folder_path_to_id a) (folder_tree a) (tree_selection a)
        (current_folder a) (drag_data a) (csv_file a) (messages a).
Definition set_folder_path_to_id (m : gmap string string) (a : App) : App :=
  mkApp (contacts a) m (folder_tree a) (tree_selection a)
        (current_folder a) (drag_data a) (csv_file a) (messages a).
Definition set_folder_tree (t : list tree_item) (a : App) : App :=
  mkApp (contacts a) (folder_path_to_id a) t (tree_selection a)
        (current_folder a) (drag_data a) (csv_file a) (messages a).
Definition set_tree_selection (sel : option string) (a : App) : App :=
  mkApp (contacts a) (folder_path_to_id a) (folder_tree a) sel
        (current_folder a) (drag_data a) (csv_file a) (messages a).
Definition set_current_folder (f : string) (a : App) : App :=
  mkApp (contacts a) (folder_path_to_id a) (folder_tree a) (tree_selection a)
        f (drag_data a) (csv_file a) (messages a).
Definition set_drag_data (d : option DragData) (a : App) : App :=
  mkApp (contacts a) (folder_path_to_id a) (folder_tree a) (tree_selection a)
        (current_folder a) d (csv_file a) (messages a).
Definition set_csv_file (f : option string) (a : App) : App :=
  mkApp (contacts a) (folder_path_to_id a) (folder_tree a) (tree_selection a)
        (current_folder a) (drag_data a) f (messages a).
Definition show (m : messagebox) (a : App) : App :=
  mkApp (contacts a) (folder_path_to_id a) (folder_tree a) (tree_selection a)
        (current_folder a) (drag_data a) (csv_file a) (m :: messages a).

(** The application right after [__init__] has set its fields. *)
Definition new_app (file : option string) : App :=
  mkApp [] ∅ [] None EmptyString None file [].

(** ** The folder [ttk.Treeview]: items are named by their [iid]; the
    invisible root item is named by the empty string. *)

Module Treeview.

Definition exists_ (item : string) (t : list tree_item) : bool :=
  bool_decide (item = EmptyString) || bool_decide (item ∈ iid <$> t).

(** [tree.insert(parent, "end", iid, text=text)] *)
Definition insert (parent_ iid_ text_ : string) (t : list tree_item)
  : result (list tree_item) :=
  if exists_ iid_ t then Raise TclError
  else if negb (exists_ parent_ t) then Raise TclError
  else Ok (t ++ [mkItem iid_ parent_ text_]).

(** The items left once the items named in [removed] and their
    descendants are gone; a child is always listed after its parent. *)
Fixpoint prune (removed : list string) (t : list tree_item)
  : list tree_item :=
  match t with
  | [] => []
  | it :: rest =>
      if bool_decide (iid it ∈ removed) || bool_decide (parent it ∈ removed)
      then prune (iid it :: removed) rest
      else it :: prune removed rest
  end.

(** [tree.delete(item)] *)
Definition delete (item : string) (t : list tree_item)
  : result (list tree_item) :=
  if bool_decide (item ∈ iid <$> t) then Ok (prune [item] t)
  else Raise TclError.

End Treeview.

(** ** CSV loading and saving *)

Definition header : list (option string) :=
  [Some "folder"; Some "name"; Some "ammyadmin_id"; Some "anydesk_id";
   Some "rustdesk_id"; Some "notes"].

Definition contact_row (c : Contact) : list (option string) :=
  [Some (folder_path c); name c; ammyadmin_id c; anydesk_id c;
   rustdesk_id c; notes c].

(** [row[key]] and [row.get(key, default)] on a dictionary. *)
Definition dict_getitem {V} (d : gmap string V) (key : string) : result V :=
  match d !! key with
  | Some v => Ok v
  | None => Raise KeyError
  end.
Definition dict_get {V} (d : gmap string V) (key : string) (dflt : V) : V :=
  default dflt (d !! key).

(** [_norm_path(row["folder"])]: the [restval] [None] has no [strip]. *)
Definition norm_path_value (v : option string) : result string :=
  match v with
  | Some p => Ok (_norm_path p)
  | None => Raise AttributeError
  end.

Definition contact_of_row (row : gmap string (option string))
  : result Contact :=
  folder ← dict_getitem row "folder";
  folder ← norm_path_value folder;
  name_ ← dict_getitem row "name";
  Ok {| folder_path := folder;
        name := name_;
        ammyadmin_id := dict_get row "ammyadmin_id" (Some EmptyString);
        anydesk_id := dict_get row "anydesk_id" (Some EmptyString);
        rustdesk_id := dict_get row "rustdesk_id" (Some EmptyString);
        notes := dict_get row "notes" (Some EmptyString) |}.

(** One round of the loop of [load_contacts]. *)
Definition load_row (row : gmap string (option string)) : SE App unit :=
  c ← lift (contact_of_row row);
  modify (λ a, set_contacts (contacts a ++ [c]) a).

(** [load_contacts]: the rows are loaded as the reader yields them, so
    that an exception of the reader comes after the rows read before it
    are in the store. *)
Definition load_contacts : SE App unit :=
  modify (set_contacts []) ;;
  file ← gets csv_file;
  match file with
  | None => modify (set_csv_file (Some (Csv.writerow header)))
  | Some f =>
      let '(records, error) := Csv.reader f in
      for_each (Csv.dict_rows records) load_row ;;
      match error with
      | Some e => lift (Raise e)
      | None => skip
      end
  end.

Definition save_contacts : SE App unit :=
  modify (λ a,
    set_csv_file
      (Some (Csv.writerows (header :: (contact_row <$> contacts a)))) a).

(** ** Folder tree *)

Definition root_id : string := "__root__".
Definition sep : ascii := "/"%char.

(** [f"{cur}/{part}" if cur else part] *)
Definition join_path (cur part : string) : string :=
  if String.eqb cur EmptyString then part
  else cur +:+ String sep part.

(** The local variables of the loop over the parts of one path. *)
Record walk : Type := mkWalk {
  cur : string;
  parent_id : string;
  w_tree : list tree_item;
  w_index : gmap string string;
}.

(** One round of [for part in parts]. *)
Definition walk_part (part : string) : SE walk unit := λ w,
  let cur' := join_path (cur w) part in
  match w_index w !! cur' with
  | None =>
      match Treeview.insert (parent_id w) cur' part (w_tree w) with
      | Ok t => (Ok (), mkWalk cur' cur' t (<[cur' := cur']> (w_index w)))
      | Raise e => (Raise e, mkWalk cur' (parent_id w) (w_tree w) (w_index w))
      end
  | Some node => (Ok (), mkWalk cur' node (w_tree w) (w_index w))
  end.

(** One round of [for path in sorted(paths)]. *)
Definition walk_path (path : string) : SE App unit := λ a,
  if String.eqb path EmptyString then (Ok (), a)
  else
    let parts := split sep (strip_char sep path) in
    let w0 := mkWalk EmptyString root_id (folder_tree a) (folder_path_to_id a) in
    let '(r, w) := for_each parts walk_part w0 in
    (r, set_folder_path_to_id (w_index w) (set_folder_tree (w_tree w) a)).

Definition build_folder_tree : SE App unit :=
  modify (λ a, set_tree_selection None (set_folder_tree [] a)) ;;
  t ← gets folder_tree;
  t ← lift (Treeview.insert EmptyString root_id "Root" t);
  modify (set_folder_tree t) ;;
  modify (set_folder_path_to_id {[ EmptyString := root_id ]}) ;;
  l ← gets contacts;
  let paths := sorted_set ((folder_path <$> l) ++ [EmptyString]) in
  for_each paths walk_path.

(** ["" if node_id == "__root__" else node_id] *)
Definition node_folder (node_id : string) : string :=
  if String.eqb node_id root_id then EmptyString else node_id.

(** [if not node_id: node_id = "__root__"] *)
Definition node_or_root (node_id : string) : string :=
  if String.eqb node_id EmptyString then root_id else node_id.

Definition on_folder_select : SE App unit :=
  sel ← gets tree_selection;
  match sel with
  | None => modify (set_current_folder EmptyString)
  | Some node_id => modify (set_current_folder (node_folder node_id))
  end.

Definition select_root : SE App unit :=
  modify (set_tree_selection (Some root_id)) ;;
  on_folder_select.

(** [__init__] after the fields are set. *)
Definition init : SE App unit :=
  load_contacts ;; build_folder_tree ;; select_root.

(** ** Operations on data *)

(** ["" if not sel else ("" if sel[0] == "__root__" else sel[0])] *)
Definition selected_folder (sel : option string) : string :=
  match sel with
  | None => EmptyString
  | Some s => node_folder s
  end.

(** [add_folder]; [answer] is what [simpledialog.askstring] returned,
    [None] when the dialog was cancelled. *)
Definition add_folder (answer : option string) : SE App unit :=
  sel ← gets tree_selection;
  let parent_path := selected_folder sel in
  match answer with
  | None => skip
  | Some name_ =>
      if String.eqb name_ EmptyString then skip
      else
        let name_ := strip name_ in
        if contains sep name_ then modify (show (showwarning "Folder Name"))
        else
          let new_path := join_path parent_path name_ in
          ids ← gets folder_path_to_id;
          match ids !! new_path with
          | Some _ => modify (show (showwarning "Folder Exists"))
          | None =>
              let parent_id := default root_id (ids !! parent_path) in
              t ← gets folder_tree;
              t ← lift (Treeview.insert parent_id new_path name_ t);
              modify (set_folder_tree t) ;;
              modify (λ a, set_folder_path_to_id
                             (<[new_path := new_path]> (folder_path_to_id a)) a)
          end
  end.

(** [_add_contact_callback], called by the dialog with stripped texts. *)
Definition _add_contact_callback (name_ ammy anydesk rustdesk notes_ : string)
  : SE App unit :=
  modify (λ a,
    set_contacts
      (contacts a ++ [mkContact (current_folder a) (Some name_) (Some ammy)
                                (Some anydesk) (Some rustdesk) (Some notes_)])
      a) ;;
  save_contacts.

(** [del self.contacts[i]] *)
Definition del_contact (i : nat) : SE App unit :=
  l ← gets contacts;
  l ← lift (delitem l i);
  modify (set_contacts l).

(** The paths that leave the index when the folder [folder] is deleted. *)
Definition in_subtree (folder fp : string) : bool :=
  String.eqb fp folder || startswith fp (folder +:+ String sep EmptyString).

(** [delete_selected]; [sel_contacts] is the selection of the contacts
    table as indices, [confirm] the answer to the confirmation box. *)
Definition delete_selected (sel_contacts : list nat) (confirm : bool)
  : SE App unit :=
  match sel_contacts with
  | _ :: _ =>
      if negb confirm then skip
      else
        let indices := sorted_reverse sel_contacts in
        for_each indices del_contact ;;
        save_contacts
  | [] =>
      sel ← gets tree_selection;
      match sel with
      | None => modify (show (showinfo "Delete"))
      | Some node_id =>
          if String.eqb node_id root_id
          then modify (show (showwarning "Delete"))
          else if negb confirm then skip
          else
            let folder := node_id in
            modify (λ a,
              set_contacts
                (filter (λ c, startswith (folder_path c) folder = false)
                        (contacts a)) a) ;;
            t ← gets folder_tree;
            t ← lift (Treeview.delete node_id t);
            modify (set_folder_tree t) ;;
            modify (λ a,
              set_folder_path_to_id
                (filter (λ kv, in_subtree folder kv.1 = false)
                        (folder_path_to_id a)) a) ;;
            save_contacts ;;
            select_root
      end
  end.

(** ** Drag-and-drop helpers *)

(** The index of the last contact of [folder], as the scan of
    [_move_contact_to_end_of_folder] finds it. *)
Definition last_in_folder (folder : string) (l : list Contact) : option nat :=
  foldl (λ last ic,
           if decide (folder_path ic.2 = folder) then Some ic.1 else last)
        None (enumerate l).

Definition _move_contact_to_end_of_folder (source_idx : nat) : SE App unit :=
  l ← gets contacts;
  '(contact, l) ← lift (pop l source_idx);
  modify (set_contacts l) ;;
  let folder := folder_path contact in
  match last_in_folder folder l with
  | None => modify (λ a, set_contacts (contacts a ++ [contact]) a)
  | Some last_idx =>
      modify (λ a,
        set_contacts (Py.insert (last_idx + 1) contact (contacts a)) a)
  end.

(** [[i for i, c in enumerate(contacts) if c.folder_path == folder]] *)
Definition folder_indices_of (folder : string) (l : list Contact) : list nat :=
  fst <$> filter (λ ic, folder_path ic.2 = folder) (enumerate l).

(** One round of the loop that writes the folder's contacts back. *)
Definition write_slot (folder_contacts : list Contact) (lg : nat * nat)
  : SE App unit :=
  let '(local_i, global_i) := lg in
  c ← lift (getitem folder_contacts local_i);
  l ← gets contacts;
  l ← lift (setitem l global_i c);
  modify (set_contacts l).

Definition _reorder_within_folder (source_idx target_idx : nat)
  : SE App unit :=
  l ← gets contacts;
  source ← lift (getitem l source_idx);
  let folder := folder_path source in
  let folder_indices := folder_indices_of folder l in
  src_pos ← lift (index source_idx folder_indices);
  tgt_pos ← lift (index target_idx folder_indices);
  folder_contacts ← lift (mapM (getitem l) folder_indices);
  '(contact_obj, folder_contacts) ← lift (pop folder_contacts src_pos);
  let folder_contacts := Py.insert tgt_pos contact_obj folder_contacts in
  for_each (enumerate folder_indices) (write_slot folder_contacts).

Definition _move_contact_to_folder_at_position
    (source_idx : nat) (target_folder : string) (target_idx : nat)
  : SE App unit :=
  l ← gets contacts;
  '(contact, l) ← lift (pop l source_idx);
  modify (set_contacts l) ;;
  let contact := set_folder_path target_folder contact in
  let insert_pos := target_idx in
  let insert_pos :=
    if decide (source_idx < target_idx) then insert_pos - 1 else insert_pos in
  modify (λ a, set_contacts (Py.insert (insert_pos + 1) contact (contacts a)) a).

(** ** Drag-and-drop events *)

(** Where the mouse button was released: over the folder tree (with the
    row under the pointer, the empty string for none), over the contacts
    table (with the index of the row under the pointer, if any), or over
    another widget. *)
Inductive drop_target : Type :=
| OverFolderTree (node_id : string)
| OverContactsTable (target_row : option nat)
| OverOther.

Definition on_start_drag (row_id : option nat) : SE App unit :=
  match row_id with
  | None => modify (set_drag_data None)
  | Some idx => modify (set_drag_data (Some (mkDrag idx false)))
  end.

(** [on_drag_motion]; [far] tells whether the pointer is at least
    [DRAG_THRESHOLD] pixels away from where the drag started, [over] is
    the row of the folder tree under the pointer: [None] when the
    pointer is not over the folder tree, the empty string when it is
    over no row.  The [<<TreeviewSelect>>] event that [selection_set]
    raises is delivered afterwards, as a call of [on_folder_select]. *)
Definition on_drag_motion (far : bool) (over : option string)
  : SE App unit :=
  d ← gets drag_data;
  match d with
  | None => skip
  | Some d =>
      let moved := negb (dragged d) && far in
      (if moved
       then modify (set_drag_data (Some (mkDrag (contact_idx d) true)))
       else skip) ;;
      if dragged d || moved
      then match over with
           | Some node =>
               if String.eqb node EmptyString then skip
               else modify (set_tree_selection (Some node))
           | None => skip
           end
      else skip
  end.

(** [source_contact.folder_path = new_folder], on the object held at
    [source_idx]. *)
Definition reparent (source_idx : nat) (new_folder : string) : SE App unit :=
  modify (λ a,
    set_contacts
      (alter (set_folder_path new_folder) source_idx (contacts a)) a).

Definition drop_on_folder (source_idx : nat) (source_contact : Contact)
    (node_id : string) : SE App unit :=
  let node_id := node_or_root node_id in
  let new_folder := node_folder node_id in
  if negb (String.eqb (folder_path source_contact) new_folder)
  then
    reparent source_idx new_folder ;;
    save_contacts ;;
    modify (set_tree_selection (Some node_id)) ;;
    on_folder_select
  else skip.

Definition drop_on_table (source_idx : nat) (source_contact : Contact)
    (target_row : option nat) : SE App unit :=
  match target_row with
  | None => _move_contact_to_end_of_folder source_idx
  | Some target_idx =>
      if decide (target_idx ≠ source_idx)
      then
        l ← gets contacts;
        target_contact ← lift (getitem l target_idx);
        if String.eqb (folder_path target_contact) (folder_path source_contact)
        then _reorder_within_folder source_idx target_idx
        else _move_contact_to_folder_at_position
               source_idx (folder_path target_contact) target_idx
      else skip
  end ;;
  save_contacts.

Definition on_end_drag (drop : drop_target) : SE App unit :=
  d ← gets drag_data;
  match d with
  | None => skip
  | Some d =>
      if negb (dragged d) then modify (set_drag_data None)
      else
        try_except_finally
          (let source_idx := contact_idx d in
           l ← gets contacts;
           source_contact ← lift (getitem l source_idx);
           match drop with
           | OverFolderTree node_id =>
               drop_on_folder source_idx source_contact node_id
           | OverContactsTable target_row =>
               drop_on_table source_idx source_contact target_row
           | OverOther => skip
           end)
          (λ _, modify (show (showerror "Drag Error")))
          (modify (set_drag_data None))
  end.

(** ** Sample data *)

(** A contact with a folder and a name, the other texts empty. *)
Definition contact (folder name_ : string) : Contact :=
  mkContact folder (Some name_) (Some EmptyString) (Some EmptyString)
            (Some EmptyString) (Some EmptyString).

(** An application holding the contacts [l] and nothing else. *)
Definition app_with (l : list Contact) : App :=
  set_contacts l (new_app None).

(** The row [i] is being dragged. *)
Definition dragging (i : nat) (a : App) : App :=
  set_drag_data (Some (mkDrag i true)) a.

(** The state and the outcome of running a statement. *)
Definition exec {A} (m : SE App A) (a : App) : App := (m a).2.
Definition outcome {A} (m : SE App A) (a : App) : result A := (m a).1.

(** The folder tree is built, then the node [node_id] is selected. *)
Definition started (l : list Contact) : App :=
  exec build_folder_tree (app_with l).
Definition selecting (node_id : string) (a : App) : App :=
  set_tree_selection (Some node_id) a.

(** ** Statements of the specification *)

(** The elements of [l] at the positions that [sel] does not name. *)
Fixpoint remaining_from {A} (k : nat) (sel : list nat) (l : list A) : list A :=
  match l with
  | [] => []
  | x :: l' =>
      if bool_decide (k ∈ sel) then remaining_from (S k) sel l'
      else x :: remaining_from (S k) sel l'
  end.
Definition remaining {A} (sel : list nat) (l : list A) : list A :=
  remaining_from 0 sel l.

(** Deleting the positions [sel] fails silently on invalid positions:
    no error, and the contacts at the valid positions are removed. *)
Definition deletes_silently (sel : list nat) (a : App) : Prop :=
  outcome (delete_selected sel true) a = Ok ()
  ∧ contacts (exec (delete_selected sel true) a) = remaining sel (contacts a).

(** A segment-wise prefix test: [fp] is [folder] or lies below it. *)
Definition in_folder_subtree (folder : string) (c : Contact) : bool :=
  in_subtree folder (folder_path c).

(** Deleting the subtree of [folder] keeps exactly the contacts that are
    neither in [folder] nor below it. *)
Definition deletes_subtree_only (folder : string) (a : App) : Prop :=
  contacts (exec (delete_selected [] true) (selecting folder a))
  = filter (λ c, in_folder_subtree folder c = false) (contacts a).

(** The path [p] is a node of the folder index. *)
Definition is_folder (p : string) (a : App) : Prop :=
  is_Some (folder_path_to_id a !! p).

(** A rebuild of the folder tree keeps the folder [p]. *)
Definition survives_rebuild (p : string) (a : App) : Prop :=
  is_folder p a → is_folder p (exec build_folder_tree a).

(** The values that [cur] takes while [build_folder_tree] walks over
    the parts of one path: the path of every folder on the way. *)
Fixpoint prefixes_from (cur_ : string) (parts : list string) : list string :=
  match parts with
  | [] => []
  | part :: rest =>
      let cur' := join_path cur_ part in cur' :: prefixes_from cur' rest
  end.

(** The folders that the folder path of a contact stands for. *)
Definition path_nodes (path : string) : list string :=
  if String.eqb path EmptyString then []
  else prefixes_from EmptyString (split sep (strip_char sep path)).

(** The first folder on a folder path: its first segment once the
    slashes at both ends are removed; the path of the root has none. *)
Definition first_folder (path : string) : option string :=
  if String.eqb path EmptyString then None
  else head (split sep (strip_char sep path)).

(** The folder tree and the folder index agree: the index maps the root
    path to the root node, its values are items of the tree, and every
    item but the root node is a path of the index. *)
Record synced (t : list tree_item) (m : gmap string string) : Prop := {
  synced_root : m !! EmptyString = Some root_id;
  synced_value : ∀ p v, m !! p = Some v → v ∈ iid <$> t;
  synced_item : ∀ i, i ∈ iid <$> t → i = root_id ∨ is_Some (m !! i);
}.

(** The contacts of [folder], in store order. *)
Definition folder_contacts_of (folder : string) (l : list Contact)
  : list Contact :=
  filter (λ c, folder_path c = folder) l.

(** The local position of the store index [i]: how many contacts of
    [folder] come before it. *)
Definition local_pos (folder : string) (l : list Contact) (i : nat) : nat :=
  length (folder_contacts_of folder (take i l)).

(** The store whose slots of [folder] hold [vals], in order, the other
    slots being those of [l]. *)
Fixpoint rewrite_folder (folder : string) (vals l : list Contact)
  : list Contact :=
  match l with
  | [] => []
  | c :: l' =>
      if decide (folder_path c = folder) then
        match vals with
        | v :: vals' => v :: rewrite_folder folder vals' l'
        | [] => c :: rewrite_folder folder [] l'
        end
      else c :: rewrite_folder folder vals l'
  end.

(** The indices of the contacts of [folder], counted from [k]. *)
Definition folder_indices_from (k : nat) (folder : string) (l : list Contact)
  : list nat :=
  fst <$> filter (λ ic, folder_path ic.2 = folder) (enumerate_from k l).

(** ** The reader, character by character *)

Section scanner.
Import Csv.

(** One step of the parser where it does not raise. *)
Definition step (p : parser) (c : option ascii) : parser :=
  match parse_process_char p c with
  | Ok p' => p'
  | Raise _ => p
  end.

(** The parser once [c] is added to its field, whatever the limit. *)
Definition add_char (c : ascii) (p : parser) : parser :=
  {| st := st p; field := field p +:+ String c EmptyString;
     fields := fields p |}.

(** The text is no longer than a field may be. *)
Definition within_limit (f : string) : Prop :=
  (N.of_nat (String.length f) ≤ field_size_limit)%N.

Global Instance within_limit_dec f : Decision (within_limit f).
Proof. unfold within_limit. apply _. Defined.

(** The field of the parser can take [n] more characters. *)
Definition room (p : parser) (n : nat) : Prop :=
  (N.of_nat (String.length (field p) + n) ≤ field_size_limit)%N.

Global Instance room_dec p n : Decision (room p n).
Proof. unfold room. apply _. Defined.

(** The reader stops on an over-long field. *)
Definition too_long : stream := ([], Some CsvError).

(** The records left when the input ends with the parser in [p]. *)
Definition at_end (p : parser) : stream :=
  if negb (String.eqb (field p) EmptyString)
     || bool_decide (st p = IN_QUOTED_FIELD)
  then ([fields (parse_save_field p)], None)
  else ([], None).

(** The end of a line: the record is complete or goes on with [k]. *)
Definition end_line (p : parser) (k : parser → stream) : stream :=
  let p' := step p None in
  if bool_decide (st p' = START_RECORD) then yield (fields p') (k parse_reset)
  else k p'.

(** The reader run character by character: [p] has read the characters
    of the current line so far, [ne] tells whether there are any. *)
Fixpoint scan (p : parser) (ne : bool) (s : string) : stream :=
  match s with
  | EmptyString => if ne then end_line p at_end else at_end p
  | String c s' =>
      match parse_process_char p (Some c) with
      | Raise e => ([], Some e)
      | Ok p1 =>
          if Ascii.eqb c LF then end_line p1 (λ q, scan q false s')
          else if Ascii.eqb c CR then
            match s' with
            | String c2 s'' =>
                if Ascii.eqb c2 LF
                then match parse_process_char p1 (Some c2) with
                     | Raise e => ([], Some e)
                     | Ok p2 => end_line p2 (λ q, scan q false s'')
                     end
                else end_line p1 (λ q, scan q false s')
            | EmptyString => end_line p1 at_end
            end
          else scan p1 true s'
      end
  end.

(** What the reader yields of rows that the writer wrote: the rows up
    to the first one with an over-long field, where it raises. *)
Fixpoint read_back (rows : list (list string)) : stream :=
  match rows with
  | [] => ([], None)
  | row :: rest =>
      if decide (Forall within_limit row) then yield row (read_back rest)
      else too_long
  end.


(** No character of [s] is a newline character. *)
Fixpoint no_newline (s : string) : bool :=
  match s with
  | EmptyString => true
  | String c s' => negb (is_newline c) && no_newline s'
  end.

(** The parser once the characters [f] are added to its field. *)
Definition add_str (f : string) (p : parser) : parser :=
  {| st := st p; field := field p +:+ f; fields := fields p |}.

(** The parser has read a field and waits for what follows it. *)
Definition after_field (f : string) (p p' : parser) : Prop :=
  field p' = f ∧ fields p' = fields p
  ∧ (st p' = IN_FIELD ∨ st p' = QUOTE_IN_QUOTED_FIELD ∨ st p' = START_FIELD
     ∨ st p' = START_RECORD).

End scanner.

(** ** Statements about loading *)

(** The contact that [load_contacts] makes of the row written for [c]. *)
Definition reloaded (c : Contact) : Contact :=
  {| folder_path := _norm_path (folder_path c);
     name := Some (default EmptyString (name c));
     ammyadmin_id := Some (default EmptyString (ammyadmin_id c));
     anydesk_id := Some (default EmptyString (anydesk_id c));
     rustdesk_id := Some (default EmptyString (rustdesk_id c));
     notes := Some (default EmptyString (notes c)) |}.

(** No field of the contact is longer than the reader's field size
    limit. *)
Definition fitting (c : Contact) : Prop :=
  Forall within_limit (default EmptyString <$> contact_row c).
Global Instance fitting_dec c : Decision (fitting c).
Proof. unfold fitting. apply _. Defined.

(** The contacts before the first one with an over-long field. *)
Fixpoint readable (l : list Contact) : list Contact :=
  match l with
  | [] => []
  | c :: l' => if decide (fitting c) then c :: readable l' else []
  end.

(** Saving and loading gives the contacts back, the folder paths
    stripped. *)
Definition roundtrips (a : App) : Prop :=
  ∃ a', (save_contacts ;; load_contacts) a = (Ok (), a')
    ∧ contacts a'
      = (λ c, set_folder_path (_norm_path (folder_path c)) c) <$> contacts a.

(** A text of [n] characters; a name one character longer than the
    field size limit, and a store with one contact of this name. *)
Definition text_of_length (n : nat) : string :=
  Nat.iter n (String "a"%char) EmptyString.
Definition long_name : string := text_of_length (N.to_nat 131073).
Definition long_name_app : App := app_with [contact EmptyString long_name].

(** Every field of the contact is a text, as in the contacts made by
    [_add_contact_callback]. *)
Definition texts_only (c : Contact) : Prop :=
  is_Some (name c) ∧ is_Some (ammyadmin_id c) ∧ is_Some (anydesk_id c)
  ∧ is_Some (rustdesk_id c) ∧ is_Some (notes c).

(** The cells of a row, each under the name of its column; a column that
    the row does not reach holds [None]. *)
Fixpoint cells (fieldnames row : list string)
  : list (string * option string) :=
  match fieldnames with
  | [] => []
  | key :: fieldnames' => (key, head row) :: cells fieldnames' (tail row)
  end.

(** The row has a value in a column named [key]. *)
Definition reaches (fieldnames row : list string) (key : string) : Prop :=
  ∃ k, fieldnames !! k = Some key ∧ k < length row.

(** The field names and the data rows of a file: the first record, and
    the records after it that are not blank, among the records that the
    reader yields before it stops. *)
Definition fieldnames_of (file : string) : list string :=
  match (Csv.reader file).1 with
  | fieldnames :: _ => fieldnames
  | [] => []
  end.
Definition data_rows (file : string) : list (list string) :=
  match (Csv.reader file).1 with
  | _ :: rest => filter (λ row, row ≠ []) rest
  | [] => []
  end.

(** Loading the file raises an exception. *)
Definition load_fails (file : string) : Prop :=
  outcome load_contacts (new_app (Some file)) ≠ Ok ().

(** Loading fails exactly when a data row lacks a required field. *)
Definition fails_on_missing_required (file : string) : Prop :=
  load_fails file
  ↔ ∃ row, row ∈ data_rows file
           ∧ ¬ (reaches (fieldnames_of file) row "folder"
                ∧ reaches (fieldnames_of file) row "name").


(** Writing one cell of a row into its dictionary. *)
Definition put (d : gmap string (option string))
    (kv : string * option string) : gmap string (option string) :=
  <[kv.1 := kv.2]> d.

(** A file whose only data row stops after the folder. *)
Definition short_row_file : string :=
  Csv.writerows [header; [Some "A"]].


(** ** The contact dialog, the contacts table, editing *)

(** The texts typed into the fields of [ContactDialog]. *)
Record dialog_entry : Type := mkEntry {
  e_name : string;
  e_ammy : string;
  e_anydesk : string;
  e_rustdesk : string;
  e_notes : string;
}.

(** [ContactDialog.apply]: the texts are stripped; without a name a
    warning is shown and [on_save] is not called. *)
Definition ContactDialog_apply (e : dialog_entry)
    (on_save : option (string → string → string → string → string
                       → SE App unit)) : SE App unit :=
  let name_ := strip (e_name e) in
  let ammy := strip (e_ammy e) in
  let anydesk := strip (e_anydesk e) in
  let rustdesk := strip (e_rustdesk e) in
  let notes_ := strip (e_notes e) in
  if String.eqb name_ EmptyString
  then modify (show (showwarning "Data Input"))
  else match on_save with
       | Some f => f name_ ammy anydesk rustdesk notes_
       | None => skip
       end.

(** [add_contact]; [entry] is what the dialog was closed with, [None]
    when it was cancelled. *)
Definition add_contact (entry : option dialog_entry) : SE App unit :=
  match entry with
  | None => skip
  | Some e => ContactDialog_apply e (Some _add_contact_callback)
  end.

(** The assignments of [on_save] in [edit_selected], on one contact. *)
Definition set_texts (name_ ammy anydesk rustdesk notes_ : string)
    (c : Contact) : Contact :=
  {| folder_path := folder_path c; name := Some name_;
     ammyadmin_id := Some ammy; anydesk_id := Some anydesk;
     rustdesk_id := Some rustdesk; notes := Some notes_ |}.

(** [on_save] of [edit_selected], for the contact object held at [idx]. *)
Definition edit_on_save (idx : nat)
    (name_ ammy anydesk rustdesk notes_ : string) : SE App unit :=
  modify (λ a,
    set_contacts
      (alter (set_texts name_ ammy anydesk rustdesk notes_) idx (contacts a))
      a) ;;
  save_contacts.

(** [edit_selected]; [sel] is the selection of the contacts table as
    indices, [entry] what the dialog was closed with. *)
Definition edit_selected (sel : list nat) (entry : option dialog_entry)
  : SE App unit :=
  match sel with
  | [] => modify (show (showinfo "Edit"))
  | idx :: _ =>
      l ← gets contacts;
      _ ← lift (getitem l idx);
      match entry with
      | None => skip
      | Some e => ContactDialog_apply e (Some (edit_on_save idx))
      end
  end.

(** The values of a table row: name, AmmyAdmin ID, AnyDesk ID, RustDesk
    ID, notes. *)
Definition row_values (c : Contact) : list (option string) :=
  [name c; ammyadmin_id c; anydesk_id c; rustdesk_id c; notes c].

(** The rows that [refresh_contacts_table] puts into the contacts
    table: the item id, which is the index in the store, and the values
    of every contact of the current folder. *)
Definition refresh_contacts_table (a : App)
  : list (nat * list (option string)) :=
  (λ ic, (ic.1, row_values ic.2))
    <$> filter (λ ic, _norm_path (folder_path ic.2)
                      = _norm_path (current_folder a))
               (enumerate (contacts a)).

(** The item ids of the rows of the contacts table. *)
Definition table_iids (a : App) : list nat := fst <$> refresh_contacts_table a.

(** ** Launching a remote access program *)











(** ** Statements about the contacts table and the file *)

(** The folder of the contact is the current folder, both normalised. *)
Definition shown (a : App) (c : Contact) : Prop :=
  _norm_path (folder_path c) = _norm_path (current_folder a).
Global Instance shown_dec a c : Decision (shown a c).
Proof. unfold shown. apply _. Defined.

(** The file content that [save_contacts] writes for a store. *)
Definition saved (l : list Contact) : string :=
  Csv.writerows (header :: (contact_row <$> l)).

(** The contact that the dialog adds to the current folder. *)
Definition entered (a : App) (e : dialog_entry) : Contact :=
  mkContact (current_folder a) (Some (strip (e_name e)))
            (Some (strip (e_ammy e))) (Some (strip (e_anydesk e)))
            (Some (strip (e_rustdesk e))) (Some (strip (e_notes e))).


(** ** Statements about drag gestures *)

(** The stores [l] and [l'] hold the same contacts, folder paths apart. *)
Definition same_people (l l' : list Contact) : Prop :=
  set_folder_path EmptyString <$> l' ≡ₚ set_folder_path EmptyString <$> l.

(** What a drag gesture leaves alone: the people in the store, the
    folder index, the folder tree and the drag in progress. *)
Definition drag_frame (a s : App) : Prop :=
  same_people (contacts a) (contacts s)
  ∧ folder_path_to_id s = folder_path_to_id a
  ∧ folder_tree s = folder_tree a
  ∧ drag_data s = drag_data a.


(** No change of the store is left unsaved: from [a] to [a'] the store
    and the file are as they were, or the file holds the new store. *)
Definition settled (a a' : App) : Prop :=
  (contacts a' = contacts a ∧ csv_file a' = csv_file a)
  ∨ csv_file a' = Some (saved (contacts a')).

(** The name of the contact is a text, not empty and stripped. *)
Definition well_named (c : Contact) : Prop :=
  ∃ n, name c = Some n ∧ n ≠ EmptyString ∧ strip n = n.

(** The file holds the store: it is what [save_contacts] writes for the
    contacts in memory. *)
Definition file_current (a : App) : Prop :=
  csv_file a = Some (saved (contacts a)).

(** The folder path of the contact is stripped. *)
Definition normalised (c : Contact) : Prop :=
  _norm_path (folder_path c) = folder_path c.

(** ** Statements about the folder tree *)

(** The parts of a path joined by the separator again. *)
Fixpoint join_parts (parts : list string) : string :=
  match parts with
  | [] => EmptyString
  | [part] => part
  | part :: rest => part +:+ String sep (join_parts rest)
  end.

(** The item that [build_folder_tree] inserts for the root. *)
Definition root_item : tree_item := mkItem root_id EmptyString "Root".

(** An item of the folder tree is the root item, or a folder: its parent
    is one of the items [seen] before it, its name holds no separator,
    and its id is the path of its parent joined with its name. *)
Definition item_ok (seen : list string) (it : tree_item) : Prop :=
  it = root_item
  ∨ (parent it ∈ seen ∧ iid it ≠ EmptyString
     ∧ iid it = join_path (node_folder (parent it)) (text it)
     ∧ contains sep (text it) = false).

Fixpoint items_ok (seen : list string) (t : list tree_item) : Prop :=
  match t with
  | [] => True
  | it :: rest => item_ok seen it ∧ items_ok (iid it :: seen) rest
  end.

(** The folder tree is well formed: tree and index agree, the index
    maps every folder path to the node of that name, no folder has the
    name of the root node, and every item comes after its parent and is
    named by its path. *)
Record tree_ok (t : list tree_item) (m : gmap string string) : Prop := {
  ok_synced : synced t m;
  ok_index : ∀ p v, m !! p = Some v → v = node_or_root p;
  ok_no_root : m !! root_id = None;
  ok_items : items_ok [] t;
}.

(** The local variables of the walk over a path agree with a well
    formed tree: [cur] is a folder of the index and [parent_id] is its
    node. *)
Record walk_ok (w : walk) : Prop := {
  wk_tree : tree_ok (w_tree w) (w_index w);
  wk_parent : parent_id w = node_or_root (cur w);
  wk_cur : is_Some (w_index w !! cur w);
}.

(** * Properties *)

(** ** Python list operations *)

Section py_list.
Context {A : Type}.
Implicit Types (l : list A) (x : A) (i k : nat).

Lemma insert_length k x l : length (Py.insert k x l) = S (length l).
Proof.
  unfold Py.insert. rewrite length_app. simpl.
  rewrite length_take, length_drop. lia.
Qed.

Lemma insert_lookup_eq k x l :
  k ≤ length l → Py.insert k x l !! k = Some x.
Proof.
  intros Hk. unfold Py.insert.
  rewrite lookup_app_r by (rewrite length_take; lia).
  rewrite length_take. replace (k - k `min` length l) with 0 by lia. done.
Qed.

Lemma insert_lookup_lt k i x l :
  i < k → k ≤ length l → Py.insert k x l !! i = l !! i.
Proof.
  intros Hik Hk. unfold Py.insert.
  rewrite lookup_app_l by (rewrite length_take; lia).
  by rewrite lookup_take_lt.
Qed.

Lemma insert_lookup_gt k i x l :
  k ≤ i → k ≤ length l → Py.insert k x l !! S i = l !! i.
Proof.
  intros Hki Hk. unfold Py.insert.
  rewrite lookup_app_r by (rewrite length_take; lia).
  rewrite length_take. replace (S i - k `min` length l) with (S (i - k)) by lia.
  simpl. rewrite lookup_drop. f_equal. lia.
Qed.

Lemma delete_insert k x l :
  k ≤ length l → delete k (Py.insert k x l) = l.
Proof.
  intros Hk. unfold Py.insert.
  replace k with (length (take k l)) at 1 by (rewrite length_take; lia).
  rewrite delete_middle. apply take_drop.
Qed.

Lemma pop_Some l i x :
  l !! i = Some x → pop l i = Ok (x, delete i l).
Proof. intros H. unfold pop. by rewrite H. Qed.

Lemma getitem_Some l i x : l !! i = Some x → getitem l i = Ok x.
Proof. intros H. unfold getitem. by rewrite H. Qed.

End py_list.


(** ** Running statements *)

Ltac se_run :=
  unfold mbind, mret, SE_bind, SE_ret, gets, modify, lift, skip.
Ltac se_unfold :=
  unfold mbind, mret, SE_bind, SE_ret, gets, modify, lift, skip in *.

Lemma eqb_decide (s t : string) : String.eqb s t = bool_decide (s = t).
Proof.
  destruct (String.eqb_spec s t).
  - by rewrite bool_decide_eq_true_2.
  - by rewrite bool_decide_eq_false_2.
Qed.

(** ** Dropping a contact on a folder *)




(** ** Moving a contact after a contact of another folder *)

(** C2: [_move_contact_to_folder_at_position i folder j] takes the
    contact at [i] out of the store, assigns it the folder [folder] and
    puts it back right after the contact that was at [j]: that contact is
    now at [j - 1] when [i < j] and at [j] otherwise, the moved contact is
    one index further, and the other contacts keep their order.  (That
    the two contacts are in different folders is not needed.) *)
Theorem move_to_folder_after_position
    (a : App) (i j : nat) (ci cj : Contact) (folder : string) :
  contacts a !! i = Some ci →
  contacts a !! j = Some cj →
  i ≠ j →
  let j' := if decide (i < j) then j - 1 else j in
  ∃ a', _move_contact_to_folder_at_position i folder j a = (Ok (), a')
    ∧ contacts a' !! j' = Some cj
    ∧ contacts a' !! S j' = Some (set_folder_path folder ci)
    ∧ length (contacts a') = length (contacts a)
    ∧ delete (S j') (contacts a') = delete i (contacts a).
Proof.
  intros Hi Hj Hne j'.
  pose proof (lookup_lt_Some _ _ _ Hi) as Hli.
  pose proof (lookup_lt_Some _ _ _ Hj) as Hlj.
  unfold _move_contact_to_folder_at_position. se_unfold.
  rewrite (pop_Some _ _ _ Hi). simpl.
  eexists. split; [reflexivity|]. simpl.
  assert (Hlen : length (delete i (contacts a)) = length (contacts a) - 1).
  { rewrite length_delete; [lia|]. by eexists. }
  replace ((if decide (i < j) then j - 1 else j) + 1) with (S j')
    by (subst j'; lia).
  assert (Hj' : S j' ≤ length (delete i (contacts a))).
  { subst j'. case_decide; lia. }
  split_and!.
  - rewrite insert_lookup_lt by lia.
    subst j'. case_decide.
    + rewrite list_lookup_delete_ge by lia. rewrite <- Hj. f_equal. lia.
    + rewrite list_lookup_delete_lt by lia. done.
  - by rewrite insert_lookup_eq.
  - rewrite insert_length. lia.
  - by rewrite delete_insert.
Qed.

Lemma move_to_folder_after_position_witness :
  let a := app_with [contact "A" "Bob"; contact "A" "Al"; contact "B" "Cy";
                     contact "B" "Di"] in
  ∃ a', _move_contact_to_folder_at_position 0 "B" 2 a = (Ok (), a')
        ∧ contacts a' !! 1 = Some (contact "B" "Cy")
        ∧ contacts a' !! 2 = Some (contact "B" "Bob").
Proof.
  intros a.
  destruct (move_to_folder_after_position a 0 2 (contact "A" "Bob")
              (contact "B" "Cy") "B" eq_refl eq_refl ltac:(lia))
    as (a' & Hrun & Hj & Hi & _).
  exists a'. split; [exact Hrun|]. split; [exact Hj | exact Hi].
Defined.

(** ** Deleting the selected contacts *)

Section remaining.
Context {A : Type}.
Implicit Types (l : list A) (sel : list nat).

Lemma remaining_from_app k sel l1 l2 :
  remaining_from k sel (l1 ++ l2)
  = remaining_from k sel l1 ++ remaining_from (k + length l1) sel l2.
Proof.
  revert k. induction l1 as [|x l1 IH]; intros k; simpl.
  - by rewrite Nat.add_0_r.
  - rewrite IH. replace (S k + length l1) with (k + S (length l1)) by lia.
    by case_bool_decide.
Qed.

Lemma remaining_from_all_lt k sel l :
  Forall (λ i, i < k) sel → remaining_from k sel l = l.
Proof.
  revert k. induction l as [|x l IH]; intros k Hsel; simpl; [done|].
  rewrite bool_decide_eq_false_2.
  - rewrite IH; [done|]. eapply Forall_impl; [exact Hsel|]. simpl. lia.
  - intros Hin. rewrite Forall_forall in Hsel. specialize (Hsel _ Hin). lia.
Qed.

Lemma remaining_from_cons_ge k m sel l :
  k + length l ≤ m → remaining_from k (m :: sel) l = remaining_from k sel l.
Proof.
  revert k. induction l as [|x l IH]; intros k Hm; simpl in *; [done|].
  rewrite IH by lia.
  destruct (decide (k ∈ sel)) as [Hin|Hin].
  - rewrite !bool_decide_eq_true_2; [done..|]. by right.
  - rewrite !bool_decide_eq_false_2; [done..|].
    intros [->|?]%elem_of_cons; [lia|done].
Qed.

Lemma remaining_from_proper k sel sel' l :
  (∀ i, i ∈ sel ↔ i ∈ sel') → remaining_from k sel l = remaining_from k sel' l.
Proof.
  intros Hs. revert k. induction l as [|x l IH]; intros k; simpl; [done|].
  rewrite IH. by rewrite (bool_decide_ext _ _ (Hs k)).
Qed.

Lemma remaining_delete m sel l :
  m < length l → Forall (λ i, i < m) sel →
  remaining sel (delete m l) = remaining (m :: sel) l.
Proof.
  intros Hm Hsel. unfold remaining.
  destruct (lookup_lt_is_Some_2 l m Hm) as [x Hx].
  rewrite delete_take_drop.
  rewrite <- (take_drop_middle l m x Hx) at 3.
  rewrite !remaining_from_app. simpl.
  rewrite length_take, Nat.min_l by lia.
  rewrite remaining_from_cons_ge by (rewrite length_take; lia).
  f_equal.
  rewrite bool_decide_eq_true_2 by (by left).
  rewrite (remaining_from_all_lt m) by done.
  rewrite remaining_from_all_lt; [done|].
  constructor; [lia|]. eapply Forall_impl; [exact Hsel|]. simpl. lia.
Qed.
End remaining.

Global Instance nat_ge_trans : Transitive nat_ge.
Proof. unfold nat_ge. intros x y z ??. lia. Qed.
Global Instance nat_ge_total : Total nat_ge.
Proof. unfold nat_ge. intros x y. lia. Qed.

Lemma set_contacts_twice l l' a :
  set_contacts l (set_contacts l' a) = set_contacts l a.
Proof. done. Qed.

Lemma del_contact_ok i a :
  i < length (contacts a) →
  del_contact i a = (Ok (), set_contacts (delete i (contacts a)) a).
Proof.
  intros Hi. unfold del_contact, delitem. se_unfold.
  by rewrite decide_True.
Qed.

Lemma del_contact_raise i a :
  length (contacts a) ≤ i → del_contact i a = (Raise IndexError, a).
Proof.
  intros Hi. unfold del_contact, delitem. se_unfold.
  by rewrite decide_False by lia.
Qed.

Lemma del_loop indices a :
  StronglySorted nat_ge indices → NoDup indices →
  Forall (λ i, i < length (contacts a)) indices →
  for_each indices del_contact a
  = (Ok (), set_contacts (remaining indices (contacts a)) a).
Proof.
  intros Hs. revert a. induction Hs as [|m rest Hs IH Hm]; intros a Hnd Hlt.
  - simpl. unfold remaining. rewrite remaining_from_all_lt by constructor.
    by destruct a.
  - apply NoDup_cons in Hnd as [Hnin Hnd].
    apply Forall_cons in Hlt as [Hml Hlt].
    assert (Hrest : Forall (λ i, i < m) rest).
    { rewrite Forall_forall in Hm |- *. intros i Hi.
      specialize (Hm i Hi). unfold nat_ge in Hm.
      assert (i ≠ m) by (intros ->; done). lia. }
    simpl. se_unfold. rewrite del_contact_ok by done.
    rewrite IH; [|done|].
    + simpl. rewrite set_contacts_twice. by rewrite remaining_delete.
    + simpl. rewrite length_delete by (by apply lookup_lt_is_Some_2).
      eapply Forall_impl; [exact Hrest|]. simpl. lia.
Qed.

Lemma sorted_reverse_perm sel : sorted_reverse sel ≡ₚ sel.
Proof. apply merge_sort_Permutation. Qed.

(** C7 (as amended): [delete_selected] on a selection of distinct
    positions.  When every position is in range the contacts at these
    positions are removed and the others stay in order; as soon as one
    position is out of range the first [del] raises [IndexError] and the
    store is left as it was: no contact is removed. *)
Theorem delete_selected_positions (sel : list nat) (a : App) :
  sel ≠ [] → NoDup sel →
  (Forall (λ i, i < length (contacts a)) sel →
   ∃ a', delete_selected sel true a = (Ok (), a')
         ∧ contacts a' = remaining sel (contacts a))
  ∧ (Exists (λ i, length (contacts a) ≤ i) sel →
     delete_selected sel true a = (Raise IndexError, a)).
Proof.
  intros Hne Hnd.
  assert (Hrun : delete_selected sel true a
                 = (for_each (sorted_reverse sel) del_contact ;; save_contacts) a).
  { destruct sel; [done|]. reflexivity. }
  pose proof (sorted_reverse_perm sel) as Hp.
  assert (Hs : StronglySorted nat_ge (sorted_reverse sel)).
  { apply StronglySorted_merge_sort; apply _. }
  split.
  - intros Hlt. rewrite Hrun. se_unfold.
    rewrite del_loop; [| done | by rewrite Hp | by rewrite Hp].
    unfold save_contacts. se_unfold. eexists. split; [reflexivity|]. simpl.
    apply remaining_from_proper. intros i. by rewrite Hp.
  - intros Hex. rewrite Hrun. se_unfold.
    apply Exists_exists in Hex as (b & Hb & Hlen).
    destruct (sorted_reverse sel) as [|m rest] eqn:Hsort.
    { apply Permutation_nil_l in Hp. done. }
    assert (Hm : length (contacts a) ≤ m).
    { rewrite <- Hp in Hb. apply elem_of_cons in Hb as [->|Hb]; [done|].
      apply StronglySorted_cons in Hs as [Hs _].
      rewrite Forall_forall in Hs. specialize (Hs b Hb). unfold nat_ge in Hs. lia. }
    simpl. se_unfold. by rewrite del_contact_raise.
Qed.

Lemma delete_selected_positions_witness :
  let a := app_with [contact "A" "Bob"; contact "A" "Al"; contact "B" "Cy"] in
  (∃ a', delete_selected [2; 0] true a = (Ok (), a')
         ∧ contacts a' = [contact "A" "Al"]).
Proof.
  intros a.
  assert (Hne : [2; 0] ≠ @nil nat) by discriminate.
  assert (Hnd : NoDup [2; 0]).
  { apply (bool_decide_unpack _). vm_compute. exact I. }
  assert (Hlt : Forall (λ i, i < length (contacts a)) [2; 0]).
  { apply (bool_decide_unpack _). vm_compute. exact I. }
  destruct (delete_selected_positions [2; 0] a Hne Hnd) as [Hok _].
  destruct (Hok Hlt) as (a' & Hrun & Hc).
  exists a'. split; [exact Hrun | exact Hc].
Defined.

(** C7 (as stated) fails: with the positions 0 and 5 on three contacts
    the deletion raises instead of removing the contact at 0. *)
Lemma delete_out_of_range_raises :
  let a := app_with [contact "A" "Bob"; contact "A" "Al"; contact "B" "Cy"] in
  ¬ deletes_silently [0; 5] a.
Proof.
  intros a [Hok _]. vm_compute in Hok. discriminate.
Qed.

(** ** Rebuilding the folder tree *)

Lemma split_nonempty s : split sep s ≠ [].
Proof.
  destruct s as [|c s]; simpl; [done|].
  destruct (Ascii.eqb c sep); [done|]. by destruct (split sep s).
Qed.

(** Stripping leaves no stripped character in front. *)
Lemma strip_with_head (p : ascii → bool) s :
  rstrip p (lstrip p s) = EmptyString
  ∨ ∃ c s', rstrip p (lstrip p s) = String c s' ∧ p c = false.
Proof.
  assert (Hl : lstrip p s = EmptyString
               ∨ ∃ c s', lstrip p s = String c s' ∧ p c = false).
  { induction s as [|c s IH]; simpl; [by left|].
    destruct (p c) eqn:Hc; [exact IH|]. right. by exists c, s. }
  destruct Hl as [->|(c & s' & -> & Hc)]; [by left|]. simpl.
  destruct (rstrip p s') as [|c' r].
  - rewrite Hc. right. by exists c, EmptyString.
  - right. by exists c, (String c' r).
Qed.

Lemma strip_char_head s :
  strip_char sep s = EmptyString
  ∨ ∃ c s', strip_char sep s = String c s' ∧ Ascii.eqb c sep = false.
Proof.
  destruct (strip_with_head (Ascii.eqb sep) s) as [?|(c & s' & Hs & Hc)];
    [by left|right].
  exists c, s'. split; [done|]. by rewrite Ascii.eqb_sym.
Qed.

Lemma contains_join cur_ part :
  cur_ ≠ EmptyString → contains sep (join_path cur_ part) = true.
Proof.
  intros Hc. unfold join_path. rewrite (proj2 (String.eqb_neq _ _) Hc).
  clear Hc. induction cur_ as [|c cur_ IH]; simpl; [done|].
  rewrite IH. apply orb_true_r.
Qed.

Lemma join_path_nonempty cur_ part :
  cur_ ≠ EmptyString → join_path cur_ part ≠ EmptyString.
Proof.
  intros Hc. unfold join_path. rewrite (proj2 (String.eqb_neq _ _) Hc).
  by destruct cur_.
Qed.

Lemma prefixes_contain_sep parts : ∀ cur_ p,
  cur_ ≠ EmptyString → p ∈ prefixes_from cur_ parts → contains sep p = true.
Proof.
  induction parts as [|part parts IH]; intros cur_ p Hc Hp; simpl in Hp.
  - by apply elem_of_nil in Hp.
  - apply elem_of_cons in Hp as [->|Hp]; [by apply contains_join|].
    eapply IH; [|exact Hp]. by apply join_path_nonempty.
Qed.

(** The walk over a folder path comes to the name of the root node
    exactly when this is the first folder on the path. *)
Lemma root_in_path_nodes path :
  root_id ∈ path_nodes path ↔ first_folder path = Some root_id.
Proof.
  unfold path_nodes, first_folder.
  destruct (String.eqb path EmptyString); [split; [by intros ?%elem_of_nil|done]|].
  pose proof (split_nonempty (strip_char sep path)) as Hne.
  destruct (strip_char_head path) as [Hs|(c & s' & Hs & Hc)]; rewrite Hs in *.
  { simpl. split; [by intros [?|?%elem_of_nil]%elem_of_cons|done]. }
  destruct (split sep (String c s')) as [|p1 rest] eqn:Hsplit; [done|].
  assert (Hp1 : p1 ≠ EmptyString).
  { simpl in Hsplit. rewrite Hc in Hsplit.
    destruct (split sep s'); by injection Hsplit as <- _. }
  simpl. change (join_path EmptyString p1) with p1. split.
  - intros [->|Hin]%elem_of_cons; [done|].
    by apply (prefixes_contain_sep rest p1 root_id Hp1) in Hin.
  - intros [= ->]. by left.
Qed.

Lemma walk_part_ok part w :
  synced (w_tree w) (w_index w) →
  parent_id w ∈ iid <$> w_tree w →
  join_path (cur w) part ≠ root_id →
  ∃ w', walk_part part w = (Ok (), w')
    ∧ cur w' = join_path (cur w) part
    ∧ synced (w_tree w') (w_index w')
    ∧ parent_id w' ∈ iid <$> w_tree w'
    ∧ dom (w_index w') = dom (w_index w) ∪ {[ join_path (cur w) part ]}.
Proof.
  intros [Hroot Hval Hitem] Hpar Hne. unfold walk_part.
  set (c := join_path (cur w) part) in *.
  destruct (w_index w !! c) as [node|] eqn:Hc.
  - eexists. split; [reflexivity|]. simpl. split_and!; [done|done|..].
    + by eapply Hval.
    + apply elem_of_dom_2 in Hc. set_solver.
  - assert (Hfresh : Treeview.exists_ c (w_tree w) = false).
    { unfold Treeview.exists_. apply orb_false_iff. split.
      - apply bool_decide_eq_false_2. intros Hce. rewrite Hce in Hc. congruence.
      - apply bool_decide_eq_false_2. intros Hin.
        destruct (Hitem _ Hin) as [?|[? ?]]; [done|congruence]. }
    assert (Hpe : Treeview.exists_ (parent_id w) (w_tree w) = true).
    { unfold Treeview.exists_. apply orb_true_iff. right.
      by apply bool_decide_eq_true_2. }
    unfold Treeview.insert. rewrite Hfresh, Hpe. simpl.
    eexists. split; [reflexivity|]. simpl. split_and!; try done.
    + split.
      * rewrite lookup_insert_ne; [done|]. intros Hce. rewrite Hce in Hc. congruence.
      * intros p v. rewrite fmap_app. simpl.
        destruct (decide (c = p)) as [->|Hn].
        -- rewrite lookup_insert_eq. intros [= <-]. set_solver.
        -- rewrite lookup_insert_ne by done. intros Hp.
           apply elem_of_app. left. by eapply Hval.
      * intros i. rewrite fmap_app. simpl. intros [Hi|Hi]%elem_of_app.
        -- destruct (Hitem _ Hi) as [?|[v Hv]]; [by left|]. right.
           destruct (decide (c = i)) as [->|Hn]; [congruence|].
           rewrite lookup_insert_ne by done. by eexists.
        -- apply list_elem_of_singleton in Hi as ->. right.
           rewrite lookup_insert_eq. by eexists.
    + rewrite fmap_app. simpl. set_solver.
    + rewrite dom_insert_L. set_solver.
Qed.

Lemma walk_parts_ok parts w :
  synced (w_tree w) (w_index w) →
  parent_id w ∈ iid <$> w_tree w →
  root_id ∉ prefixes_from (cur w) parts →
  ∃ w', for_each parts walk_part w = (Ok (), w')
    ∧ synced (w_tree w') (w_index w')
    ∧ dom (w_index w')
      = dom (w_index w) ∪ list_to_set (prefixes_from (cur w) parts).
Proof.
  revert w. induction parts as [|part parts IH]; intros w Hs Hp Hr.
  - exists w. simpl. split_and!; [done..|]. set_solver.
  - simpl in Hr. apply not_elem_of_cons in Hr as [Hr1 Hr2].
    destruct (walk_part_ok part w Hs Hp) as (w1 & Hrun & Hcur & Hs1 & Hp1 & Hd1);
      [done|].
    rewrite <- Hcur in Hr2.
    destruct (IH w1 Hs1 Hp1 Hr2) as (w2 & Hrun2 & Hs2 & Hd2).
    exists w2. simpl. se_unfold. rewrite Hrun, Hrun2.
    split_and!; [done..|]. rewrite Hd2, Hd1, Hcur. set_solver.
Qed.

Lemma path_nodes_empty : path_nodes EmptyString = [].
Proof. done. Qed.

Lemma walk_path_ok path a :
  synced (folder_tree a) (folder_path_to_id a) →
  root_id ∉ path_nodes path →
  ∃ a', walk_path path a = (Ok (), a')
    ∧ synced (folder_tree a') (folder_path_to_id a')
    ∧ contacts a' = contacts a
    ∧ dom (folder_path_to_id a')
      = dom (folder_path_to_id a) ∪ list_to_set (path_nodes path).
Proof.
  intros Hs Hr. unfold walk_path, path_nodes in *.
  destruct (String.eqb path EmptyString).
  - exists a. split_and!; [done..|]. set_solver.
  - set (w0 := mkWalk _ _ _ _).
    destruct (walk_parts_ok (split sep (strip_char sep path)) w0)
      as (w' & Hrun & Hs' & Hd); [done| |done|].
    { simpl. eapply synced_value; [exact Hs|]. by destruct Hs. }
    rewrite Hrun. eexists. split; [reflexivity|]. simpl. done.
Qed.

Lemma walk_paths_ok paths a :
  synced (folder_tree a) (folder_path_to_id a) →
  (∀ path, path ∈ paths → root_id ∉ path_nodes path) →
  ∃ a', for_each paths walk_path a = (Ok (), a')
    ∧ contacts a' = contacts a
    ∧ ∀ p, p ∈ dom (folder_path_to_id a')
           ↔ p ∈ dom (folder_path_to_id a)
             ∨ ∃ path, path ∈ paths ∧ p ∈ path_nodes path.
Proof.
  revert a. induction paths as [|path paths IH]; intros a Hs Hr.
  - exists a. simpl. split_and!; [done..|]. intros p. set_solver.
  - destruct (walk_path_ok path a Hs) as (a1 & Hrun & Hs1 & Hc1 & Hd1).
    { apply Hr. by left. }
    destruct (IH a1 Hs1) as (a2 & Hrun2 & Hc2 & Hd2).
    { intros q Hq. apply Hr. by right. }
    exists a2. simpl. se_unfold. rewrite Hrun, Hrun2.
    split_and!; [done|congruence|]. intros p. rewrite Hd2, Hd1.
    rewrite elem_of_union, elem_of_list_to_set. split.
    + intros [[?|?]|(q & Hq & Hp)]; [by left| |].
      * right. exists path. split; [by left|done].
      * right. exists q. split; [by right|done].
    + intros [?|(q & [->|Hq]%elem_of_cons & Hp)]; [by left;left|by left;right|].
      right. by exists q.
Qed.

Lemma elem_of_sorted_set p l : p ∈ sorted_set l ↔ p ∈ l.
Proof.
  unfold sorted_set. rewrite merge_sort_Permutation. apply elem_of_remove_dups.
Qed.

(** C6 (as amended): [build_folder_tree] computes the folder index from
    the current contacts alone.  Unless the first folder on the folder
    path of some contact (the first segment of the path once the slashes
    at both ends are removed) has the name of the root node, the rebuild
    succeeds and the folders are then exactly the root and the folders
    on the folder path of some contact; so a folder made by [add_folder]
    that no contact lies in or below is not part of the rebuilt index. *)
Theorem rebuild_from_records_only (a : App) :
  (∀ c, c ∈ contacts a → first_folder (folder_path c) ≠ Some root_id) →
  ∃ a', build_folder_tree a = (Ok (), a')
    ∧ contacts a' = contacts a
    ∧ ∀ p, is_folder p a'
           ↔ p = EmptyString
             ∨ ∃ c, c ∈ contacts a ∧ p ∈ path_nodes (folder_path c).
Proof.
  intros Hfirst.
  assert (Hr : ∀ c, c ∈ contacts a → root_id ∉ path_nodes (folder_path c)).
  { intros c Hc Hin%root_in_path_nodes. by apply (Hfirst c). }
  unfold build_folder_tree. se_unfold. simpl.
  set (a0 := set_folder_path_to_id _ _).
  destruct (walk_paths_ok
              (sorted_set ((folder_path <$> contacts a) ++ [EmptyString])) a0)
    as (a' & Hrun & Hc & Hd).
  - subst a0. simpl. split.
    + done.
    + intros p v [<- <-]%lookup_singleton_Some. set_solver.
    + intros i Hi. left. set_solver.
  - intros path. rewrite elem_of_sorted_set, elem_of_app.
    intros [(c & -> & Hc)%list_elem_of_fmap | ->%list_elem_of_singleton].
    + by apply Hr.
    + rewrite path_nodes_empty. set_solver.
  - subst a0. simpl in *. rewrite Hrun. exists a'. split_and!; [done..|].
    intros p. unfold is_folder. rewrite <- elem_of_dom, Hd.
    rewrite dom_singleton_L, elem_of_singleton. split.
    + intros [?|(path & Hp & Hn)]; [by left|]. right.
      apply elem_of_sorted_set, elem_of_app in Hp
        as [(c & -> & Hc')%list_elem_of_fmap | ->%list_elem_of_singleton].
      * by exists c.
      * rewrite path_nodes_empty in Hn. set_solver.
    + intros [?|(c & Hc' & Hn)]; [by left|]. right.
      exists (folder_path c). split; [|done].
      apply elem_of_sorted_set, elem_of_app. left.
      apply list_elem_of_fmap. by exists c.
Qed.

Lemma rebuild_from_records_only_witness :
  let a := exec (add_folder (Some "Sales"))
                (selecting root_id (started [contact "Team/Sub" "Cy"])) in
  ∃ a', build_folder_tree a = (Ok (), a')
        ∧ is_folder "Team" a' ∧ is_folder "Team/Sub" a'
        ∧ ¬ is_folder "Sales" a'.
Proof.
  intros a.
  assert (Hr : ∀ c, c ∈ contacts a →
                    first_folder (folder_path c) ≠ Some root_id).
  { intros c Hc. apply list_elem_of_singleton in Hc as ->.
    apply (bool_decide_unpack _). vm_compute. exact I. }
  destruct (rebuild_from_records_only a Hr) as (a' & Hrun & _ & Hf).
  exists a'. split; [exact Hrun|]. split_and!.
  - apply Hf. right. exists (contact "Team/Sub" "Cy").
    split; [by left|]. apply (bool_decide_unpack _). vm_compute. exact I.
  - apply Hf. right. exists (contact "Team/Sub" "Cy").
    split; [by left|]. apply (bool_decide_unpack _). vm_compute. exact I.
  - intros [Hs|(c & Hc & Hn)]%Hf; [discriminate|].
    apply list_elem_of_singleton in Hc as ->.
    revert Hn. apply (bool_decide_unpack _). vm_compute. exact I.
Defined.

(** C6 (as stated) fails: the folder "Sales", made by [add_folder] and
    holding no contact, is a folder before the rebuild and not after. *)
Lemma empty_folder_lost_on_rebuild :
  let a := exec (add_folder (Some "Sales")) (selecting root_id (started [])) in
  ¬ survives_rebuild "Sales" a.
Proof.
  intros a Hs. unfold survives_rebuild in Hs.
  assert (H1 : is_folder "Sales" a) by (vm_compute; eauto).
  specialize (Hs H1). vm_compute in Hs. by destruct Hs.
Qed.

(** ** Adding a folder *)

Lemma add_folder_cancelled (a : App) :
  add_folder None a = (Ok (), a) ∧ add_folder (Some EmptyString) a = (Ok (), a).
Proof. done. Qed.

Lemma add_folder_slash (name_ : string) (a : App) :
  name_ ≠ EmptyString →
  contains sep (strip name_) = true →
  add_folder (Some name_) a = (Ok (), show (showwarning "Folder Name") a).
Proof.
  intros Hne Hs. unfold add_folder. se_unfold.
  rewrite eqb_decide, bool_decide_eq_false_2 by done. by rewrite Hs.
Qed.

Lemma add_folder_duplicate (name_ : string) (a : App) :
  name_ ≠ EmptyString →
  contains sep (strip name_) = false →
  is_folder (join_path (selected_folder (tree_selection a)) (strip name_)) a →
  add_folder (Some name_) a = (Ok (), show (showwarning "Folder Exists") a).
Proof.
  intros Hne Hs [v Hv]. unfold add_folder. se_unfold.
  rewrite eqb_decide, bool_decide_eq_false_2 by done. by rewrite Hs, Hv.
Qed.

(** A name that is fresh under the selected folder is registered, and
    only this path is. *)
Lemma add_folder_new (name_ : string) (a : App) :
  name_ ≠ EmptyString →
  contains sep (strip name_) = false →
  let new_path := join_path (selected_folder (tree_selection a)) (strip name_) in
  ¬ is_folder new_path a →
  new_path ≠ root_id →
  synced (folder_tree a) (folder_path_to_id a) →
  ∃ a', add_folder (Some name_) a = (Ok (), a')
        ∧ folder_path_to_id a' = <[new_path := new_path]> (folder_path_to_id a)
        ∧ contacts a' = contacts a
        ∧ messages a' = messages a.
Proof.
  intros Hne Hs new_path Hnf Hnr [Hroot Hval Hitem].
  unfold add_folder. se_unfold.
  rewrite eqb_decide, bool_decide_eq_false_2 by done. rewrite Hs.
  fold new_path. unfold is_folder in Hnf.
  destruct (folder_path_to_id a !! new_path) as [v|] eqn:Hv.
  { exfalso. apply Hnf. by eexists. }
  unfold Treeview.insert, Treeview.exists_.
  rewrite (bool_decide_eq_false_2 (new_path = EmptyString))
    by (intros He; rewrite He in Hv; congruence).
  rewrite (bool_decide_eq_false_2 (new_path ∈ _)).
  2:{ intros Hin. destruct (Hitem _ Hin) as [?|[? ?]]; [done|congruence]. }
  rewrite (bool_decide_eq_true_2 (default root_id _ ∈ _)), orb_true_r.
  2:{ destruct (folder_path_to_id a !! selected_folder _) as [w|] eqn:Hw; simpl.
      - by eapply Hval.
      - by eapply Hval. }
  simpl. eexists. split; [reflexivity|]. done.
Qed.

(** C8 at its failing input: with the folder "Sales" selected, the name
    made of one space passes the emptiness test, is stripped to the empty
    name afterwards, and the folder "Sales/" is registered without any
    warning. *)
Theorem add_folder_blank_name :
  let a := selecting "Sales"
             (exec (add_folder (Some "Sales")) (selecting root_id (started []))) in
  outcome (add_folder (Some " ")) a = Ok ()
  ∧ messages (exec (add_folder (Some " ")) a) = []
  ∧ ¬ is_folder "Sales/" a
  ∧ is_folder "Sales/" (exec (add_folder (Some " ")) a).
Proof.
  intros a. split_and!.
  - vm_compute. done.
  - vm_compute. done.
  - vm_compute. by intros [? ?].
  - vm_compute. eauto.
Qed.

(** The scenario of C8: the second "Sales" under the root is refused as
    an existing folder. *)
Lemma add_folder_twice :
  let a := selecting root_id (started []) in
  let a1 := exec (add_folder (Some "Sales")) a in
  is_folder "Sales" a1
  ∧ add_folder (Some "Sales") a1 = (Ok (), show (showwarning "Folder Exists") a1).
Proof.
  intros a a1. split.
  - vm_compute. eauto.
  - apply add_folder_duplicate; [done|done|]. vm_compute. eauto.
Qed.

(** ** Deleting a folder *)

(** What deleting a folder leaves in the store: the contacts whose
    folder path does not start with the characters of the folder's. *)
Lemma delete_folder_contacts (a : App) (node_id : string) :
  tree_selection a = Some node_id →
  node_id ≠ root_id →
  node_id ∈ iid <$> folder_tree a →
  ∃ a', delete_selected [] true a = (Ok (), a')
        ∧ contacts a'
          = filter (λ c, startswith (folder_path c) node_id = false)
                   (contacts a)
        ∧ folder_path_to_id a'
          = filter (λ kv, in_subtree node_id kv.1 = false)
                   (folder_path_to_id a).
Proof.
  intros Hsel Hroot Hin. unfold delete_selected. se_run. rewrite Hsel.
  rewrite eqb_decide, bool_decide_eq_false_2 by done. simpl.
  unfold Treeview.delete. rewrite bool_decide_eq_true_2 by done.
  simpl. unfold save_contacts, select_root, on_folder_select. se_run. simpl.
  eexists. split; [reflexivity|]. done.
Qed.

(** C1 at its failing input: deleting the folder "Team" also removes
    the contact of the folder "Team2", which is neither "Team" nor below
    it, so that not exactly the contacts of the subtree are removed; the
    folder "Team2" itself stays in the index, whose entries are matched
    segment by segment. *)
Theorem delete_folder_drops_raw_prefix :
  let a := started [contact "Team" "Ann"; contact "Team2" "Bob"] in
  in_folder_subtree "Team" (contact "Team2" "Bob") = false
  ∧ outcome (delete_selected [] true) (selecting "Team" a) = Ok ()
  ∧ contacts (exec (delete_selected [] true) (selecting "Team" a)) = []
  ∧ is_folder "Team2" (exec (delete_selected [] true) (selecting "Team" a))
  ∧ ¬ deletes_subtree_only "Team" a.
Proof.
  intros a. split_and!.
  - vm_compute. done.
  - vm_compute. done.
  - vm_compute. done.
  - vm_compute. eauto.
  - unfold deletes_subtree_only. vm_compute. discriminate.
Qed.

(** ** Reordering inside a folder *)

Section reorder.
Context (f : string).
Implicit Types (l vals : list Contact) (c : Contact).

Lemma folder_indices_from_cons k c l :
  folder_indices_from k f (c :: l)
  = if decide (folder_path c = f)
    then k :: folder_indices_from (S k) f l
    else folder_indices_from (S k) f l.
Proof.
  unfold folder_indices_from. simpl. rewrite filter_cons. simpl.
  by case_decide.
Qed.

Lemma folder_contacts_of_cons c l :
  folder_contacts_of f (c :: l)
  = if decide (folder_path c = f)
    then c :: folder_contacts_of f l else folder_contacts_of f l.
Proof. unfold folder_contacts_of. by rewrite filter_cons. Qed.

Lemma local_pos_0 l : local_pos f l 0 = 0.
Proof. unfold local_pos. by rewrite take_0. Qed.

Lemma local_pos_S c l i :
  local_pos f (c :: l) (S i)
  = if decide (folder_path c = f) then S (local_pos f l i) else local_pos f l i.
Proof.
  unfold local_pos. simpl. rewrite folder_contacts_of_cons. by case_decide.
Qed.

Lemma index_folder_indices l k n i c :
  l !! i = Some c → folder_path c = f →
  index_from n (k + i) (folder_indices_from k f l) = Ok (n + local_pos f l i).
Proof.
  revert k n i. induction l as [|c0 l IH]; intros k n i Hi Hc; [done|].
  rewrite folder_indices_from_cons. destruct i as [|i]; simpl in Hi.
  - injection Hi as ->. rewrite decide_True by done. simpl.
    rewrite Nat.add_0_r, decide_True by done. by rewrite local_pos_0, Nat.add_0_r.
  - rewrite local_pos_S. replace (k + S i) with (S k + i) by lia.
    case_decide.
    + pose proof (IH (S k) (S n) i Hi Hc) as IH'.
      cbn [index_from]. rewrite decide_False by lia. rewrite IH'. f_equal. lia.
    + by rewrite (IH _ _ _ Hi Hc).
Qed.

Lemma mapM_folder_indices pre l :
  mapM (getitem (pre ++ l)) (folder_indices_from (length pre) f l)
  = Ok (folder_contacts_of f l).
Proof.
  revert pre. induction l as [|c l IH]; intros pre; [done|].
  rewrite folder_indices_from_cons, folder_contacts_of_cons.
  specialize (IH (pre ++ [c])). rewrite <- app_assoc, length_app in IH.
  simpl in IH. rewrite Nat.add_1_r in IH.
  case_decide; [|done].
  simpl. rewrite (getitem_Some _ _ c) by (by apply list_lookup_middle).
  rewrite IH. done.
Qed.

Lemma folder_contacts_lookup l i c :
  l !! i = Some c → folder_path c = f →
  folder_contacts_of f l !! local_pos f l i = Some c.
Proof.
  revert i. induction l as [|c0 l IH]; intros i Hi Hc; [done|].
  destruct i as [|i]; simpl in Hi.
  - injection Hi as ->. rewrite local_pos_0, folder_contacts_of_cons.
    by rewrite decide_True.
  - rewrite local_pos_S, folder_contacts_of_cons. case_decide; simpl; eauto.
Qed.

Lemma write_back pre l vals n a :
  contacts a = pre ++ l →
  length (folder_contacts_of f l) ≤ length (drop n vals) →
  for_each (enumerate_from n (folder_indices_from (length pre) f l))
           (write_slot vals) a
  = (Ok (), set_contacts (pre ++ rewrite_folder f (drop n vals) l) a).
Proof.
  revert pre n a. induction l as [|c l IH]; intros pre n a Ha Hlen.
  - simpl. rewrite <- Ha. by destruct a.
  - rewrite folder_indices_from_cons. rewrite folder_contacts_of_cons in Hlen.
    simpl. case_decide as Hc.
    + destruct (drop n vals) as [|v rest] eqn:Hd; simpl in Hlen; [lia|].
      assert (Hv : vals !! n = Some v).
      { pose proof (lookup_drop vals n 0) as Hl.
        rewrite Hd, Nat.add_0_r in Hl. done. }
      assert (Hrest : drop (S n) vals = rest).
      { pose proof (drop_drop vals 1 n) as Hl.
        rewrite Hd, Nat.add_1_r in Hl. done. }
      simpl. se_unfold. unfold getitem. rewrite Hv. simpl.
      unfold setitem. rewrite Ha.
      rewrite decide_True by (rewrite length_app; simpl; lia).
      simpl.
      replace (<[length pre:=v]> (pre ++ c :: l)) with ((pre ++ [v]) ++ l).
      2:{ rewrite insert_app_r_alt by lia. rewrite Nat.sub_diag. simpl.
          by rewrite <- app_assoc. }
      specialize (IH (pre ++ [v]) (S n) (set_contacts ((pre ++ [v]) ++ l) a)).
      rewrite length_app in IH. simpl in IH. rewrite Nat.add_1_r in IH.
      rewrite IH; [|done|rewrite Hrest; lia].
      rewrite Hrest. simpl. by rewrite <- app_assoc.
    + specialize (IH (pre ++ [c]) n a).
      rewrite length_app in IH. simpl in IH. rewrite Nat.add_1_r in IH.
      rewrite IH; [|by rewrite <- app_assoc|done].
      by rewrite <- app_assoc.
Qed.

Lemma rewrite_folder_length vals l :
  length (rewrite_folder f vals l) = length l.
Proof.
  revert vals. induction l as [|c l IH]; intros vals; [done|]. simpl.
  case_decide; [destruct vals|]; simpl; by rewrite IH.
Qed.

Lemma rewrite_folder_other vals l k c :
  l !! k = Some c → folder_path c ≠ f →
  rewrite_folder f vals l !! k = Some c.
Proof.
  revert vals k. induction l as [|c0 l IH]; intros vals k Hk Hc; [done|].
  simpl. destruct k as [|k]; simpl in Hk.
  - injection Hk as ->. by rewrite decide_False.
  - case_decide; [destruct vals|]; simpl; eauto.
Qed.

Lemma rewrite_folder_contacts vals l :
  Forall (λ c, folder_path c = f) vals →
  length (folder_contacts_of f l) ≤ length vals →
  folder_contacts_of f (rewrite_folder f vals l)
  = take (length (folder_contacts_of f l)) vals.
Proof.
  revert vals. induction l as [|c l IH]; intros vals Hv Hlen; [done|].
  simpl. rewrite folder_contacts_of_cons in *. case_decide as Hc.
  - destruct vals as [|v vals]; simpl in Hlen; [lia|].
    apply Forall_cons in Hv as [Hv1 Hv].
    rewrite folder_contacts_of_cons, decide_True by done. simpl.
    rewrite IH; [done|done|lia].
  - rewrite folder_contacts_of_cons, decide_False by done. by apply IH.
Qed.

Lemma rewrite_folder_paths vals l :
  Forall (λ c, folder_path c = f) vals →
  folder_path <$> rewrite_folder f vals l = folder_path <$> l.
Proof.
  revert vals. induction l as [|c l IH]; intros vals Hv; [done|]. simpl.
  case_decide as Hc.
  - destruct vals as [|v vals]; simpl.
    + by rewrite IH.
    + apply Forall_cons in Hv as [Hv1 Hv]. f_equal; [congruence|by apply IH].
  - simpl. by rewrite IH.
Qed.

Lemma folder_indices_from_ge k l g :
  g ∈ folder_indices_from k f l → k ≤ g.
Proof.
  revert k. induction l as [|c l IH]; intros k.
  - unfold folder_indices_from. simpl. by intros ?%elem_of_nil.
  - rewrite folder_indices_from_cons. case_decide.
    + intros [->|Hg%IH]%elem_of_cons; lia.
    + intros Hg%IH. lia.
Qed.

Lemma rewrite_folder_slot vals l k n g :
  length (folder_contacts_of f l) ≤ length vals →
  folder_indices_from k f l !! n = Some g →
  rewrite_folder f vals l !! (g - k) = vals !! n.
Proof.
  revert vals k n. induction l as [|c l IH]; intros vals k n Hlen Hg; [done|].
  rewrite folder_indices_from_cons in Hg.
  rewrite folder_contacts_of_cons in Hlen. simpl. case_decide as Hc.
  - destruct vals as [|v vals]; simpl in Hlen; [lia|].
    destruct n as [|n]; simpl in Hg.
    + injection Hg as <-. by rewrite Nat.sub_diag.
    + pose proof (folder_indices_from_ge (S k) l g) as Hge.
      assert (S k ≤ g) by (apply Hge; by eapply list_elem_of_lookup_2).
      replace (g - k) with (S (g - S k)) by lia. simpl.
      apply IH; [lia|done].
  - pose proof (folder_indices_from_ge (S k) l g) as Hge.
    assert (S k ≤ g) by (apply Hge; by eapply list_elem_of_lookup_2).
    replace (g - k) with (S (g - S k)) by lia. simpl.
    by apply IH.
Qed.

End reorder.

Lemma local_pos_lt f l i c :
  l !! i = Some c → folder_path c = f →
  local_pos f l i < length (folder_contacts_of f l).
Proof.
  intros Hi Hc. eapply lookup_lt_Some. by apply folder_contacts_lookup.
Qed.

(** What [_reorder_within_folder] leaves in the store. *)
Lemma reorder_run (a : App) (i j : nat) (ci cj : Contact) :
  contacts a !! i = Some ci →
  contacts a !! j = Some cj →
  folder_path cj = folder_path ci →
  let f := folder_path ci in
  let l := contacts a in
  let new_local :=
    Py.insert (local_pos f l j) ci
              (delete (local_pos f l i) (folder_contacts_of f l)) in
  _reorder_within_folder i j a
  = (Ok (), set_contacts (rewrite_folder f new_local l) a)
  ∧ length new_local = length (folder_contacts_of f l)
  ∧ Forall (λ c, folder_path c = f) new_local
  ∧ new_local !! local_pos f l j = Some ci
  ∧ delete (local_pos f l j) new_local
    = delete (local_pos f l i) (folder_contacts_of f l).
Proof.
  intros Hi Hj Hf f l new_local.
  pose proof (local_pos_lt f l i ci Hi eq_refl) as Hpi.
  pose proof (local_pos_lt f l j cj Hj Hf) as Hpj.
  pose proof (folder_contacts_lookup f l i ci Hi eq_refl) as Hli.
  assert (Hdl : length (delete (local_pos f l i) (folder_contacts_of f l))
                = length (folder_contacts_of f l) - 1).
  { rewrite length_delete; [lia|by eexists]. }
  assert (Hnl : length new_local = length (folder_contacts_of f l)).
  { subst new_local. rewrite insert_length, Hdl. lia. }
  split_and!.
  - unfold _reorder_within_folder. se_unfold.
    rewrite (getitem_Some _ _ _ Hi). fold f l.
    change (folder_indices_of f l) with (folder_indices_from 0 f l).
    unfold index.
    pose proof (index_folder_indices f l 0 0 i ci Hi eq_refl) as Hxi.
    pose proof (index_folder_indices f l 0 0 j cj Hj Hf) as Hxj.
    rewrite !Nat.add_0_l in Hxi, Hxj. rewrite Hxi, Hxj.
    pose proof (mapM_folder_indices f [] l) as Hm.
    pose proof (write_back f [] l new_local 0 a eq_refl) as Hw.
    rewrite drop_0 in Hw. simpl in Hm, Hw.
    rewrite Hm. rewrite (pop_Some _ _ _ Hli). fold new_local.
    apply Hw. lia.
  - done.
  - assert (Hall : Forall (λ c, folder_path c = f) (folder_contacts_of f l)).
    { apply Forall_forall. by intros x [? _]%list_elem_of_filter. }
    assert (Hdel : Forall (λ c, folder_path c = f)
                     (delete (local_pos f l i) (folder_contacts_of f l))).
    { rewrite delete_take_drop. apply Forall_app.
      split; [by apply Forall_take|by apply Forall_drop]. }
    subst new_local. unfold Py.insert. apply Forall_app.
    split; [by apply Forall_take|]. constructor; [done|by apply Forall_drop].
  - subst new_local. apply insert_lookup_eq. lia.
  - subst new_local. apply delete_insert. lia.
Qed.

Lemma rewrite_folder_others f vals l :
  Forall (λ c, folder_path c = f) vals →
  filter (λ c, folder_path c ≠ f) (rewrite_folder f vals l)
  = filter (λ c, folder_path c ≠ f) l.
Proof.
  revert vals. induction l as [|c l IH]; intros vals Hv; [done|]. simpl.
  case_decide as Hc.
  - destruct vals as [|v vals].
    + rewrite !filter_cons, IH by done. done.
    + apply Forall_cons in Hv as [Hv1 Hv].
      rewrite !filter_cons, IH by done.
      rewrite !decide_False; [done|by intros []..].
  - rewrite !filter_cons, IH by done. done.
Qed.

(** C3: [_reorder_within_folder i j], for two contacts of one folder,
    takes the source out of the folder's local ordering (the contacts of
    the folder in store order), puts it back at the local position of
    the target, and writes this ordering into the store slots of the
    folder, in order; the other slots keep their contacts.  On the store
    (A, Bob), (A, Al), (B, Cy) the call with 0 and 1 gives (A, Al),
    (A, Bob), (B, Cy). *)
Theorem reorder_within_folder_slots :
  (∀ (a : App) (i j : nat) (ci cj : Contact),
      contacts a !! i = Some ci →
      contacts a !! j = Some cj →
      folder_path cj = folder_path ci →
      let f := folder_path ci in
      let l := contacts a in
      let local := folder_contacts_of f l in
      let new_local :=
        Py.insert (local_pos f l j) ci (delete (local_pos f l i) local) in
      ∃ a', _reorder_within_folder i j a = (Ok (), a')
        ∧ length (contacts a') = length l
        ∧ new_local !! local_pos f l j = Some ci
        ∧ delete (local_pos f l j) new_local = delete (local_pos f l i) local
        ∧ folder_contacts_of f (contacts a') = new_local
        ∧ (∀ n g, folder_indices_of f l !! n = Some g →
                  contacts a' !! g = new_local !! n)
        ∧ (∀ k c, l !! k = Some c → folder_path c ≠ f →
                  contacts a' !! k = Some c))
  ∧ contacts (exec (_reorder_within_folder 0 1)
                   (app_with [contact "A" "Bob"; contact "A" "Al";
                              contact "B" "Cy"]))
    = [contact "A" "Al"; contact "A" "Bob"; contact "B" "Cy"].
Proof.
  split; [|by vm_compute].
  intros a i j ci cj Hi Hj Hf f l local new_local.
  destruct (reorder_run a i j ci cj Hi Hj Hf)
    as (Hrun & Hlen & Hall & Hat & Hdel).
  fold f l local new_local in Hrun, Hlen, Hall, Hat, Hdel.
  eexists. split; [exact Hrun|]. simpl. split_and!.
  - apply rewrite_folder_length.
  - done.
  - done.
  - rewrite rewrite_folder_contacts; [|done|unfold local in *; lia].
    fold local. rewrite <- Hlen. apply firstn_all.
  - intros n g Hg.
    pose proof (rewrite_folder_slot f new_local l 0 n g) as Hs.
    rewrite Nat.sub_0_r in Hs. apply Hs; [unfold local in *; lia|done].
  - intros k c Hk Hc. by apply rewrite_folder_other.
Qed.

Lemma reorder_within_folder_slots_witness :
  let a := app_with [contact "A" "Bob"; contact "B" "Cy"; contact "A" "Al";
                     contact "A" "Di"] in
  ∃ a', _reorder_within_folder 3 0 a = (Ok (), a')
        ∧ folder_contacts_of "A" (contacts a')
          = [contact "A" "Di"; contact "A" "Bob"; contact "A" "Al"]
        ∧ contacts a' !! 1 = Some (contact "B" "Cy").
Proof.
  intros a.
  destruct (proj1 reorder_within_folder_slots a 3 0 (contact "A" "Di")
              (contact "A" "Bob") eq_refl eq_refl eq_refl)
    as (a' & Hrun & _ & _ & _ & Hlocal & _ & Hother).
  exists a'. split; [exact Hrun|]. split; [exact Hlocal|].
  apply Hother; [reflexivity|discriminate].
Defined.

(** C4: [_reorder_within_folder i j], for two contacts of one folder,
    changes the store only; every slot keeps its folder path, every
    contact of another folder keeps its index, and so the contacts of
    the other folders keep their order. *)
Theorem reorder_within_folder_frame
    (a : App) (i j : nat) (ci cj : Contact) :
  contacts a !! i = Some ci →
  contacts a !! j = Some cj →
  folder_path cj = folder_path ci →
  ∃ a', _reorder_within_folder i j a = (Ok (), a')
    ∧ a' = set_contacts (contacts a') a
    ∧ folder_path <$> contacts a' = folder_path <$> contacts a
    ∧ (∀ k c, contacts a !! k = Some c → folder_path c ≠ folder_path ci →
              contacts a' !! k = Some c)
    ∧ filter (λ c, folder_path c ≠ folder_path ci) (contacts a')
      = filter (λ c, folder_path c ≠ folder_path ci) (contacts a).
Proof.
  intros Hi Hj Hf.
  destruct (reorder_run a i j ci cj Hi Hj Hf) as (Hrun & _ & Hall & _).
  eexists. split; [exact Hrun|]. simpl. split_and!.
  - done.
  - by apply rewrite_folder_paths.
  - intros k c Hk Hc. by apply rewrite_folder_other.
  - by apply rewrite_folder_others.
Qed.

Lemma reorder_within_folder_frame_witness :
  let a := app_with [contact "A" "Bob"; contact "B" "Cy"; contact "A" "Al";
                     contact "C" "Ed"; contact "A" "Di"] in
  ∃ a', _reorder_within_folder 0 4 a = (Ok (), a')
        ∧ folder_path <$> contacts a' = ["A"; "B"; "A"; "C"; "A"]
        ∧ contacts a' !! 1 = Some (contact "B" "Cy")
        ∧ contacts a' !! 3 = Some (contact "C" "Ed").
Proof.
  intros a.
  destruct (reorder_within_folder_frame a 0 4 (contact "A" "Bob")
              (contact "A" "Di") eq_refl eq_refl eq_refl)
    as (a' & Hrun & _ & Hpaths & Hother & _).
  exists a'. split; [exact Hrun|]. split; [exact Hpaths|].
  split; (apply Hother; [reflexivity|discriminate]).
Defined.

(** ** Reading CSV *)

Section csv_reader.
Import Csv.

Lemma str_app_nil_l (s : string) : EmptyString +:+ s = s.
Proof. done. Qed.
Lemma str_app_cons c (s t : string) : String c s +:+ t = String c (s +:+ t).
Proof. done. Qed.
Lemma str_app_nil_r (s : string) : s +:+ EmptyString = s.
Proof. induction s as [|c s IH]; [done|]. by rewrite str_app_cons, IH. Qed.
Lemma str_app_assoc (s t u : string) : (s +:+ t) +:+ u = s +:+ (t +:+ u).
Proof. induction s as [|c s IH]; [done|]. by rewrite !str_app_cons, IH. Qed.
Lemma str_app_length (s t : string) :
  String.length (s +:+ t) = String.length s + String.length t.
Proof. induction s as [|c s IH]; [done|]. simpl. by rewrite IH. Qed.

Lemma append_snoc_no_newline cur c :
  no_newline cur = true → is_newline c = false →
  no_newline (cur +:+ String c EmptyString) = true.
Proof.
  induction cur as [|c0 cur IH]; simpl; intros Hc Hn.
  - by rewrite Hn.
  - apply andb_true_iff in Hc as [H0 Hc]. rewrite H0. simpl. by apply IH.
Qed.

Lemma append_snoc_nonempty cur c :
  String.eqb (cur +:+ String c EmptyString) EmptyString = false.
Proof. by destruct cur. Qed.

Lemma parse_chars_app p s t :
  parse_chars p (s +:+ t) = p' ← parse_chars p s; parse_chars p' t.
Proof.
  revert p. induction s as [|c s IH]; intros p; simpl; [done|].
  destruct (parse_process_char p (Some c)); simpl; [apply IH|done].
Qed.

Lemma parse_chars_snoc p cur c :
  parse_chars p (cur +:+ String c EmptyString)
  = p' ← parse_chars p cur; parse_process_char p' (Some c).
Proof.
  rewrite parse_chars_app. destruct (parse_chars p cur) as [p'|e]; [|done].
  simpl. by destruct (parse_process_char p' (Some c)).
Qed.

Lemma parse_add_char_state c p p' : parse_add_char c p = Ok p' → st p' = st p.
Proof. unfold parse_add_char. case_match; [|done]. by intros [= <-]. Qed.

Lemma process_state p ch p1 :
  parse_process_char p (Some ch) = Ok p1 →
  st p ≠ EAT_CRNL → is_newline ch = false →
  st p1 ≠ EAT_CRNL.
Proof.
  intros Hp Hs Hn. revert Hp.
  unfold parse_process_char, start_field, mbind, result_bind.
  destruct (st p) eqn:E; try done; rewrite ?Hn;
    repeat case_match; intros Hp; simplify_eq/=;
    try done;
    repeat match goal with
           | H : parse_add_char _ _ = Ok _ |- _ =>
               apply parse_add_char_state in H
           end; simpl in *; congruence.
Qed.

Lemma step_eol_ok p : parse_process_char p None = Ok (step p None).
Proof.
  unfold step, parse_process_char, start_field. by destruct (st p).
Qed.

Lemma step_eol_state p : st (step p None) ≠ EAT_CRNL.
Proof.
  unfold step, parse_process_char, start_field.
  destruct (st p) eqn:E; simpl; congruence.
Qed.

Lemma scan_cons p ne c s :
  scan p ne (String c s)
  = match parse_process_char p (Some c) with
    | Raise e => ([], Some e)
    | Ok p1 =>
        if Ascii.eqb c LF then end_line p1 (λ q, scan q false s)
        else if Ascii.eqb c CR then
          match s with
          | String c2 s'' =>
              if Ascii.eqb c2 LF
              then match parse_process_char p1 (Some c2) with
                   | Raise e => ([], Some e)
                   | Ok p2 => end_line p2 (λ q, scan q false s'')
                   end
              else end_line p1 (λ q, scan q false s)
          | EmptyString => end_line p1 at_end
          end
        else scan p1 true s
    end.
Proof. by destruct s. Qed.

Lemma read_records_nil p : read_records p [] = at_end p.
Proof. unfold at_end. simpl. by case_match. Qed.

(** A complete line read by a parser that has read [cur] so far. *)
Lemma read_records_line p p' line rest k :
  parse_chars p line = Ok p' →
  (∀ q, st q ≠ EAT_CRNL → read_records q rest = k q) →
  read_records p (line :: rest) = end_line p' k.
Proof.
  intros Hp Hk. simpl. unfold parse_line. rewrite Hp. simpl.
  rewrite step_eol_ok. unfold end_line.
  case_bool_decide as Hs.
  - rewrite Hk by done. done.
  - apply Hk. apply step_eol_state.
Qed.

Lemma read_records_raise p line rest e :
  parse_chars p line = Raise e →
  read_records p (line :: rest) = ([], Some e).
Proof. intros Hp. simpl. unfold parse_line. by rewrite Hp. Qed.

Lemma readlines_cons cur c s :
  readlines cur (String c s)
  = if Ascii.eqb c LF
    then (cur +:+ String c EmptyString) :: readlines EmptyString s
    else if Ascii.eqb c CR then
      match s with
      | String c2 s'' =>
          if Ascii.eqb c2 LF
          then ((cur +:+ String c EmptyString) +:+ String c2 EmptyString)
               :: readlines EmptyString s''
          else (cur +:+ String c EmptyString) :: readlines EmptyString s
      | EmptyString => [cur +:+ String c EmptyString]
      end
    else readlines (cur +:+ String c EmptyString) s.
Proof. by destruct s. Qed.

(** The line that holds the character [c] starts with what was read
    before it. *)
Lemma readlines_first s : ∀ c cur,
  ∃ t rest, readlines cur (String c s) = (cur +:+ String c t) :: rest.
Proof.
  induction s as [|c2 s IH]; intros c cur.
  - exists EmptyString, []. simpl.
    destruct (Ascii.eqb c LF); [done|]. destruct (Ascii.eqb c CR); [done|].
    by rewrite append_snoc_nonempty.
  - rewrite readlines_cons.
    destruct (Ascii.eqb c LF); [by eexists EmptyString, _|].
    destruct (Ascii.eqb c CR).
    + destruct (Ascii.eqb c2 LF).
      * eexists (String c2 EmptyString), _. by rewrite str_app_assoc.
      * by eexists EmptyString, _.
    + destruct (IH c2 (cur +:+ String c EmptyString)) as (t & rest & ->).
      exists (String c2 t), rest. by rewrite str_app_assoc.
Qed.

Lemma read_records_scan_aux n :
  ∀ s cur p p',
    String.length s ≤ n →
    no_newline cur = true →
    parse_chars p cur = Ok p' →
    st p' ≠ EAT_CRNL →
    read_records p (readlines cur s)
    = scan p' (negb (String.eqb cur EmptyString)) s.
Proof.
  induction n as [|n IH]; intros s cur p p' Hlen Hcur Hp Hst.
  - destruct s; [|simpl in Hlen; lia]. simpl.
    destruct (String.eqb cur EmptyString) eqn:Hc; simpl.
    + apply String.eqb_eq in Hc as ->. simpl in Hp. injection Hp as ->.
      apply read_records_nil.
    + apply (read_records_line p p' cur [] at_end Hp).
      intros q _. apply read_records_nil.
  - destruct s as [|c s].
    { apply (IH EmptyString cur p p'); simpl; [lia|done..]. }
    simpl in Hlen. rewrite scan_cons.
    destruct (parse_process_char p' (Some c)) as [p1|e] eqn:Hstep.
    2:{ destruct (readlines_first s c cur) as (t & rest & ->).
        apply read_records_raise. rewrite parse_chars_app, Hp. simpl.
        by rewrite Hstep. }
    rewrite readlines_cons.
    set (cur' := cur +:+ String c EmptyString).
    assert (Hp' : parse_chars p cur' = Ok p1).
    { unfold cur'. by rewrite parse_chars_snoc, Hp. }
    assert (Hnext : ∀ s', String.length s' ≤ n → ∀ q, st q ≠ EAT_CRNL →
              read_records q (readlines EmptyString s') = scan q false s').
    { intros s' Hs' q Hq. by apply (IH s' EmptyString q q). }
    destruct (Ascii.eqb c LF) eqn:Hlf.
    { apply (read_records_line p _ cur' _ (λ q, scan q false s) Hp').
      apply Hnext. lia. }
    destruct (Ascii.eqb c CR) eqn:Hcr.
    { destruct s as [|c2 s2].
      - apply (read_records_line p _ cur' [] at_end Hp').
        intros q _. apply read_records_nil.
      - destruct (Ascii.eqb c2 LF) eqn:Hlf2.
        + destruct (parse_process_char p1 (Some c2)) as [p2|e] eqn:Hstep2.
          * apply (read_records_line p p2
                     (cur' +:+ String c2 EmptyString) _ (λ q, scan q false s2)).
            -- by rewrite parse_chars_snoc, Hp'.
            -- apply Hnext. simpl in Hlen. lia.
          * apply read_records_raise. by rewrite parse_chars_snoc, Hp'.
        + apply (read_records_line p _ cur' _ (λ q, scan q false (String c2 s2)) Hp').
          apply Hnext. lia. }
    assert (Hnl : is_newline c = false).
    { unfold is_newline. by rewrite Hlf, Hcr. }
    rewrite (IH s cur' p p1); [|lia| |done|].
    + unfold cur'. by rewrite append_snoc_nonempty.
    + by apply append_snoc_no_newline.
    + by eapply process_state.
Qed.

(** The reader yields what [scan] yields. *)
Theorem reader_scan (file : string) :
  reader file = scan parse_reset false file.
Proof.
  unfold reader.
  by apply (read_records_scan_aux (String.length file) file EmptyString
              parse_reset parse_reset).
Qed.

End csv_reader.

(** ** Writing CSV and reading it back *)

Section csv_roundtrip.
Import Csv.

Lemma add_str_nil p : add_str EmptyString p = p.
Proof. unfold add_str. rewrite str_app_nil_r. by destruct p. Qed.

Lemma add_str_cons c f p :
  add_str f (add_char c p) = add_str (String c f) p.
Proof. unfold add_str, add_char. simpl. by rewrite str_app_assoc. Qed.

Lemma parse_add_char_room c p :
  parse_add_char c p
  = if decide (room p 1) then Ok (add_char c p) else Raise CsvError.
Proof.
  unfold parse_add_char, room.
  destruct (N.ltb_spec (N.of_nat (String.length (field p))) field_size_limit);
    case_decide; try done; lia.
Qed.

Lemma room_add_char c p n : room (add_char c p) n ↔ room p (S n).
Proof.
  unfold room, add_char. simpl. rewrite str_app_length. simpl.
  by replace (String.length (field p) + 1 + n)
    with (String.length (field p) + S n) by lia.
Qed.

Lemma room_add_str f p n :
  room (add_str f p) n ↔ room p (String.length f + n).
Proof.
  unfold room, add_str. simpl. rewrite str_app_length.
  by rewrite Nat.add_assoc.
Qed.

Lemma room_le p n m : m ≤ n → room p n → room p m.
Proof. unfold room. lia. Qed.

Lemma room_empty p f : field p = EmptyString → room p (String.length f) ↔ within_limit f.
Proof. intros Hf. unfold room, within_limit. by rewrite Hf. Qed.

Lemma special_false c :
  special c = false →
  Ascii.eqb c delimiter = false ∧ Ascii.eqb c quotechar = false
  ∧ Ascii.eqb c CR = false ∧ Ascii.eqb c LF = false.
Proof.
  unfold special. intros H.
  repeat (apply orb_false_iff in H as [H ?]). done.
Qed.

Lemma end_line_quoted p k :
  st p = IN_QUOTED_FIELD → end_line p k = k p.
Proof.
  intros Hs. unfold end_line, step, parse_process_char. rewrite Hs. simpl.
  rewrite bool_decide_eq_false_2; [done|]. by rewrite Hs.
Qed.

Lemma process_quoted p c :
  st p = IN_QUOTED_FIELD →
  parse_process_char p (Some c)
  = if Ascii.eqb c quotechar then Ok (set_state QUOTE_IN_QUOTED_FIELD p)
    else parse_add_char c p.
Proof. intros Hs. unfold parse_process_char. by rewrite Hs. Qed.

Lemma process_quote_in_quoted p :
  st p = QUOTE_IN_QUOTED_FIELD →
  parse_process_char p (Some quotechar)
  = p' ← parse_add_char quotechar p; Ok (set_state IN_QUOTED_FIELD p').
Proof. intros Hs. unfold parse_process_char. by rewrite Hs. Qed.

(** Inside quotes every character but the quote is added to the field,
    wherever the lines end. *)
Lemma scan_quoted_char p p1 ne c s :
  st p = IN_QUOTED_FIELD → Ascii.eqb c quotechar = false →
  parse_add_char c p = Ok p1 →
  ∃ ne', scan p ne (String c s) = scan p1 ne' s.
Proof.
  intros Hs Hq Hadd. rewrite scan_cons, process_quoted, Hq, Hadd by done.
  assert (Hs1 : st p1 = IN_QUOTED_FIELD).
  { by rewrite (parse_add_char_state _ _ _ Hadd). }
  destruct (Ascii.eqb c LF) eqn:Hlf.
  { exists false. by rewrite end_line_quoted. }
  destruct (Ascii.eqb c CR) eqn:Hcr; [|by exists true].
  exists false. destruct s as [|c2 s2].
  - by rewrite end_line_quoted.
  - destruct (Ascii.eqb c2 LF) eqn:Hlf2.
    + rewrite scan_cons, Hlf2. done.
    + by rewrite end_line_quoted.
Qed.

Lemma scan_quoted f : ∀ p ne tail,
  st p = IN_QUOTED_FIELD → room p 0 →
  scan p ne (doublequote f +:+ String quotechar tail)
  = if decide (room p (String.length f))
    then scan (set_state QUOTE_IN_QUOTED_FIELD (add_str f p)) true tail
    else too_long.
Proof.
  induction f as [|c f IH]; intros p ne tail Hs Hr.
  - rewrite decide_True by done. rewrite add_str_nil. simpl doublequote.
    rewrite str_app_nil_l, scan_cons, process_quoted by done.
    by rewrite Ascii.eqb_refl.
  - simpl doublequote. simpl String.length.
    destruct (Ascii.eqb c quotechar) eqn:Hq.
    + apply Ascii.eqb_eq in Hq as ->.
      rewrite !str_app_cons, scan_cons, process_quoted by done.
      rewrite Ascii.eqb_refl.
      change (scan (set_state QUOTE_IN_QUOTED_FIELD p) true
                (String quotechar (doublequote f +:+ String quotechar tail))
              = if decide (room p (S (String.length f)))
                then scan (set_state QUOTE_IN_QUOTED_FIELD
                             (add_str (String quotechar f) p)) true tail
                else too_long).
      rewrite scan_cons, process_quote_in_quoted by done.
      rewrite parse_add_char_room.
      destruct (decide (room (set_state QUOTE_IN_QUOTED_FIELD p) 1)) as [H1|H1].
      * simpl.
        change (scan (set_state IN_QUOTED_FIELD
                        (add_char quotechar (set_state QUOTE_IN_QUOTED_FIELD p)))
                  true (doublequote f +:+ String quotechar tail)
                = if decide (room p (S (String.length f)))
                  then scan (set_state QUOTE_IN_QUOTED_FIELD
                               (add_str (String quotechar f) p)) true tail
                  else too_long).
        rewrite IH; [|done|by apply room_add_char, H1].
        assert (Hiff : room (set_state IN_QUOTED_FIELD
                               (add_char quotechar
                                  (set_state QUOTE_IN_QUOTED_FIELD p)))
                            (String.length f)
                       ↔ room p (S (String.length f))).
        { apply (room_add_char quotechar (set_state QUOTE_IN_QUOTED_FIELD p)). }
        destruct (decide (room p (S (String.length f)))) as [H2|H2].
        -- rewrite decide_True by (by apply Hiff). f_equal.
           unfold set_state, add_str, add_char. simpl.
           by rewrite str_app_assoc.
        -- rewrite decide_False; [done|]. by intros ?%Hiff.
      * simpl. rewrite decide_False; [done|].
        intros H2. apply H1. eapply room_le; [|exact H2]. lia.
    + rewrite str_app_cons.
      destruct (decide (room p 1)) as [H1|H1].
      * assert (Hadd : parse_add_char c p = Ok (add_char c p)).
        { by rewrite parse_add_char_room, decide_True. }
        destruct (scan_quoted_char p _ ne c
                    (doublequote f +:+ String quotechar tail) Hs Hq Hadd)
          as [ne' ->].
        rewrite IH; [|done|by apply room_add_char].
        destruct (decide (room p (S (String.length f)))) as [H2|H2].
        -- rewrite decide_True by (by apply room_add_char).
           by rewrite add_str_cons.
        -- rewrite decide_False; [done|]. by intros ?%room_add_char.
      * rewrite scan_cons, process_quoted, Hq by done.
        rewrite parse_add_char_room, decide_False by done.
        rewrite decide_False; [done|].
        intros H2. apply H1. eapply room_le; [|exact H2]. lia.
Qed.

Lemma process_in_field p c :
  st p = IN_FIELD → special c = false →
  parse_process_char p (Some c) = parse_add_char c p.
Proof.
  intros Hs (Hd & Hq & Hcr & Hlf)%special_false.
  unfold parse_process_char, is_newline. by rewrite Hs, Hlf, Hcr, Hd.
Qed.

Lemma process_start p c :
  st p = START_FIELD ∨ st p = START_RECORD → special c = false →
  parse_process_char p (Some c)
  = p' ← parse_add_char c p; Ok (set_state IN_FIELD p').
Proof.
  intros Hs (Hd & Hq & Hcr & Hlf)%special_false.
  unfold parse_process_char, start_field, is_newline.
  destruct Hs as [-> | ->]; by rewrite Hlf, Hcr, Hq, Hd.
Qed.

Lemma process_start_quote p :
  st p = START_FIELD ∨ st p = START_RECORD →
  parse_process_char p (Some quotechar) = Ok (set_state IN_QUOTED_FIELD p).
Proof.
  intros Hs. unfold parse_process_char, start_field.
  destruct Hs as [-> | ->]; done.
Qed.

Lemma scan_open_quote p ne s :
  st p = START_FIELD ∨ st p = START_RECORD →
  scan p ne (String quotechar s) = scan (set_state IN_QUOTED_FIELD p) true s.
Proof. intros Hs. by rewrite scan_cons, process_start_quote. Qed.

Lemma scan_plain_char p ne c s :
  special c = false →
  scan p ne (String c s)
  = match parse_process_char p (Some c) with
    | Raise e => ([], Some e)
    | Ok p1 => scan p1 true s
    end.
Proof.
  intros (Hd & Hq & Hcr & Hlf)%special_false.
  rewrite scan_cons. by rewrite Hlf, Hcr.
Qed.

Lemma scan_in_field f : ∀ p ne tail,
  st p = IN_FIELD → any_special f = false → room p 0 →
  scan p ne (f +:+ tail)
  = if decide (room p (String.length f))
    then scan (add_str f p) (ne || negb (String.eqb f EmptyString)) tail
    else too_long.
Proof.
  induction f as [|c f IH]; intros p ne tail Hs Hf Hr.
  - rewrite decide_True by done.
    rewrite add_str_nil, str_app_nil_l. simpl. by rewrite orb_false_r.
  - simpl in Hf. apply orb_false_iff in Hf as [Hc Hf]. simpl String.length.
    rewrite str_app_cons, scan_plain_char, process_in_field by done.
    rewrite parse_add_char_room.
    destruct (decide (room p 1)) as [H1|H1].
    + rewrite IH; [|done|done|by apply room_add_char].
      destruct (decide (room p (S (String.length f)))) as [H2|H2].
      * rewrite decide_True by (by apply room_add_char).
        rewrite add_str_cons. simpl. by rewrite orb_true_r.
      * rewrite decide_False; [done|]. by intros ?%room_add_char.
    + rewrite decide_False; [done|].
      intros H2. apply H1. eapply room_le; [|exact H2]. lia.
Qed.

Lemma scan_unquoted c f p ne tail :
  st p = START_FIELD ∨ st p = START_RECORD →
  any_special (String c f) = false → room p 0 →
  scan p ne (String c f +:+ tail)
  = if decide (room p (S (String.length f)))
    then scan (set_state IN_FIELD (add_str (String c f) p)) true tail
    else too_long.
Proof.
  intros Hs Hf Hr. simpl in Hf. apply orb_false_iff in Hf as [Hc Hf].
  rewrite str_app_cons, scan_plain_char, process_start by done.
  rewrite parse_add_char_room.
  destruct (decide (room p 1)) as [H1|H1]; simpl.
  - change (scan (set_state IN_FIELD (add_char c p)) true (f +:+ tail)
            = if decide (room p (S (String.length f)))
              then scan (set_state IN_FIELD (add_str (String c f) p)) true tail
              else too_long).
    rewrite scan_in_field; [|done|done|by apply (room_add_char c p)].
    assert (Hiff : room (set_state IN_FIELD (add_char c p)) (String.length f)
                   ↔ room p (S (String.length f))).
    { apply (room_add_char c p). }
    destruct (decide (room p (S (String.length f)))) as [H2|H2].
    + rewrite decide_True by (by apply Hiff). f_equal.
      unfold set_state, add_str, add_char. simpl. by rewrite str_app_assoc.
    + rewrite decide_False; [done|]. by intros ?%Hiff.
  - rewrite decide_False; [done|].
    intros H2. apply H1. eapply room_le; [|exact H2]. lia.
Qed.

Lemma doublequote_plain f : any_special f = false → doublequote f = f.
Proof.
  induction f as [|c f IH]; [done|]. simpl. intros [Hc Hf]%orb_false_iff.
  apply special_false in Hc as (_ & -> & _). by rewrite IH.
Qed.

Lemma room_0_empty p : field p = EmptyString → room p 0.
Proof. intros Hf. unfold room. rewrite Hf. simpl. lia. Qed.

(** The written form of a field is read as this field or, if the field
    is over-long, makes the reader raise. *)
Lemma scan_field qe f p ne tail :
  st p = START_FIELD ∨ st p = START_RECORD →
  field p = EmptyString →
  within_limit f →
  ∃ p' ne', scan p ne (join_append qe f +:+ tail) = scan p' ne' tail
            ∧ after_field f p p'
            ∧ (st p' = START_RECORD →
               join_append qe f = EmptyString ∧ st p = START_RECORD).
Proof.
  intros Hs Hf Hw. unfold join_append in *.
  pose proof (room_0_empty p Hf) as Hr0.
  assert (Hroom : room p (String.length f)) by (by apply room_empty).
  destruct (any_special f || qe && String.eqb f EmptyString) eqn:Hq.
  - rewrite str_app_cons, str_app_assoc, scan_open_quote by done.
    change (String quotechar EmptyString +:+ tail) with (String quotechar tail).
    rewrite scan_quoted by done.
    rewrite decide_True by done.
    eexists _, _. split; [done|]. unfold after_field. simpl.
    rewrite Hf. split_and!; [done|done|by right; left|done].
  - apply orb_false_iff in Hq as [Hsp _].
    rewrite doublequote_plain in * by done.
    destruct f as [|c f].
    + exists p, ne. split; [done|]. unfold after_field.
      split_and!; [done|done| |done].
      destruct Hs as [-> | ->]; auto.
    + rewrite scan_unquoted by done. rewrite decide_True by done.
      eexists _, _. split; [done|]. unfold after_field. simpl.
      rewrite Hf. split_and!; [done|done|by left|done].
Qed.

Lemma scan_field_long qe f p ne tail :
  st p = START_FIELD ∨ st p = START_RECORD →
  field p = EmptyString →
  ¬ within_limit f →
  scan p ne (join_append qe f +:+ tail) = too_long.
Proof.
  intros Hs Hf Hw. unfold join_append in *.
  pose proof (room_0_empty p Hf) as Hr0.
  assert (Hroom : ¬ room p (String.length f)) by (by intros ?%room_empty).
  destruct (any_special f || qe && String.eqb f EmptyString) eqn:Hq.
  - rewrite str_app_cons, str_app_assoc, scan_open_quote by done.
    change (String quotechar EmptyString +:+ tail) with (String quotechar tail).
    rewrite scan_quoted by done. by rewrite decide_False.
  - apply orb_false_iff in Hq as [Hsp _].
    rewrite doublequote_plain in * by done.
    destruct f as [|c f]; [by destruct Hroom|].
    rewrite scan_unquoted by done. by rewrite decide_False.
Qed.

Lemma process_delimiter f p p' :
  after_field f p p' →
  parse_process_char p' (Some delimiter)
  = Ok (set_state START_FIELD (parse_save_field p')).
Proof.
  intros (_ & _ & Hs). unfold parse_process_char, start_field.
  destruct Hs as [-> | [-> | [-> | ->]]]; done.
Qed.

Lemma scan_line_end p ne rest :
  st p = IN_FIELD ∨ st p = QUOTE_IN_QUOTED_FIELD ∨ st p = START_FIELD →
  scan p ne (lineterminator +:+ rest)
  = yield (fields p ++ [field p]) (scan parse_reset false rest).
Proof.
  intros Hs. unfold lineterminator.
  rewrite !str_app_cons, str_app_nil_l, scan_cons.
  assert (Hcr : parse_process_char p (Some CR)
                = Ok (set_state EAT_CRNL (parse_save_field p))).
  { unfold parse_process_char, start_field.
    destruct Hs as [-> | [-> | ->]]; done. }
  rewrite Hcr. done.
Qed.

Lemma scan_blank_line ne rest :
  scan parse_reset ne (lineterminator +:+ rest)
  = yield [] (scan parse_reset false rest).
Proof. done. Qed.

Lemma scan_fields qe fs : ∀ p ne rest,
  st p = START_FIELD ∨ st p = START_RECORD →
  field p = EmptyString →
  fs ≠ [] →
  (st p = START_RECORD → ∀ f, fs = [f] → join_append qe f ≠ EmptyString) →
  Forall within_limit fs →
  scan p ne (join (join_append qe <$> fs) +:+ lineterminator +:+ rest)
  = yield (fields p ++ fs) (scan parse_reset false rest).
Proof.
  induction fs as [|f fs IH]; intros p ne rest Hs Hf Hne Hone Hw; [done|].
  apply Forall_cons in Hw as [Hwf Hw].
  destruct (scan_field qe f p ne
              (match fs with
               | [] => lineterminator +:+ rest
               | _ => String delimiter
                        (join (join_append qe <$> fs) +:+ lineterminator +:+ rest)
               end) Hs Hf Hwf)
    as (p' & ne' & Hrun & Haf & Hrec).
  destruct fs as [|f2 fs].
  - simpl. rewrite Hrun. destruct Haf as (Hfield & Hfields & Hst).
    rewrite scan_line_end.
    + by rewrite Hfield, Hfields.
    + destruct Hst as [?|[?|[?|Hst]]]; auto.
      destruct (Hrec Hst) as [He Hp]. by destruct (Hone Hp f eq_refl).
  - change (join (join_append qe <$> f :: f2 :: fs))
      with (join_append qe f
            +:+ String delimiter (join (join_append qe <$> f2 :: fs))).
    rewrite str_app_assoc, str_app_cons, Hrun.
    assert (Hd : (delimiter =? LF)%char = false) by done.
    assert (Hd' : (delimiter =? CR)%char = false) by done.
    rewrite scan_cons, Hd, Hd', (process_delimiter f p p' Haf).
    rewrite IH; [|by left|done|done|done|done].
    destruct Haf as (Hfield & Hfields & _). simpl.
    by rewrite Hfield, Hfields, <- (assoc_L (++)).
Qed.

Lemma scan_fields_long qe fs : ∀ p ne rest,
  st p = START_FIELD ∨ st p = START_RECORD →
  field p = EmptyString →
  ¬ Forall within_limit fs →
  scan p ne (join (join_append qe <$> fs) +:+ lineterminator +:+ rest)
  = too_long.
Proof.
  induction fs as [|f fs IH]; intros p ne rest Hs Hf Hw.
  { by destruct Hw. }
  set (tail := match fs with
               | [] => lineterminator +:+ rest
               | _ => String delimiter
                        (join (join_append qe <$> fs) +:+ lineterminator +:+ rest)
               end).
  assert (Htext : join (join_append qe <$> f :: fs) +:+ lineterminator +:+ rest
                  = join_append qe f +:+ tail).
  { subst tail. destruct fs as [|f2 fs]; [done|].
    change (join (join_append qe <$> f :: f2 :: fs))
      with (join_append qe f
            +:+ String delimiter (join (join_append qe <$> f2 :: fs))).
    by rewrite str_app_assoc, str_app_cons. }
  rewrite Htext.
  destruct (decide (within_limit f)) as [Hwf|Hwf];
    [|by apply scan_field_long].
  destruct (scan_field qe f p ne tail Hs Hf Hwf)
    as (p' & ne' & Hrun & Haf & _).
  rewrite Hrun. subst tail. destruct fs as [|f2 fs].
  { destruct Hw. by repeat constructor. }
  assert (Hd : (delimiter =? LF)%char = false) by done.
  assert (Hd' : (delimiter =? CR)%char = false) by done.
  rewrite scan_cons, Hd, Hd', (process_delimiter f p p' Haf).
  apply IH; [by left|done|].
  intros Hall. apply Hw. by constructor.
Qed.

Lemma join_append_single f : join_append true f ≠ EmptyString.
Proof.
  unfold join_append. destruct f as [|c f]; simpl.
  - by rewrite orb_true_r || done.
  - case_match; [done|]. destruct (Ascii.eqb c quotechar); done.
Qed.

Lemma scan_writerow row rest :
  scan parse_reset false (writerow row +:+ rest)
  = if decide (Forall within_limit (default EmptyString <$> row))
    then yield (default EmptyString <$> row) (scan parse_reset false rest)
    else too_long.
Proof.
  unfold writerow. rewrite str_app_assoc.
  destruct row as [|x row].
  { rewrite decide_True by constructor. apply scan_blank_line. }
  case_decide as Hw.
  - rewrite scan_fields; [done|by right|done|done| |done].
    intros _ f Hf. destruct row; [|done]. simpl. apply join_append_single.
  - by apply scan_fields_long; [by right|done|].
Qed.

Theorem scan_writerows rows :
  scan parse_reset false (writerows rows)
  = read_back ((λ row : list (option string), default EmptyString <$> row)
                 <$> rows).
Proof.
  induction rows as [|row rows IH]; [done|].
  simpl. rewrite scan_writerow, IH. done.
Qed.

(** What [csv.writer] writes, [csv.reader] reads back, [None] being
    read as the empty string, up to the first over-long field. *)
Theorem reader_writerows rows :
  reader (writerows rows)
  = read_back ((λ row : list (option string), default EmptyString <$> row)
                 <$> rows).
Proof. by rewrite reader_scan, scan_writerows. Qed.

End csv_roundtrip.

(** ** Loading and saving *)

Section row_dict.
Implicit Types (d : gmap string (option string)) (row names : list string).

Lemma row_dict_cells_aux names : ∀ row d,
  foldl (λ d key, <[key := None]> d)
        (foldl (λ d kv, <[kv.1 := Some kv.2]> d) d (zip names row))
        (drop (length row) names)
  = foldl put d (cells names row).
Proof.
  induction names as [|nm names IH]; intros row d.
  - by rewrite drop_nil.
  - destruct row as [|v row]; simpl.
    + specialize (IH [] (<[nm := None]> d)).
      rewrite zip_with_nil_r in IH. simpl in IH. rewrite drop_0 in IH.
      exact IH.
    + apply IH.
Qed.

Lemma row_dict_cells names row :
  Csv.row_dict names row = foldl put ∅ (cells names row).
Proof. apply row_dict_cells_aux. Qed.

Lemma cells_lookup_absent names : ∀ row d key,
  key ∉ names → foldl put d (cells names row) !! key = d !! key.
Proof.
  induction names as [|nm names IH]; intros row d key Hk; [done|].
  apply not_elem_of_cons in Hk as [Hne Hk]. simpl.
  rewrite IH by done. unfold put. simpl. by rewrite lookup_insert_ne.
Qed.

Lemma cells_lookup names : ∀ row d key k,
  NoDup names → names !! k = Some key →
  foldl put d (cells names row) !! key = Some (row !! k).
Proof.
  induction names as [|nm names IH]; intros row d key k Hnd Hk; [done|].
  apply NoDup_cons in Hnd as [Hnin Hnd]. simpl.
  destruct k as [|k]; simpl in Hk.
  - injection Hk as ->. rewrite cells_lookup_absent by done.
    unfold put. simpl. rewrite lookup_insert_eq. by destruct row.
  - rewrite (IH _ _ _ k) by done. by destruct row.
Qed.

Lemma row_dict_lookup names row key k :
  NoDup names → names !! k = Some key →
  Csv.row_dict names row !! key = Some (row !! k).
Proof. intros. rewrite row_dict_cells. by apply cells_lookup. Qed.

Lemma row_dict_lookup_absent names row key :
  key ∉ names → Csv.row_dict names row !! key = None.
Proof.
  intros. rewrite row_dict_cells, cells_lookup_absent by done. done.
Qed.

End row_dict.

Lemma contact_of_row_ok d :
  is_ok (contact_of_row d) = true
  ↔ (∃ v, d !! "folder" = Some (Some v)) ∧ is_Some (d !! "name").
Proof.
  unfold contact_of_row, dict_getitem, norm_path_value.
  destruct (d !! "folder") as [[v|]|] eqn:Hf; simpl.
  - destruct (d !! "name") as [n|] eqn:Hn; simpl.
    + split; [|done]. intros _. split; by eexists.
    + split; [done|]. by intros [_ [? ?]].
  - split; [done|]. by intros [[? ?] _].
  - split; [done|]. by intros [[? ?] _].
Qed.

Lemma row_loads names row :
  NoDup names →
  is_ok (contact_of_row (Csv.row_dict names row)) = true
  ↔ reaches names row "folder" ∧ "name" ∈ names.
Proof.
  intros Hnd. rewrite contact_of_row_ok. split.
  - intros [[v Hv] [n Hn]]. split.
    + destruct (decide ("folder" ∈ names)) as [Hin|Hin].
      * apply list_elem_of_lookup in Hin as [k Hk].
        rewrite (row_dict_lookup names row _ k) in Hv by done.
        exists k. split; [done|]. eapply lookup_lt_Some. by injection Hv.
      * by rewrite row_dict_lookup_absent in Hv.
    + destruct (decide ("name" ∈ names)) as [Hin|Hin]; [done|].
      by rewrite row_dict_lookup_absent in Hn.
  - intros [(k & Hk & Hlt) Hin]. split.
    + destruct (lookup_lt_is_Some_2 row k Hlt) as [v Hv]. exists v.
      by rewrite (row_dict_lookup names row _ k), Hv.
    + apply list_elem_of_lookup in Hin as [k' Hk'].
      rewrite (row_dict_lookup names row _ k') by done. by eexists.
Qed.

Lemma load_row_run row a :
  load_row row a
  = match contact_of_row row with
    | Ok c => (Ok (), set_contacts (contacts a ++ [c]) a)
    | Raise e => (Raise e, a)
    end.
Proof. unfold load_row. se_run. by destruct (contact_of_row row). Qed.

Lemma for_each_cons {S A} (x : A) (xs : list A) (body : A → SE S unit) s :
  for_each (x :: xs) body s
  = match body x s with
    | (Ok _, s') => for_each xs body s'
    | (Raise e, s') => (Raise e, s')
    end.
Proof. done. Qed.

Lemma load_rows_ok rows cs : ∀ a,
  Forall2 (λ row c, contact_of_row row = Ok c) rows cs →
  for_each rows load_row a = (Ok (), set_contacts (contacts a ++ cs) a).
Proof.
  intros a H. revert a. induction H as [|row c rows cs Hc _ IH]; intros a.
  - simpl. rewrite app_nil_r. by destruct a.
  - rewrite for_each_cons, load_row_run, Hc, IH. simpl.
    by rewrite <- (assoc_L (++)).
Qed.

Lemma load_rows_outcome rows : ∀ a,
  (for_each rows load_row a).1 = Ok ()
  ↔ Forall (λ row, is_ok (contact_of_row row) = true) rows.
Proof.
  induction rows as [|row rows IH]; intros a.
  - simpl. split; [by constructor|done].
  - rewrite for_each_cons, load_row_run.
    destruct (contact_of_row row) as [c|e] eqn:Hc; simpl.
    + rewrite IH. split.
      * intros H. constructor; [by rewrite Hc|done].
      * by intros [_ H]%Forall_cons.
    + split; [done|]. intros [H _]%Forall_cons. by rewrite Hc in H.
Qed.

Lemma load_contacts_run a file :
  csv_file a = Some file →
  load_contacts a
  = match for_each (Csv.dict_rows (Csv.reader file).1) load_row
            (set_contacts [] a) with
    | (Ok _, s) =>
        (match (Csv.reader file).2 with
         | Some e => Raise e
         | None => Ok ()
         end, s)
    | (Raise e, s) => (Raise e, s)
    end.
Proof.
  intros Hf. unfold load_contacts. se_run. simpl. rewrite Hf.
  destruct (Csv.reader file) as [records error]. simpl.
  destruct (for_each _ load_row _) as [[[]|e] s]; [|done].
  by destruct error.
Qed.

Lemma contact_of_saved_row c :
  contact_of_row
    (Csv.row_dict (default EmptyString <$> header)
                  (default EmptyString <$> contact_row c))
  = Ok (reloaded c).
Proof. destruct c. vm_compute. reflexivity. Qed.

Lemma header_within_limit :
  Forall within_limit (default EmptyString <$> header).
Proof.
  repeat constructor; unfold within_limit, Csv.field_size_limit; simpl; lia.
Qed.

Lemma read_back_contacts l :
  read_back ((λ row : list (option string), default EmptyString <$> row)
               ∘ contact_row <$> l)
  = ((λ row : list (option string), default EmptyString <$> row)
       ∘ contact_row <$> readable l,
     if decide (Forall fitting l) then None else Some CsvError).
Proof.
  induction l as [|c l IH]; [done|].
  rewrite fmap_cons. cbn [read_back readable].
  change (Forall within_limit
            (((λ row : list (option string), default EmptyString <$> row)
                ∘ contact_row) c)) with (fitting c).
  destruct (decide (fitting c)) as [Hc|Hc].
  - rewrite IH. unfold Csv.yield. simpl.
    destruct (decide (Forall fitting l)) as [Hl|Hl].
    + by rewrite decide_True by (by constructor).
    + rewrite decide_False; [done|]. by intros [_ ?]%Forall_cons.
  - rewrite decide_False; [done|]. by intros [? _]%Forall_cons.
Qed.

(** Saving and loading again: the contacts up to the first one with an
    over-long field come back, and the load raises if there is one. *)
Lemma save_then_load a :
  (save_contacts ;; load_contacts) a
  = (if decide (Forall fitting (contacts a)) then Ok () else Raise CsvError,
     set_contacts (reloaded <$> readable (contacts a))
       (set_csv_file
          (Some (Csv.writerows (header :: (contact_row <$> contacts a)))) a)).
Proof.
  unfold save_contacts at 1. se_run.
  set (file := Csv.writerows (header :: (contact_row <$> contacts a))).
  rewrite (load_contacts_run (set_csv_file (Some file) a) file eq_refl).
  unfold file. rewrite reader_writerows.
  rewrite fmap_cons. cbn [read_back].
  rewrite decide_True by apply header_within_limit.
  rewrite <- list_fmap_compose, read_back_contacts.
  unfold Csv.yield. cbn [fst snd Csv.dict_rows].
  assert (Hfilter : ∀ l : list Contact,
            filter (λ row : list string, row ≠ [])
                   ((λ row : list (option string), default EmptyString <$> row)
                      ∘ contact_row <$> l)
            = (λ row : list (option string), default EmptyString <$> row)
                ∘ contact_row <$> l).
  { intros l. induction l as [|c l IH]; [done|].
    rewrite fmap_cons, filter_cons_True by done. by rewrite IH. }
  rewrite Hfilter, <- list_fmap_compose.
  rewrite (load_rows_ok _ (reloaded <$> readable (contacts a))).
  - simpl. by case_decide.
  - apply Forall2_fmap, Forall_Forall2_diag, Forall_forall.
    intros c _. apply contact_of_saved_row.
Qed.

Lemma readable_all l : Forall fitting l → readable l = l.
Proof.
  induction 1 as [|c l Hc _ IH]; [done|].
  simpl. by rewrite decide_True, IH.
Qed.

Lemma reloaded_texts c :
  texts_only c → reloaded c = set_folder_path (_norm_path (folder_path c)) c.
Proof.
  intros ([? Hn] & [? Ha] & [? Hy] & [? Hr] & [? Ho]).
  destruct c. simpl in *. subst. done.
Qed.

(** C5 (as amended): saving contacts whose fields are all texts, as the
    contacts that [_add_contact_callback] appends are, and loading the
    file again.  When no field is longer than the reader's field size
    limit, the same contacts come back in the same order, field for
    field, the folder path being stripped of surrounding whitespace;
    contacts whose folder paths are already stripped come back
    unchanged.  When some field is longer, the load raises the reader's
    error. *)
Theorem save_load_roundtrip (a : App) :
  Forall texts_only (contacts a) →
  (Forall fitting (contacts a) →
   ∃ a', (save_contacts ;; load_contacts) a = (Ok (), a')
     ∧ contacts a'
       = (λ c, set_folder_path (_norm_path (folder_path c)) c) <$> contacts a
     ∧ (Forall (λ c, _norm_path (folder_path c) = folder_path c) (contacts a) →
        contacts a' = contacts a))
  ∧ (¬ Forall fitting (contacts a) →
     outcome (save_contacts ;; load_contacts) a = Raise CsvError).
Proof.
  intros Ht. split.
  - intros Hfit. rewrite save_then_load, decide_True by done.
    rewrite readable_all by done.
    eexists. split; [done|]. simpl.
    assert (Hl : reloaded <$> contacts a
                 = (λ c, set_folder_path (_norm_path (folder_path c)) c)
                     <$> contacts a).
    { apply list_fmap_ext. intros i c Hc. apply reloaded_texts.
      rewrite Forall_forall in Ht. apply Ht. by eapply list_elem_of_lookup_2. }
    split; [done|]. intros Hn. rewrite Hl.
    rewrite <- (list_fmap_id (contacts a)) at 2.
    apply list_fmap_ext. intros i c Hc. simpl.
    rewrite Forall_forall in Hn. rewrite Hn by (by eapply list_elem_of_lookup_2).
    by destruct c.
  - intros Hfit. unfold outcome. by rewrite save_then_load, decide_False.
Qed.

Lemma add_contact_texts_only nm am an ru no a :
  Forall texts_only (contacts a) →
  Forall texts_only (contacts (exec (_add_contact_callback nm am an ru no) a)).
Proof.
  intros H. unfold exec, _add_contact_callback, save_contacts. se_run. simpl.
  apply Forall_app. split; [done|]. constructor; [|done].
  unfold texts_only. simpl. split_and!; by eexists.
Qed.

Lemma save_load_roundtrip_witness :
  let a := app_with [contact " Team/A " "Bob, Jr."; contact "" "Al"] in
  ∃ a', (save_contacts ;; load_contacts) a = (Ok (), a')
        ∧ contacts a' = [contact "Team/A" "Bob, Jr."; contact "" "Al"].
Proof.
  intros a.
  assert (Ht : Forall texts_only (contacts a)).
  { repeat constructor; by eexists. }
  assert (Hfit : Forall fitting (contacts a)).
  { apply (bool_decide_unpack _). vm_compute. exact I. }
  destruct (save_load_roundtrip a Ht) as [Hok _].
  destruct (Hok Hfit) as (a' & Hrun & Hc & _).
  exists a'. split; [exact Hrun | exact Hc].
Defined.

Lemma text_of_length_length n : String.length (text_of_length n) = n.
Proof.
  unfold text_of_length. induction n as [|n IH]; [done|].
  rewrite Nat.iter_succ. simpl. by rewrite IH.
Qed.

Lemma long_name_over : ¬ within_limit long_name.
Proof.
  unfold within_limit, long_name. rewrite text_of_length_length.
  rewrite N2Nat.id. unfold Csv.field_size_limit. lia.
Qed.

(** C5 (as stated) fails: a contact added with a name of 131073
    characters is saved, and loading the file raises instead of giving
    the contact back. *)
Lemma long_name_breaks_roundtrip :
  Forall texts_only (contacts long_name_app) ∧ ¬ roundtrips long_name_app.
Proof.
  split.
  - unfold long_name_app, app_with. simpl.
    repeat constructor; by eexists.
  - intros (a' & Hrun & _). rewrite save_then_load in Hrun.
    rewrite decide_False in Hrun; [done|].
    intros [Hfit _]%Forall_cons. unfold fitting in Hfit.
    rewrite Forall_forall in Hfit. apply long_name_over, Hfit.
    change (long_name ∈ [EmptyString; long_name; EmptyString; EmptyString;
                         EmptyString; EmptyString]).
    apply elem_of_cons. right. apply elem_of_cons. by left.
Qed.

Lemma dict_rows_data file :
  Csv.dict_rows (Csv.reader file).1
  = Csv.row_dict (fieldnames_of file) <$> data_rows file.
Proof.
  unfold fieldnames_of, data_rows.
  by destruct (Csv.reader file).1.
Qed.

(** When [load_contacts] raises: the reader stops on an over-long
    field, or a row read before that lacks the name column or does not
    reach the folder column. *)
Lemma load_raises_iff (a : App) (file : string) :
  csv_file a = Some file →
  NoDup (fieldnames_of file) →
  outcome load_contacts a ≠ Ok ()
  ↔ (Csv.reader file).2 ≠ None
    ∨ ∃ row, row ∈ data_rows file
             ∧ ("name" ∉ fieldnames_of file
                ∨ ¬ reaches (fieldnames_of file) row "folder").
Proof.
  intros Hf Hnd. unfold outcome.
  rewrite (load_contacts_run a file Hf), dict_rows_data.
  pose proof (load_rows_outcome
                (Csv.row_dict (fieldnames_of file) <$> data_rows file)
                (set_contacts [] a)) as Hrows.
  rewrite Forall_fmap in Hrows.
  assert (Hbad : ¬ Forall (λ row, is_ok (contact_of_row
                     (Csv.row_dict (fieldnames_of file) row)) = true)
                   (data_rows file)
                 ↔ ∃ row, row ∈ data_rows file
                     ∧ ("name" ∉ fieldnames_of file
                        ∨ ¬ reaches (fieldnames_of file) row "folder")).
  { split.
    - intros Hn. apply not_Forall_Exists in Hn; [|intros row; apply _].
      apply Exists_exists in Hn as (row & Hin & Hrow).
      exists row. split; [done|]. simpl in Hrow.
      rewrite row_loads in Hrow by done.
      destruct (decide ("name" ∈ fieldnames_of file)); [|by left].
      right. intros Hr. by apply Hrow.
    - intros (row & Hin & Hrow) Hall.
      rewrite Forall_forall in Hall. specialize (Hall row Hin).
      simpl in Hall. apply row_loads in Hall as [Hr Hn]; [|done].
      by destruct Hrow. }
  destruct (for_each _ load_row _) as [[[]|e] s]; simpl in *.
  - destruct (Csv.reader file).2 as [e|]; simpl.
    + split; [intros _; by left|done].
    + split; [done|]. intros [?|Hex]; [done|].
      apply Hbad in Hex. destruct Hex. by apply Hrows.
  - split; [|done]. intros _. right. apply Hbad.
    intros Hall. apply Hrows in Hall. done.
Qed.

(** C9 at its failing input: the data row of [short_row_file] stops
    after the folder and so lacks the required name; the file is loaded
    without any error, as a contact whose name and other fields are
    [None], neither a text nor the default of the optional fields. *)
Theorem load_accepts_missing_name :
  data_rows short_row_file = [["A"]]
  ∧ ¬ reaches (fieldnames_of short_row_file) ["A"] "name"
  ∧ load_contacts (new_app (Some short_row_file))
    = (Ok (),
       set_contacts [mkContact "A" None None None None None]
                    (new_app (Some short_row_file)))
  ∧ ¬ fails_on_missing_required short_row_file.
Proof.
  assert (Hreach : ¬ reaches (fieldnames_of short_row_file) ["A"] "name").
  { intros (k & Hk & Hlt). vm_compute in Hk, Hlt.
    destruct k as [|[|k]]; simplify_eq; lia. }
  assert (Hrows : data_rows short_row_file = [["A"]]).
  { vm_compute. reflexivity. }
  split; [exact Hrows|]. split; [exact Hreach|]. split.
  { vm_compute. reflexivity. }
  intros [_ Hfail]. apply Hfail.
  - exists ["A"]. split; [rewrite Hrows; by left|].
    intros [_ Hr]. exact (Hreach Hr).
  - vm_compute. reflexivity.
Qed.

(** ** Moving a contact to the end of its folder *)

Lemma enumerate_from_snoc {A} (l : list A) x k :
  enumerate_from k (l ++ [x]) = enumerate_from k l ++ [(k + length l, x)].
Proof.
  revert k. induction l as [|y l IH]; intros k; simpl.
  - by rewrite Nat.add_0_r.
  - rewrite IH. replace (S k + length l) with (k + S (length l)) by lia. done.
Qed.

Lemma last_in_folder_snoc f l c :
  last_in_folder f (l ++ [c])
  = if decide (folder_path c = f) then Some (length l) else last_in_folder f l.
Proof.
  unfold last_in_folder, enumerate. rewrite enumerate_from_snoc, foldl_snoc.
  done.
Qed.

(** What the scan of [_move_contact_to_end_of_folder] finds. *)
Lemma last_in_folder_spec f l :
  match last_in_folder f l with
  | None => Forall (λ c, folder_path c ≠ f) l
  | Some k => (∃ c, l !! k = Some c ∧ folder_path c = f)
              ∧ Forall (λ c, folder_path c ≠ f) (drop (S k) l)
  end.
Proof.
  induction l as [|c l IH] using rev_ind; [by constructor|].
  rewrite last_in_folder_snoc. case_decide as Hc.
  - split; [exists c; split; [by apply list_lookup_middle|done]|].
    rewrite drop_ge; [constructor|]. rewrite length_app. simpl. lia.
  - destruct (last_in_folder f l) as [k|].
    + destruct IH as [(ck & Hk & Hf) IH].
      pose proof (lookup_lt_Some _ _ _ Hk) as Hlt. split.
      * exists ck. split; [|done]. by rewrite lookup_app_l.
      * rewrite drop_app_le by lia. apply Forall_app. split; [done|].
        by constructor.
    + apply Forall_app. split; [done|]. by constructor.
Qed.

Lemma folder_contacts_of_app f l1 l2 :
  folder_contacts_of f (l1 ++ l2)
  = folder_contacts_of f l1 ++ folder_contacts_of f l2.
Proof. apply filter_app. Qed.

Lemma folder_contacts_of_none f l :
  Forall (λ c, folder_path c ≠ f) l → folder_contacts_of f l = [].
Proof.
  induction 1 as [|c l Hc _ IH]; [done|].
  unfold folder_contacts_of in *. by rewrite filter_cons_False.
Qed.

(** X1: [_move_contact_to_end_of_folder i] takes the contact at [i] out
    of the store and puts it back right after the last remaining contact
    of its folder: the contact before it is then one of its folder and
    none after it is; when no other contact of the folder remains it
    goes to the end of the store.  It becomes the last contact of its
    folder, the contacts of the folder before it keep their order, and
    without the moved contact the store is the old store without the
    slot [i]. *)
Theorem move_to_end_of_folder_last (a : App) (i : nat) (c : Contact) :
  contacts a !! i = Some c →
  let f := folder_path c in
  let rest := delete i (contacts a) in
  ∃ a' pos, _move_contact_to_end_of_folder i a = (Ok (), a')
    ∧ a' = set_contacts (contacts a') a
    ∧ contacts a' = take pos rest ++ c :: drop pos rest
    ∧ contacts a' !! pos = Some c
    ∧ delete pos (contacts a') = rest
    ∧ Forall (λ c', folder_path c' ≠ f) (drop (S pos) (contacts a'))
    ∧ folder_contacts_of f (contacts a') = folder_contacts_of f rest ++ [c]
    ∧ (folder_contacts_of f rest = [] → pos = length rest)
    ∧ (folder_contacts_of f rest ≠ [] →
       ∃ k c', pos = S k ∧ folder_path c' = f
               ∧ rest !! k = Some c' ∧ contacts a' !! k = Some c').
Proof.
  intros Hi f rest. unfold _move_contact_to_end_of_folder. se_run.
  rewrite (pop_Some _ _ _ Hi). simpl. fold f rest.
  pose proof (last_in_folder_spec f rest) as Hlast.
  destruct (last_in_folder f rest) as [k|].
  - destruct Hlast as [(ck & Hck & Hfk) Hafter].
    pose proof (lookup_lt_Some _ _ _ Hck) as Hk.
    exists (set_contacts (Py.insert (k + 1) c rest) a), (S k).
    rewrite Nat.add_1_r. simpl.
    split_and!; [reflexivity|reflexivity|reflexivity| | | | | |].
    + apply insert_lookup_eq. lia.
    + apply delete_insert. lia.
    + unfold Py.insert. rewrite cons_middle, (assoc_L (++)).
      rewrite drop_app_length'; [done|].
      rewrite length_app, length_take, Nat.min_l by lia. simpl. lia.
    + pose proof (folder_contacts_of_none f _ Hafter) as Hd.
      assert (Hrest : folder_contacts_of f rest
                      = folder_contacts_of f (take (S k) rest)).
      { rewrite <- (take_drop (S k) rest) at 1.
        by rewrite folder_contacts_of_app, Hd, app_nil_r. }
      unfold Py.insert.
      rewrite folder_contacts_of_app, folder_contacts_of_cons, Hd, Hrest.
      by rewrite decide_True.
    + intros Hnone. exfalso.
      assert (Hin : ck ∈ folder_contacts_of f rest).
      { apply list_elem_of_filter. split; [done|].
        by eapply list_elem_of_lookup_2. }
      rewrite Hnone in Hin. by apply elem_of_nil in Hin.
    + intros _. exists k, ck. split_and!; [done|done|done|].
      by rewrite insert_lookup_lt by lia.
  - exists (set_contacts (rest ++ [c]) a), (length rest). simpl.
    split_and!.
    + reflexivity.
    + reflexivity.
    + by rewrite firstn_all, drop_all.
    + by apply list_lookup_middle.
    + by rewrite delete_middle, app_nil_r.
    + rewrite drop_ge; [constructor|]. rewrite length_app. simpl. lia.
    + rewrite folder_contacts_of_app. f_equal.
      by rewrite folder_contacts_of_cons, decide_True.
    + done.
    + intros Hsome. destruct Hsome. by apply folder_contacts_of_none.
Qed.

Lemma move_to_end_of_folder_last_witness :
  let a := app_with [contact "A" "Bob"; contact "A" "Al"; contact "B" "Cy"] in
  ∃ a', _move_contact_to_end_of_folder 0 a = (Ok (), a')
        ∧ contacts a' = [contact "A" "Al"; contact "A" "Bob"; contact "B" "Cy"].
Proof.
  intros a.
  destruct (move_to_end_of_folder_last a 0 (contact "A" "Bob") eq_refl)
    as (a' & pos & Hrun & _ & Hc & _ & _ & _ & _ & _ & Hbefore).
  exists a'. split; [exact Hrun|].
  destruct Hbefore as (k & c' & -> & Hf & Hk & _); [discriminate|].
  destruct k as [|[|k]]; simpl in Hk; simplify_eq.
  exact Hc.
Defined.

(** ** Drag gestures as a whole *)

Lemma same_people_refl l : same_people l l.
Proof. unfold same_people. reflexivity. Qed.

Lemma same_people_perm l l' : l' ≡ₚ l → same_people l l'.
Proof. intros H. unfold same_people. by rewrite H. Qed.

Lemma drag_frame_refl a : drag_frame a a.
Proof. split; [apply same_people_refl|done]. Qed.

Lemma insert_perm {A} k (x : A) l : Py.insert k x l ≡ₚ x :: l.
Proof.
  unfold Py.insert. rewrite <- Permutation_middle. by rewrite take_drop.
Qed.

Lemma pop_insert_perm {A} (l : list A) i k x :
  l !! i = Some x → Py.insert k x (delete i l) ≡ₚ l.
Proof. intros H. rewrite insert_perm. symmetry. by apply delete_Permutation. Qed.

Lemma rewrite_folder_perm f vals l :
  Forall (λ c, folder_path c = f) vals →
  vals ≡ₚ folder_contacts_of f l →
  rewrite_folder f vals l ≡ₚ l.
Proof.
  intros Hall Hp.
  assert (Hlen : length vals = length (folder_contacts_of f l)) by (by rewrite Hp).
  rewrite <- (filter_app_complement (λ c, folder_path c = f)
                (rewrite_folder f vals l)).
  rewrite <- (filter_app_complement (λ c, folder_path c = f) l) at 3.
  pose proof (rewrite_folder_contacts f vals l Hall) as Hc.
  unfold folder_contacts_of in Hc, Hp, Hlen. rewrite Hc by lia.
  rewrite <- Hlen, firstn_all.
  pose proof (rewrite_folder_others f vals l Hall) as Ho.
  rewrite Ho. by rewrite Hp.
Qed.

Lemma alter_folder_same_people f i l :
  same_people l (alter (set_folder_path f) i l).
Proof.
  unfold same_people.
  assert (Heq : set_folder_path EmptyString <$> alter (set_folder_path f) i l
                = set_folder_path EmptyString <$> l); [|by rewrite Heq].
  apply list_eq. intros k. rewrite !list_lookup_fmap, list_lookup_alter.
  case_decide as Hk; [subst k|done]. destruct (l !! i) as [[]|]; reflexivity.
Qed.


Lemma settled_refl a : settled a a.
Proof. by left. Qed.

Lemma drop_on_folder_frame i c node a :
  contacts a !! i = Some c →
  ∃ s, drop_on_folder i c node a = (Ok (), s)
       ∧ drag_frame a s ∧ settled a s.
Proof.
  intros Hi. unfold drop_on_folder.
  destruct (negb _).
  - unfold reparent, save_contacts, on_folder_select. se_run. simpl.
    eexists. split; [reflexivity|]. split; [|by right].
    split; [|done]. simpl. apply alter_folder_same_people.
  - exists a. split; [done|]. split; [apply drag_frame_refl|apply settled_refl].
Qed.
Lemma move_to_end_frame i c a :
  contacts a !! i = Some c →
  ∃ s, _move_contact_to_end_of_folder i a = (Ok (), s) ∧ drag_frame a s.
Proof.
  intros Hi. unfold _move_contact_to_end_of_folder. se_run.
  rewrite (pop_Some _ _ _ Hi). simpl.
  destruct (last_in_folder _ _) as [k|]; simpl.
  - eexists. split; [reflexivity|]. split; [|done]. simpl.
    apply same_people_perm. by apply pop_insert_perm.
  - eexists. split; [reflexivity|]. split; [|done]. simpl.
    apply same_people_perm. rewrite <- Permutation_cons_append.
    symmetry. by apply delete_Permutation.
Qed.

Lemma move_to_folder_frame i c f j a :
  contacts a !! i = Some c →
  ∃ s, _move_contact_to_folder_at_position i f j a = (Ok (), s)
       ∧ drag_frame a s.
Proof.
  intros Hi. unfold _move_contact_to_folder_at_position. se_run.
  rewrite (pop_Some _ _ _ Hi). simpl.
  eexists. split; [reflexivity|]. split; [|done]. simpl.
  unfold same_people. rewrite insert_perm, fmap_cons.
  transitivity (set_folder_path EmptyString <$> (c :: delete i (contacts a))).
  - rewrite fmap_cons. by destruct c.
  - apply fmap_Permutation. symmetry. by apply delete_Permutation.
Qed.

Lemma reorder_frame i j ci cj a :
  contacts a !! i = Some ci →
  contacts a !! j = Some cj →
  folder_path cj = folder_path ci →
  ∃ s, _reorder_within_folder i j a = (Ok (), s) ∧ drag_frame a s.
Proof.
  intros Hi Hj Hf.
  destruct (reorder_run a i j ci cj Hi Hj Hf) as (Hrun & _ & Hall & _).
  eexists. split; [exact Hrun|]. split; [|done]. simpl.
  apply same_people_perm, rewrite_folder_perm; [done|].
  rewrite insert_perm. symmetry. apply delete_Permutation.
  by apply folder_contacts_lookup.
Qed.

Lemma drop_on_table_frame i c row a :
  contacts a !! i = Some c →
  ∃ r s, drop_on_table i c row a = (r, s) ∧ drag_frame a s ∧ settled a s.
Proof.
  intros Hi. unfold drop_on_table.
  assert (Hsave : ∀ m : SE App unit,
            (∃ r s, m a = (r, s) ∧ drag_frame a s ∧ (is_ok r = false → s = a)) →
            ∃ r s, (m ;; save_contacts) a = (r, s)
                   ∧ drag_frame a s ∧ settled a s).
  { intros m (r & s & Hm & Hfr & Hraise). se_run. rewrite Hm.
    destruct r as [[]|e].
    - unfold save_contacts. eexists _, _. split; [reflexivity|].
      destruct Hfr as (? & ? & ? & ?). split; [by split|by right].
    - rewrite (Hraise eq_refl). eexists _, _. split; [reflexivity|].
      split; [apply drag_frame_refl|apply settled_refl]. }
  apply Hsave. destruct row as [j|].
  - case_decide as Hne;
      [|by exists (Ok ()), a; split_and!; [|apply drag_frame_refl|]].
    se_run. unfold getitem.
    destruct (contacts a !! j) as [cj|] eqn:Hj;
      [|by exists (Raise IndexError), a; split_and!; [|apply drag_frame_refl|]].
    destruct (String.eqb_spec (folder_path cj) (folder_path c)) as [Hf|Hf].
    + destruct (reorder_frame i j c cj a Hi Hj Hf) as (s & -> & Hfr).
      by exists (Ok ()), s.
    + destruct (move_to_folder_frame i c (folder_path cj) j a Hi)
        as (s & -> & Hfr). by exists (Ok ()), s.
  - destruct (move_to_end_frame i c a Hi) as (s & -> & Hfr).
    by exists (Ok ()), s.
Qed.

(** What every drag gesture keeps. *)
Lemma on_end_drag_frame (a : App) (drop : drop_target) :
  ∃ a', on_end_drag drop a = (Ok (), a')
    ∧ drag_data a' = None
    ∧ same_people (contacts a) (contacts a')
    ∧ folder_path_to_id a' = folder_path_to_id a
    ∧ folder_tree a' = folder_tree a
    ∧ settled a a'.
Proof.
  unfold on_end_drag. se_run.
  destruct (drag_data a) as [d|] eqn:Hd;
    [|by exists a; split_and!;
        [|by rewrite Hd|apply same_people_refl|..|by left]].
  destruct (dragged d); simpl;
    [|by eexists; split_and!;
        [reflexivity|..|apply same_people_refl|done|done|by left]].
  unfold try_except_finally. se_run. unfold getitem.
  destruct (contacts a !! contact_idx d) as [c|] eqn:Hc; simpl.
  - assert (Hbody : ∃ r s,
              match drop with
              | OverFolderTree node_id => drop_on_folder (contact_idx d) c node_id
              | OverContactsTable row => drop_on_table (contact_idx d) c row
              | OverOther => λ s, (Ok (), s)
              end a = (r, s) ∧ drag_frame a s ∧ settled a s).
    { destruct drop as [node|row|].
      - destruct (drop_on_folder_frame _ _ node _ Hc) as (s & -> & Hfr). eauto.
      - apply drop_on_table_frame. done.
      - exists (Ok ()), a.
        split; [done|]. split; [apply drag_frame_refl|by left]. }
    destruct Hbody as (r & s & -> & (Hs & Hi & Ht & _) & Hset).
    destruct r as [[]|e]; eexists; (split; [reflexivity|]); by simpl.
  - eexists. split; [reflexivity|]. simpl.
    split_and!; [done|apply same_people_refl|done|done|by left].
Qed.

(** X2: whatever the state and wherever the button is released,
    [on_end_drag] returns normally (an exception of the gesture is caught
    and shown), ends the drag, and leaves in the store the same contacts,
    folder paths apart: none is lost or duplicated.  The folder index
    and the folder tree are untouched. *)
Theorem on_end_drag_safe (a : App) (drop : drop_target) :
  ∃ a', on_end_drag drop a = (Ok (), a')
    ∧ drag_data a' = None
    ∧ same_people (contacts a) (contacts a')
    ∧ length (contacts a') = length (contacts a)
    ∧ folder_path_to_id a' = folder_path_to_id a
    ∧ folder_tree a' = folder_tree a.
Proof.
  destruct (on_end_drag_frame a drop) as (a' & Hrun & Hd & Hp & Hi & Ht & _).
  exists a'. split_and!; [done..| |done|done].
  apply Permutation_length in Hp. by rewrite !length_fmap in Hp.
Qed.

(** ** The contacts table *)

Lemma elem_of_enumerate_from {A} (l : list A) k i x :
  (i, x) ∈ enumerate_from k l ↔ k ≤ i ∧ l !! (i - k) = Some x.
Proof.
  revert k. induction l as [|y l IH]; intros k; simpl.
  - split; [by intros ?%elem_of_nil|by intros [_ ?]].
  - rewrite elem_of_cons, IH. split.
    + intros [[= -> ->]|[Hk Hl]].
      * split; [lia|]. by rewrite Nat.sub_diag.
      * split; [lia|]. by replace (i - k) with (S (i - S k)) by lia.
    + intros [Hk Hl]. destruct (decide (i = k)) as [->|Hne].
      * left. rewrite Nat.sub_diag in Hl. by injection Hl as ->.
      * right. split; [lia|].
        by replace (i - k) with (S (i - S k)) in Hl by lia.
Qed.

Lemma enumerate_from_sorted {A} (P : nat * A → Prop) `{∀ x, Decision (P x)}
    (l : list A) k :
  StronglySorted lt (fst <$> filter P (enumerate_from k l))
  ∧ Forall (λ i, k ≤ i) (fst <$> filter P (enumerate_from k l)).
Proof.
  revert k. induction l as [|y l IH]; intros k; simpl.
  - split; constructor.
  - destruct (IH (S k)) as [Hs Hge].
    assert (Hge' : Forall (λ i, k ≤ i)
                     (fst <$> filter P (enumerate_from (S k) l))).
    { eapply Forall_impl; [exact Hge|]. simpl. lia. }
    rewrite filter_cons. case_decide; simpl; [|done].
    split.
    + constructor; [done|]. eapply Forall_impl; [exact Hge|]. simpl. lia.
    + by constructor.
Qed.

Lemma table_row_iff (a : App) i vals :
  (i, vals) ∈ refresh_contacts_table a
  ↔ ∃ c, contacts a !! i = Some c ∧ shown a c ∧ vals = row_values c.
Proof.
  unfold refresh_contacts_table, enumerate.
  rewrite list_elem_of_fmap. split.
  - intros ([j c] & [= -> ->] & [Hs Hin]%list_elem_of_filter).
    apply elem_of_enumerate_from in Hin as [_ Hl].
    rewrite Nat.sub_0_r in Hl. by exists c.
  - intros (c & Hl & Hs & ->). exists (i, c). split; [done|].
    apply list_elem_of_filter. split; [done|].
    apply elem_of_enumerate_from. rewrite Nat.sub_0_r. split; [lia|done].
Qed.

Lemma table_iid_iff (a : App) i :
  i ∈ table_iids a ↔ ∃ c, contacts a !! i = Some c ∧ shown a c.
Proof.
  unfold table_iids. rewrite list_elem_of_fmap. split.
  - intros ([j vals] & -> & Hin).
    apply table_row_iff in Hin as (c & Hl & Hs & _). by exists c.
  - intros (c & Hl & Hs). exists (i, row_values c). split; [done|].
    apply table_row_iff. by exists c.
Qed.

Lemma table_iids_valid (a : App) :
  Forall (λ i, i < length (contacts a)) (table_iids a).
Proof.
  apply Forall_forall. intros i (c & Hl & _)%table_iid_iff.
  by eapply lookup_lt_Some.
Qed.

(** X3: the rows of the refreshed contacts table are exactly the
    contacts whose folder path equals the current folder, both stripped,
    each with its values and with its index in the store as item id; the
    rows come in store order, and every item id is a valid index. *)
Theorem contacts_table_rows (a : App) :
  (∀ i vals, (i, vals) ∈ refresh_contacts_table a
             ↔ ∃ c, contacts a !! i = Some c ∧ shown a c
                    ∧ vals = row_values c)
  ∧ StronglySorted lt (table_iids a)
  ∧ Forall (λ i, i < length (contacts a)) (table_iids a).
Proof.
  split; [apply table_row_iff|]. split; [|apply table_iids_valid].
  assert (Hiids : table_iids a
            = fst <$> filter (λ ic, _norm_path (folder_path ic.2)
                                    = _norm_path (current_folder a))
                             (enumerate_from 0 (contacts a))).
  { unfold table_iids, refresh_contacts_table, enumerate.
    rewrite <- list_fmap_compose. done. }
  rewrite Hiids. apply enumerate_from_sorted.
Qed.

Lemma delete_selected_run (sel : list nat) (a : App) :
  sel ≠ [] → NoDup sel →
  Forall (λ i, i < length (contacts a)) sel →
  delete_selected sel true a
  = (Ok (),
     set_csv_file (Some (saved (remaining sel (contacts a))))
                  (set_contacts (remaining sel (contacts a)) a)).
Proof.
  intros Hne Hnd Hlt.
  assert (Hrun : delete_selected sel true a
                 = (for_each (sorted_reverse sel) del_contact ;; save_contacts) a).
  { destruct sel; [done|]. reflexivity. }
  pose proof (sorted_reverse_perm sel) as Hp.
  assert (Hs : StronglySorted nat_ge (sorted_reverse sel)).
  { apply StronglySorted_merge_sort; apply _. }
  rewrite Hrun. se_run.
  rewrite del_loop; [| done | by rewrite Hp | by rewrite Hp].
  unfold save_contacts, saved. se_run. simpl.
  assert (Hr : remaining (sorted_reverse sel) (contacts a)
               = remaining sel (contacts a)).
  { apply remaining_from_proper. intros i. by rewrite Hp. }
  by rewrite Hr.
Qed.

Lemma remaining_from_keeps {A} (Q : A → Prop) `{∀ x, Decision (Q x)}
    (sel : list nat) (l : list A) : ∀ k,
  (∀ i x, i ∈ sel → k ≤ i → l !! (i - k) = Some x → ¬ Q x) →
  filter Q (remaining_from k sel l) = filter Q l.
Proof.
  induction l as [|y l IH]; intros k Hsel; [done|]. simpl.
  assert (Hl : filter Q (remaining_from (S k) sel l) = filter Q l).
  { apply IH. intros i x Hi Hk Hx. apply (Hsel i x Hi); [lia|].
    by replace (i - k) with (S (i - S k)) by lia. }
  case_bool_decide as Hin.
  - rewrite Hl, filter_cons_False; [done|].
    apply (Hsel k y Hin); [lia|]. by rewrite Nat.sub_diag.
  - by rewrite !filter_cons, Hl.
Qed.

(** X4: deleting any non-empty set of rows of the refreshed contacts
    table never raises; it removes exactly the contacts of these rows,
    keeps every contact outside the current folder, in order, and saves
    the resulting store. *)
Theorem delete_shown_rows (a : App) (sel : list nat) :
  sel ≠ [] → NoDup sel → sel ⊆ table_iids a →
  ∃ a', delete_selected sel true a = (Ok (), a')
    ∧ contacts a' = remaining sel (contacts a)
    ∧ filter (λ c, ¬ shown a c) (contacts a')
      = filter (λ c, ¬ shown a c) (contacts a)
    ∧ csv_file a' = Some (saved (contacts a')).
Proof.
  intros Hne Hnd Hsub.
  pose proof (table_iids_valid a) as Hvalid.
  rewrite Forall_forall in Hvalid.
  rewrite delete_selected_run; [|done|done|].
  2:{ apply Forall_forall. intros i Hi. by apply Hvalid, Hsub. }
  eexists. split; [reflexivity|]. simpl. split_and!; [done| |done].
  apply remaining_from_keeps. intros i c Hi _ Hl Hns.
  rewrite Nat.sub_0_r in Hl.
  apply Hsub, table_iid_iff in Hi as (c' & Hl' & Hs). by simplify_eq.
Qed.
Lemma delete_shown_rows_witness :
  let a := set_current_folder "A"
             (app_with [contact "A" "Bob"; contact "B" "Cy"; contact "A" "Al"]) in
  ∃ a', delete_selected [2; 0] true a = (Ok (), a')
        ∧ contacts a' = [contact "B" "Cy"].
Proof.
  intros a.
  assert (Hne : [2; 0] ≠ @nil nat) by discriminate.
  assert (Hnd : NoDup [2; 0]).
  { apply (bool_decide_unpack _). vm_compute. exact I. }
  assert (Hsub : [2; 0] ⊆ table_iids a).
  { apply (bool_decide_unpack _). vm_compute. exact I. }
  destruct (delete_shown_rows a [2; 0] Hne Hnd Hsub) as (a' & Hrun & Hc & _).
  exists a'. split; [exact Hrun | exact Hc].
Defined.

(** ** The contact dialog *)

Section strip.
Context (p : ascii → bool).

Lemma lstrip_head s c t : lstrip p s = String c t → p c = false.
Proof.
  induction s as [|c0 s IH]; simpl; [done|].
  destruct (p c0) eqn:Hc; [done|]. by intros [= <- _].
Qed.

Lemma rstrip_head c s :
  p c = false → ∃ t, rstrip p (String c s) = String c t.
Proof.
  intros Hc. simpl. destruct (rstrip p s); [|by eexists].
  rewrite Hc. by eexists.
Qed.

Lemma rstrip_idemp s : rstrip p (rstrip p s) = rstrip p s.
Proof.
  induction s as [|c s IH]; simpl; [done|].
  destruct (rstrip p s) as [|c1 r] eqn:Hr.
  - destruct (p c) eqn:Hc; simpl; [done|]. by rewrite Hc.
  - change (rstrip p (String c (String c1 r)))
      with (match rstrip p (String c1 r) with
            | EmptyString => if p c then EmptyString else String c EmptyString
            | r' => String c r'
            end).
    by rewrite IH.
Qed.

Lemma lstrip_rstrip_lstrip s :
  lstrip p (rstrip p (lstrip p s)) = rstrip p (lstrip p s).
Proof.
  destruct (lstrip p s) as [|c t] eqn:Hs; [done|].
  pose proof (lstrip_head _ _ _ Hs) as Hc.
  destruct (rstrip_head c t Hc) as [t' ->]. simpl. by rewrite Hc.
Qed.

Lemma strip_with_idemp s :
  rstrip p (lstrip p (rstrip p (lstrip p s))) = rstrip p (lstrip p s).
Proof. by rewrite lstrip_rstrip_lstrip, rstrip_idemp. Qed.

End strip.

Lemma strip_idemp s : strip (strip s) = strip s.
Proof. apply strip_with_idemp. Qed.

Lemma enumerate_snoc {A} (l : list A) x :
  enumerate (l ++ [x]) = enumerate l ++ [(length l, x)].
Proof. unfold enumerate. by rewrite enumerate_from_snoc. Qed.

Lemma refresh_with (a a' : App) :
  contacts a' = contacts a → current_folder a' = current_folder a →
  refresh_contacts_table a' = refresh_contacts_table a.
Proof. intros Hc Hf. unfold refresh_contacts_table. by rewrite Hc, Hf. Qed.

(** X5: closing the contact dialog on [add_contact].  Without a name
    (nothing but whitespace) a warning is shown and nothing is stored.
    Otherwise one contact is appended at the end of the store, in the
    current folder, with the stripped texts; the store is saved, and the
    new contact is the last row of the refreshed contacts table. *)
Theorem add_contact_appends (a : App) (e : dialog_entry) :
  if decide (strip (e_name e) = EmptyString)
  then add_contact (Some e) a = (Ok (), show (showwarning "Data Input") a)
  else ∃ a', add_contact (Some e) a = (Ok (), a')
        ∧ contacts a' = contacts a ++ [entered a e]
        ∧ csv_file a' = Some (saved (contacts a'))
        ∧ refresh_contacts_table a'
          = refresh_contacts_table a
            ++ [(length (contacts a), row_values (entered a e))].
Proof.
  unfold add_contact, ContactDialog_apply. rewrite eqb_decide.
  case_decide as Hn.
  - by rewrite bool_decide_eq_true_2.
  - rewrite bool_decide_eq_false_2 by done.
    unfold _add_contact_callback, save_contacts. se_run. simpl.
    eexists. split; [reflexivity|]. simpl. split_and!; [done..|].
    unfold refresh_contacts_table. simpl.
    rewrite enumerate_snoc, filter_app, fmap_app. f_equal.
    rewrite filter_cons_True by done. done.
Qed.




(** ** What the operations keep *)

Lemma well_named_folder f c : well_named (set_folder_path f c) ↔ well_named c.
Proof. done. Qed.

Lemma del_loop_Forall (P : Contact → Prop) indices : ∀ a,
  Forall P (contacts a) →
  Forall P (contacts (for_each indices del_contact a).2).
Proof.
  induction indices as [|i indices IH]; intros a Ha; [done|].
  rewrite for_each_cons. unfold del_contact at 1, delitem. se_run.
  case_decide; simpl; [|done]. apply IH. simpl. by apply Forall_delete.
Qed.

Lemma delete_selected_Forall (P : Contact → Prop) sel confirm a :
  Forall P (contacts a) →
  Forall P (contacts (exec (delete_selected sel confirm) a)).
Proof.
  intros Ha. unfold exec, delete_selected. destruct sel as [|i sel].
  - se_run. destruct (tree_selection a) as [node|]; simpl; [|done].
    destruct (String.eqb node root_id); simpl; [done|].
    destruct confirm; simpl; [|done].
    assert (Hf : Forall P (filter (λ c, startswith (folder_path c) node = false)
                                  (contacts a))).
    { apply Forall_forall. intros c [_ Hc]%list_elem_of_filter.
      rewrite Forall_forall in Ha. by apply Ha. }
    destruct (Treeview.delete node (folder_tree a)); simpl; done.
  - destruct confirm; simpl; [|done]. se_run.
    pose proof (del_loop_Forall P (sorted_reverse (i :: sel)) a Ha) as Hl.
    destruct (for_each _ del_contact a) as [[[]|e] s]; simpl in *; done.
Qed.

Lemma on_end_drag_Forall (P : Contact → Prop) drop a :
  (∀ f c, P (set_folder_path f c) ↔ P c) →
  Forall P (contacts a) →
  Forall P (contacts (exec (on_end_drag drop) a)).
Proof.
  intros HP Ha. unfold exec.
  destruct (on_end_drag_frame a drop) as (a' & -> & _ & Hp & _). simpl.
  unfold same_people in Hp.
  assert (Hfmap : ∀ l, Forall P (set_folder_path EmptyString <$> l)
                       ↔ Forall P l).
  { intros l. rewrite Forall_fmap. apply Forall_iff. intros c. apply HP. }
  apply Hfmap. rewrite Hp. by apply Hfmap.
Qed.

(** X7: the operations on the store never leave a contact without a
    proper name.  If the name of every contact is a non-empty, stripped
    text, this still holds after [add_contact], [edit_selected],
    [delete_selected] and [on_end_drag], whatever their inputs and
    whether they return or raise. *)
Theorem names_kept (a : App) :
  Forall well_named (contacts a) →
  (∀ entry, Forall well_named (contacts (exec (add_contact entry) a)))
  ∧ (∀ sel entry,
       Forall well_named (contacts (exec (edit_selected sel entry) a)))
  ∧ (∀ sel confirm,
       Forall well_named (contacts (exec (delete_selected sel confirm) a)))
  ∧ (∀ drop, Forall well_named (contacts (exec (on_end_drag drop) a))).
Proof.
  intros Ha.
  assert (Hstrip : ∀ n, strip n ≠ EmptyString →
            ∃ m, Some (strip n) = Some m ∧ m ≠ EmptyString ∧ strip m = m).
  { intros n Hn. exists (strip n). split_and!; [done..|apply strip_idemp]. }
  split_and!.
  - intros [e|]; [|done]. unfold exec, add_contact, ContactDialog_apply.
    rewrite eqb_decide. case_bool_decide as Hn; [done|].
    unfold _add_contact_callback, save_contacts. se_run. simpl.
    apply Forall_app. split; [done|]. constructor; [|done].
    by apply Hstrip.
  - intros [|i sel] entry; [done|].
    unfold exec, edit_selected. se_run. unfold getitem.
    destruct (contacts a !! i) as [c|] eqn:Hc; simpl; [|done].
    destruct entry as [e|]; [|done]. unfold ContactDialog_apply.
    rewrite eqb_decide. case_bool_decide as Hn; [done|].
    unfold edit_on_save, save_contacts. se_run. simpl.
    apply Forall_alter; [done|]. intros c' _ _. by apply Hstrip.
  - intros sel confirm. by apply delete_selected_Forall.
  - intros drop. apply on_end_drag_Forall; [|done].
    intros f c. apply well_named_folder.
Qed.

Lemma names_kept_witness :
  let a := dragging 0 (app_with [contact "A" "Bob"; contact "B" "Cy"]) in
  Forall well_named (contacts (exec (on_end_drag (OverFolderTree "B")) a)).
Proof.
  intros a.
  assert (Ha : Forall well_named (contacts a)).
  { repeat constructor; eexists; (split_and!; [reflexivity|discriminate|reflexivity]). }
  destruct (names_kept a Ha) as (_ & _ & _ & Hdrag).
  exact (Hdrag (OverFolderTree "B")).
Defined.

Lemma settled_current a a' : settled a a' → file_current a → file_current a'.
Proof.
  unfold file_current. intros [[Hc Hf]|Hs] Ha; [|done]. by rewrite Hf, Hc.
Qed.

(** X8: the file follows the store.  If the file holds what
    [save_contacts] writes for the contacts in memory, it still does
    after [add_contact], [edit_selected], [add_folder] and [on_end_drag],
    whatever their inputs and outcome, and after every [delete_selected]
    that returns normally. *)
Theorem file_follows_store (a : App) :
  file_current a →
  (∀ entry, file_current (exec (add_contact entry) a))
  ∧ (∀ sel entry, file_current (exec (edit_selected sel entry) a))
  ∧ (∀ answer, file_current (exec (add_folder answer) a))
  ∧ (∀ drop, file_current (exec (on_end_drag drop) a))
  ∧ (∀ sel confirm,
       outcome (delete_selected sel confirm) a = Ok () →
       file_current (exec (delete_selected sel confirm) a)).
Proof.
  intros Ha. split_and!.
  - intros [e|]; [|done]. unfold exec, add_contact, ContactDialog_apply.
    rewrite eqb_decide. case_bool_decide; done.
  - intros [|i sel] entry; [done|].
    unfold exec, edit_selected. se_run. unfold getitem.
    destruct (contacts a !! i) as [c|]; simpl; [|done].
    destruct entry as [e|]; [|done]. unfold ContactDialog_apply.
    rewrite eqb_decide. case_bool_decide; done.
  - intros [name_|]; [|done]. unfold exec, add_folder. se_run.
    destruct (String.eqb name_ EmptyString); [done|].
    destruct (contains sep (strip name_)); [done|].
    destruct (folder_path_to_id a !! _); [done|]. simpl.
    destruct (Treeview.insert _ _ _ _); done.
  - intros drop. unfold exec.
    destruct (on_end_drag_frame a drop) as (a' & -> & _ & _ & _ & _ & Hs).
    by eapply settled_current.
  - intros sel confirm. unfold exec, outcome, delete_selected.
    destruct sel as [|i sel].
    + se_run. destruct (tree_selection a) as [node|]; simpl; [|done].
      destruct (String.eqb node root_id); simpl; [done|].
      destruct confirm; simpl; [|done].
      destruct (Treeview.delete node (folder_tree a)); simpl; done.
    + destruct confirm; simpl; [|done]. se_run.
      destruct (for_each _ del_contact a) as [[[]|e] s]; simpl; done.
Qed.

Lemma file_follows_store_witness :
  let a := exec save_contacts
             (dragging 0 (app_with [contact "A" "Bob"; contact "B" "Cy"])) in
  file_current (exec (on_end_drag (OverFolderTree "B")) a)
  ∧ file_current (exec (delete_selected [0; 1] true) a).
Proof.
  intros a.
  assert (Ha : file_current a) by reflexivity.
  destruct (file_follows_store a Ha) as (_ & _ & _ & Hdrag & Hdel).
  split; [exact (Hdrag (OverFolderTree "B"))|].
  apply Hdel. reflexivity.
Defined.

(** ** Loading any file, saving any store *)

Lemma contact_of_row_normalised row c :
  contact_of_row row = Ok c → normalised c.
Proof.
  unfold contact_of_row, dict_getitem, norm_path_value.
  destruct (row !! "folder") as [[p|]|]; simpl; [|done..].
  destruct (row !! "name") as [n|]; simpl; [|done].
  intros [= <-]. apply strip_idemp.
Qed.

Lemma load_rows_run rows : ∀ a,
  ∃ cs, (for_each rows load_row a).2 = set_contacts (contacts a ++ cs) a
        ∧ Forall normalised cs ∧ length cs ≤ length rows.
Proof.
  induction rows as [|row rows IH]; intros a.
  - exists []. simpl. rewrite app_nil_r. split_and!; [by destruct a|done..].
  - rewrite for_each_cons, load_row_run.
    destruct (contact_of_row row) as [c|e] eqn:Hc.
    + destruct (IH (set_contacts (contacts a ++ [c]) a)) as (cs & -> & Hn & Hl).
      exists (c :: cs). simpl. rewrite <- (assoc_L (++)). split_and!; [done| |lia].
      constructor; [|done]. by eapply contact_of_row_normalised.
    + exists []. simpl. rewrite app_nil_r. split_and!; [by destruct a|done|lia].
Qed.

(** X9: what [load_contacts] does to the application, for any file and
    whether it returns or raises.  Only the store and the file change;
    the contacts held before are discarded; every contact in the store
    afterwards has a stripped folder path.  An existing file is left as
    it is.  When there is no file, the load returns normally with an
    empty store and creates the file that [save_contacts] writes for an
    empty store, and loading that file again changes nothing. *)
Theorem load_contacts_effect (a : App) :
  let a' := exec load_contacts a in
  a' = set_csv_file (csv_file a') (set_contacts (contacts a') a)
  ∧ (∀ l, contacts (exec load_contacts (set_contacts l a)) = contacts a')
  ∧ Forall normalised (contacts a')
  ∧ match csv_file a with
    | Some file => csv_file a' = Some file
    | None => outcome load_contacts a = Ok ()
              ∧ contacts a' = [] ∧ csv_file a' = Some (saved [])
              ∧ load_contacts a' = (Ok (), a')
    end.
Proof.
  intros a'. subst a'. unfold exec, outcome.
  destruct (csv_file a) as [file|] eqn:Hf.
  - assert (Hstate : ∀ a0, csv_file a0 = Some file →
              (load_contacts a0).2
              = (for_each (Csv.dict_rows (Csv.reader file).1) load_row
                   (set_contacts [] a0)).2).
    { intros a0 Hf0. rewrite (load_contacts_run a0 file Hf0).
      by destruct (for_each _ load_row _) as [[[]|e] s]. }
    rewrite (Hstate a Hf).
    destruct (load_rows_run (Csv.dict_rows (Csv.reader file).1)
                (set_contacts [] a)) as (cs & Hrun & Hn & _).
    rewrite Hrun. simpl. split_and!; [by destruct a| |done|done].
    intros l. rewrite (Hstate (set_contacts l a) Hf).
    by rewrite set_contacts_twice, Hrun.
  - set (a1 := set_csv_file (Some (Csv.writerow header)) (set_contacts [] a)).
    assert (Hrun : ∀ l, load_contacts (set_contacts l a) = (Ok (), a1)).
    { intros l. unfold load_contacts. se_run.
      cbn [csv_file set_contacts]. by rewrite Hf. }
    assert (Ha : set_contacts (contacts a) a = a) by (by destruct a).
    assert (Hrun0 : load_contacts a = (Ok (), a1)).
    { rewrite <- Ha. apply Hrun. }
    rewrite Hrun0. cbn [fst snd].
    split; [reflexivity|]. split; [intros l; by rewrite Hrun|].
    split; [constructor|]. split; [reflexivity|]. split; [reflexivity|].
    split; [reflexivity|].
    rewrite (load_contacts_run a1 (Csv.writerow header) eq_refl).
    assert (Hread : Csv.reader (Csv.writerow header)
                    = ([default EmptyString <$> header], None)).
    { vm_compute. reflexivity. }
    rewrite Hread. reflexivity.
Qed.

Lemma reloaded_idemp c : reloaded (reloaded c) = reloaded c.
Proof. unfold reloaded. simpl. unfold _norm_path. by rewrite strip_idemp. Qed.

Section strip_length.
Context (p : ascii → bool).

Lemma lstrip_length s : String.length (lstrip p s) ≤ String.length s.
Proof.
  induction s as [|c s IH]; simpl; [done|]. destruct (p c); simpl; lia.
Qed.

Lemma rstrip_length s : String.length (rstrip p s) ≤ String.length s.
Proof.
  induction s as [|c s IH]; simpl; [done|].
  destruct (rstrip p s); [destruct (p c)|]; simpl in *; lia.
Qed.

End strip_length.

Lemma strip_within_limit s : within_limit s → within_limit (strip s).
Proof.
  unfold within_limit, strip. intros Hs.
  pose proof (rstrip_length isspace (lstrip isspace s)).
  pose proof (lstrip_length isspace s). lia.
Qed.

Lemma reloaded_fitting c : fitting c → fitting (reloaded c).
Proof.
  unfold fitting, contact_row, reloaded. destruct c as [f n am an ru no]. simpl.
  rewrite !Forall_cons. intros (Hf & Hn & Ham & Han & Hru & Hno & _).
  split_and!; [by apply strip_within_limit|done..].
Qed.

Lemma save_then_load_fitting a :
  Forall fitting (contacts a) →
  (save_contacts ;; load_contacts) a
  = (Ok (),
     set_contacts (reloaded <$> contacts a)
       (set_csv_file
          (Some (Csv.writerows (header :: (contact_row <$> contacts a)))) a)).
Proof.
  intros Hfit. by rewrite save_then_load, decide_True, readable_all.
Qed.

(** X10: saving and loading again settles after one round, for any
    store without a field longer than the reader's field size limit.
    The round returns normally and keeps the number and the order of the
    contacts: each comes back with its folder path stripped and with the
    empty text where it held no text.  A second round gives back the
    same store, and from then on the file holds the store and a further
    round changes nothing at all. *)
Theorem save_load_settles (a : App) :
  Forall fitting (contacts a) →
  ∃ a1 a2,
    (save_contacts ;; load_contacts) a = (Ok (), a1)
    ∧ contacts a1 = reloaded <$> contacts a
    ∧ (save_contacts ;; load_contacts) a1 = (Ok (), a2)
    ∧ contacts a2 = contacts a1
    ∧ file_current a2
    ∧ (save_contacts ;; load_contacts) a2 = (Ok (), a2).
Proof.
  intros Hfit.
  assert (Hidem : ∀ l : list Contact, reloaded <$> (reloaded <$> l) = reloaded <$> l).
  { intros l. rewrite <- list_fmap_compose. apply list_fmap_ext.
    intros i c _. apply reloaded_idemp. }
  assert (Hfit1 : Forall fitting (reloaded <$> contacts a)).
  { apply Forall_fmap. eapply Forall_impl; [exact Hfit|].
    intros c. apply reloaded_fitting. }
  pose proof (save_then_load_fitting a Hfit) as Hrun1.
  set (a1 := set_contacts (reloaded <$> contacts a) _) in Hrun1.
  pose proof (save_then_load_fitting a1 Hfit1) as Hrun2.
  set (a2 := set_contacts (reloaded <$> contacts a1) _) in Hrun2.
  assert (Hc2 : contacts a2 = reloaded <$> contacts a) by apply Hidem.
  exists a1, a2. split_and!; [done|done|done|done| |].
  - unfold file_current, saved. rewrite Hc2. done.
  - rewrite save_then_load_fitting by (by rewrite Hc2).
    rewrite Hc2. unfold a2. simpl. by rewrite !Hidem.
Qed.

Lemma save_load_settles_witness :
  let a := app_with [mkContact " Team " (Some "Cy") None None None None;
                     contact "" "Al"] in
  ∃ a1, (save_contacts ;; load_contacts) a = (Ok (), a1)
        ∧ contacts a1 = [contact "Team" "Cy"; contact "" "Al"].
Proof.
  intros a.
  assert (Hfit : Forall fitting (contacts a)).
  { apply (bool_decide_unpack _). vm_compute. exact I. }
  destruct (save_load_settles a Hfit) as (a1 & _ & Hrun & Hc & _).
  exists a1. split; [exact Hrun | exact Hc].
Defined.

(** ** The folder tree is kept well formed *)

Section strings.
Implicit Types (s t p q : string).

Lemma startswith_nil s : startswith s EmptyString = true.
Proof. by destruct s. Qed.

Lemma startswith_app s t : startswith (s +:+ t) s = true.
Proof.
  induction s as [|c s IH]; simpl; [apply startswith_nil|].
  by rewrite Ascii.eqb_refl.
Qed.

Lemma startswith_app_l s t p :
  startswith s p = true → startswith (s +:+ t) p = true.
Proof.
  revert s. induction p as [|b p IH]; intros s; [by rewrite !startswith_nil|].
  destruct s as [|c s]; simpl; [done|].
  intros [-> Hs]%andb_true_iff. simpl. by apply IH.
Qed.

Lemma startswith_contains s p :
  startswith s p = true → contains sep p = true → contains sep s = true.
Proof.
  revert s. induction p as [|b p IH]; intros [|c s]; simpl; try done.
  intros [Hc Hs]%andb_true_iff. apply Ascii.eqb_eq in Hc as ->.
  intros [->|Hp]%orb_true_iff; [done|].
  rewrite (IH s Hs Hp). apply orb_true_r.
Qed.

Lemma contains_app s t :
  contains sep (s +:+ t) = contains sep s || contains sep t.
Proof.
  induction s as [|c s IH]; simpl; [done|]. by rewrite IH, orb_assoc.
Qed.

(** A path [q/t] below [p/], where the name [t] holds no separator, is
    the path [p/t] or has [q] below [p/]. *)
Lemma startswith_join q t p :
  contains sep t = false →
  startswith (q +:+ String sep t) (p +:+ String sep EmptyString) = true →
  q = p ∨ startswith q (p +:+ String sep EmptyString) = true.
Proof.
  intros Ht. revert q. induction p as [|b p IH]; intros [|c q]; simpl.
  - by left.
  - rewrite !startswith_nil. by right.
  - intros [Hb Hs]%andb_true_iff.
    assert (contains sep t = true); [|congruence].
    eapply startswith_contains; [exact Hs|].
    rewrite contains_app. simpl. apply orb_true_r.
  - intros [Hc Hs]%andb_true_iff. apply Ascii.eqb_eq in Hc as ->.
    destruct (IH q Hs) as [->|Hq]; [by left|right].
    by rewrite Ascii.eqb_refl.
Qed.

Lemma in_subtree_startswith p s :
  in_subtree p s = true → startswith s p = true.
Proof.
  unfold in_subtree. intros [He|Hs]%orb_true_iff.
  - apply String.eqb_eq in He as ->.
    rewrite <- (str_app_nil_r p) at 1. apply startswith_app.
  - revert s Hs. induction p as [|b p IH]; intros s; [by rewrite startswith_nil|].
    destruct s as [|c s]; simpl; [done|].
    intros [-> Hs]%andb_true_iff. simpl. by apply IH.
Qed.

Lemma in_subtree_root p : p ≠ root_id → in_subtree p root_id = false.
Proof.
  intros Hp. unfold in_subtree. apply orb_false_iff. split.
  - apply String.eqb_neq. congruence.
  - destruct (startswith root_id _) eqn:Hs; [|done].
    apply startswith_contains in Hs; [done|].
    rewrite contains_app. simpl. apply orb_true_r.
Qed.

Lemma in_subtree_empty p : p ≠ EmptyString → in_subtree p EmptyString = false.
Proof. intros Hp. by destruct p. Qed.

Lemma in_subtree_child p q t :
  q ≠ EmptyString → in_subtree p q = true →
  in_subtree p (join_path q t) = true.
Proof.
  intros Hq. unfold join_path, in_subtree.
  rewrite (proj2 (String.eqb_neq _ _) Hq).
  intros [He|Hs]%orb_true_iff; apply orb_true_iff; right.
  - apply String.eqb_eq in He as ->.
    replace (p +:+ String sep t) with ((p +:+ String sep EmptyString) +:+ t).
    + apply startswith_app.
    + by rewrite str_app_assoc.
  - by apply startswith_app_l.
Qed.

Lemma in_subtree_parent p q t :
  contains sep t = false →
  in_subtree p (join_path q t) = true →
  join_path q t = p ∨ (q ≠ EmptyString ∧ in_subtree p q = true).
Proof.
  intros Ht. unfold join_path, in_subtree.
  destruct (String.eqb q EmptyString) eqn:Hq.
  - intros [He|Hs]%orb_true_iff; [left; by apply String.eqb_eq|].
    assert (contains sep t = true); [|congruence].
    eapply startswith_contains; [exact Hs|].
    rewrite contains_app. simpl. apply orb_true_r.
  - apply String.eqb_neq in Hq.
    intros [He|Hs]%orb_true_iff; [left; by apply String.eqb_eq|].
    right. split; [done|].
    destruct (startswith_join q t p Ht Hs) as [->|Hq'].
    + by rewrite String.eqb_refl.
    + rewrite Hq'. apply orb_true_r.
Qed.

End strings.

Lemma node_folder_other n : n ≠ root_id → node_folder n = n.
Proof.
  intros Hn. unfold node_folder.
  by rewrite (proj2 (String.eqb_neq _ _) Hn).
Qed.

Lemma node_or_root_other p : p ≠ EmptyString → node_or_root p = p.
Proof.
  intros Hp. unfold node_or_root.
  by rewrite (proj2 (String.eqb_neq _ _) Hp).
Qed.

Lemma item_ok_mono seen seen' it :
  (∀ x, x ∈ seen → x ∈ seen') → item_ok seen it → item_ok seen' it.
Proof.
  intros Hs [Hr|(Hp & Hrest)]; [by left|right]. split; [by apply Hs|done].
Qed.

Lemma items_ok_snoc it : ∀ t seen,
  items_ok seen t → item_ok (seen ++ (iid <$> t)) it →
  items_ok seen (t ++ [it]).
Proof.
  induction t as [|x t IH]; intros seen Ht Hit; simpl in *.
  - split; [|done]. by rewrite app_nil_r in Hit.
  - destruct Ht as [Hx Ht]. split; [done|]. apply IH; [done|].
    eapply item_ok_mono; [|exact Hit]. intros y. set_solver.
Qed.

Section subtree.
Context (p : string) (Hp : p ≠ EmptyString) (Hroot : p ≠ root_id).

(** The item is below [p] when its parent is. *)
Lemma item_below seen it :
  item_ok seen it → in_subtree p (parent it) = true →
  in_subtree p (iid it) = true.
Proof using Hp Hroot.
  intros [->|(_ & _ & -> & _)] Hpar.
  - simpl in Hpar. by rewrite in_subtree_empty in Hpar.
  - assert (Hnr : parent it ≠ root_id).
    { intros He. rewrite He, in_subtree_root in Hpar; done. }
    rewrite node_folder_other by done. apply in_subtree_child; [|done].
    intros He. rewrite He, in_subtree_empty in Hpar; done.
Qed.

(** An item below [p] is [p] itself or has its parent below [p]. *)
Lemma item_above seen it :
  item_ok seen it → in_subtree p (iid it) = true →
  iid it = p ∨ (parent it ∈ seen ∧ in_subtree p (parent it) = true).
Proof using Hp Hroot.
  intros [->|(Hin & _ & Hid & Ht)] Hsub.
  - simpl in Hsub. by rewrite in_subtree_root in Hsub.
  - rewrite Hid in Hsub.
    destruct (in_subtree_parent _ _ _ Ht Hsub) as [He|[Hne Hq]].
    + left. by rewrite Hid.
    + right. split; [done|].
      destruct (decide (parent it = root_id)) as [He|Hn].
      * rewrite He in Hne. done.
      * by rewrite node_folder_other in Hq.
Qed.

Lemma prune_filter : ∀ t seen removed,
  items_ok seen t → p ∈ removed →
  (∀ x, x ∈ removed → in_subtree p x = true) →
  (∀ x, x ∈ seen → in_subtree p x = true → x ∈ removed) →
  Treeview.prune removed t
  = filter (λ it, in_subtree p (iid it) = false) t.
Proof using Hp Hroot.
  induction t as [|it t IH]; intros seen removed Hok HpR HR Hseen; [done|].
  destruct Hok as [Hit Ht]. simpl. destruct (in_subtree p (iid it)) eqn:Hsub.
  - rewrite filter_cons_False by (by rewrite Hsub).
    assert (Hrm : bool_decide (iid it ∈ removed)
                  || bool_decide (parent it ∈ removed) = true).
    { apply orb_true_iff.
      destruct (item_above seen it Hit Hsub) as [He|[Hin Hq]].
      - left. apply bool_decide_eq_true_2. by rewrite He.
      - right. apply bool_decide_eq_true_2. by apply Hseen. }
    rewrite Hrm. apply (IH (iid it :: seen)); [done|by right|..].
    + intros x [->|Hx]%elem_of_cons; [done|by apply HR].
    + intros x [->|Hx]%elem_of_cons Hq; [by left|]. right. by apply Hseen.
  - rewrite filter_cons_True by done.
    assert (Hrm : bool_decide (iid it ∈ removed)
                  || bool_decide (parent it ∈ removed) = false).
    { apply orb_false_iff. split; apply bool_decide_eq_false_2; intros Hin.
      - apply HR in Hin. congruence.
      - apply HR in Hin. apply (item_below seen it Hit) in Hin. congruence. }
    rewrite Hrm. f_equal. apply (IH (iid it :: seen)); [done..|].
    intros x [->|Hx]%elem_of_cons Hq; [congruence|]. by apply Hseen.
Qed.

Lemma items_ok_filter : ∀ t seen seen',
  items_ok seen t →
  (∀ x, x ∈ seen → in_subtree p x = false → x ∈ seen') →
  items_ok seen' (filter (λ it, in_subtree p (iid it) = false) t).
Proof using Hp Hroot.
  induction t as [|it t IH]; intros seen seen' Hok Hs; [done|].
  destruct Hok as [Hit Ht].
  destruct (in_subtree p (iid it)) eqn:Hsub.
  - rewrite filter_cons_False by (by rewrite Hsub).
    apply (IH (iid it :: seen)); [done|].
    intros x [->|Hx]%elem_of_cons Hq; [congruence|]. by apply Hs.
  - rewrite filter_cons_True by done. split.
    + destruct Hit as [Hr|(Hin & Hrest)]; [by left|right].
      split; [|done]. apply Hs; [done|].
      destruct (in_subtree p (parent it)) eqn:Hpar; [|done].
      assert (Hb : in_subtree p (iid it) = true).
      { eapply item_below; [|done]. right. by split. }
      congruence.
    + apply (IH (iid it :: seen)); [done|].
      intros x [->|Hx]%elem_of_cons Hq; [by left|]. right. by apply Hs.
Qed.

End subtree.

Lemma split_no_sep s : Forall (λ part, contains sep part = false) (split sep s).
Proof.
  induction s as [|c s IH]; simpl; [by repeat constructor|].
  destruct (Ascii.eqb c sep) eqn:Hc; [by constructor|].
  destruct (split sep s) as [|h t]; [by repeat constructor; simpl; rewrite Hc|].
  apply Forall_cons in IH as [Hh Ht]. constructor; [|done].
  simpl. by rewrite Hc, Hh.
Qed.

Lemma join_split s : join_parts (split sep s) = s.
Proof.
  induction s as [|c s IH]; [done|]. simpl split.
  destruct (Ascii.eqb c sep) eqn:Hc.
  - apply Ascii.eqb_eq in Hc as ->.
    pose proof (split_nonempty s) as Hne.
    destruct (split sep s) as [|h t]; [done|].
    change (EmptyString +:+ String sep (join_parts (h :: t)) = String sep s).
    by rewrite IH.
  - pose proof (split_nonempty s) as Hne.
    destruct (split sep s) as [|h t]; [done|].
    destruct t as [|h' t]; simpl in *; by rewrite <- IH.
Qed.

Lemma last_prefixes parts : ∀ cur_,
  cur_ ≠ EmptyString → parts ≠ [] →
  last (prefixes_from cur_ parts)
  = Some (cur_ +:+ String sep (join_parts parts)).
Proof.
  induction parts as [|part parts IH]; intros cur_ Hc Hne; [done|].
  assert (Hj : join_path cur_ part = cur_ +:+ String sep part).
  { unfold join_path. by rewrite (proj2 (String.eqb_neq _ _) Hc). }
  destruct parts as [|part' parts].
  - simpl. by rewrite Hj.
  - change (last (join_path cur_ part
                    :: prefixes_from (join_path cur_ part) (part' :: parts))
            = Some (cur_ +:+ String sep
                      (part +:+ String sep (join_parts (part' :: parts))))).
    rewrite last_cons, IH; [|rewrite Hj; by destruct cur_|done].
    simpl. rewrite Hj. f_equal. by rewrite str_app_assoc.
Qed.

(** The folder that a folder path stands for is among the folders that
    [build_folder_tree] walks through for it. *)
Lemma path_nodes_self path :
  strip_char sep path ≠ EmptyString →
  strip_char sep path ∈ path_nodes path.
Proof.
  intros Hne. unfold path_nodes.
  assert (Hp : String.eqb path EmptyString = false).
  { apply String.eqb_neq. intros ->. done. }
  rewrite Hp.
  destruct (strip_char_head path) as [?|(c & s' & Hs & Hc)]; [done|].
  pose proof (join_split (strip_char sep path)) as Hj.
  rewrite Hs in *. simpl split in *. rewrite Hc in *.
  pose proof (split_nonempty s') as Hn.
  destruct (split sep s') as [|h t]; [done|].
  simpl prefixes_from.
  destruct t as [|h' t]; [simpl in Hj; rewrite <- Hj; by left|].
  right. apply last_Some_elem_of. rewrite last_prefixes by done. f_equal.
  rewrite <- Hj. done.
Qed.

Lemma walk_ok_parent w : walk_ok w → parent_id w ∈ iid <$> w_tree w.
Proof.
  intros [Ht Hp [v Hv]]. rewrite Hp.
  rewrite <- (ok_index _ _ Ht _ _ Hv).
  eapply synced_value; [apply Ht|done].
Qed.

Lemma walk_part_keeps part w :
  walk_ok w → contains sep part = false →
  join_path (cur w) part ≠ root_id →
  ∃ w', walk_part part w = (Ok (), w') ∧ walk_ok w'
    ∧ cur w' = join_path (cur w) part
    ∧ dom (w_index w') = dom (w_index w) ∪ {[ join_path (cur w) part ]}.
Proof.
  intros Hw Hpart Hne.
  pose proof (walk_ok_parent w Hw) as Hpar.
  destruct Hw as [Ht Hp Hcur].
  destruct (walk_part_ok part w (ok_synced _ _ Ht) Hpar Hne)
    as (w' & Hrun & Hc & Hs' & Hp' & Hd).
  exists w'. split_and!; [done| |done|done].
  unfold walk_part in Hrun.
  set (c := join_path (cur w) part) in *.
  destruct (w_index w !! c) as [node|] eqn:Hc'.
  - injection Hrun as <-. split; simpl; [done| |by eexists].
    by eapply ok_index.
  - assert (Hce : c ≠ EmptyString).
    { intros He. rewrite He, (synced_root _ _ (ok_synced _ _ Ht)) in Hc'. done. }
    unfold Treeview.insert in Hrun.
    destruct (Treeview.exists_ c (w_tree w)); [done|].
    destruct (negb (Treeview.exists_ (parent_id w) (w_tree w))); [done|].
    injection Hrun as <-. simpl in *. split; simpl.
    + split; [done| | |].
      * intros q v. destruct (decide (c = q)) as [<-|Hn].
        -- rewrite lookup_insert_eq. intros [= <-].
           by rewrite node_or_root_other.
        -- rewrite lookup_insert_ne by done. apply Ht.
      * rewrite lookup_insert_ne by done. apply Ht.
      * apply items_ok_snoc; [apply Ht|]. right. simpl.
        split_and!; [done|done| |done].
        rewrite Hp. fold c. f_equal.
        destruct (decide (cur w = EmptyString)) as [->|Hn]; [done|].
        rewrite node_or_root_other by done. symmetry. apply node_folder_other.
        intros He. destruct Hcur as [v Hv].
        rewrite He, (ok_no_root _ _ Ht) in Hv. done.
    + by rewrite node_or_root_other.
    + rewrite lookup_insert_eq. by eexists.
Qed.

Lemma walk_parts_keeps parts : ∀ w,
  walk_ok w → Forall (λ part, contains sep part = false) parts →
  root_id ∉ prefixes_from (cur w) parts →
  ∃ w', for_each parts walk_part w = (Ok (), w') ∧ walk_ok w'.
Proof.
  induction parts as [|part parts IH]; intros w Hw Hparts Hr.
  - by exists w.
  - apply Forall_cons in Hparts as [Hpart Hparts].
    simpl in Hr. apply not_elem_of_cons in Hr as [Hr1 Hr2].
    destruct (walk_part_keeps part w Hw Hpart) as (w1 & Hrun & Hw1 & Hcur & _);
      [done|].
    rewrite <- Hcur in Hr2.
    destruct (IH w1 Hw1 Hparts Hr2) as (w2 & Hrun2 & Hw2).
    exists w2. simpl. se_unfold. by rewrite Hrun, Hrun2.
Qed.

Lemma walk_path_keeps path a :
  tree_ok (folder_tree a) (folder_path_to_id a) →
  root_id ∉ path_nodes path →
  ∃ a', walk_path path a = (Ok (), a')
    ∧ tree_ok (folder_tree a') (folder_path_to_id a').
Proof.
  intros Ht Hr. unfold walk_path, path_nodes in *.
  destruct (String.eqb path EmptyString); [by exists a|].
  set (w0 := mkWalk _ _ _ _).
  destruct (walk_parts_keeps (split sep (strip_char sep path)) w0)
    as (w' & Hrun & Hw'); [|apply split_no_sep|done|].
  { split; simpl; [done|done|]. rewrite (synced_root _ _ (ok_synced _ _ Ht)).
    by eexists. }
  rewrite Hrun. eexists. split; [reflexivity|]. simpl. apply Hw'.
Qed.

Lemma walk_paths_keeps paths : ∀ a,
  tree_ok (folder_tree a) (folder_path_to_id a) →
  (∀ path, path ∈ paths → root_id ∉ path_nodes path) →
  ∃ a', for_each paths walk_path a = (Ok (), a')
    ∧ tree_ok (folder_tree a') (folder_path_to_id a').
Proof.
  induction paths as [|path paths IH]; intros a Ht Hr; [by exists a|].
  destruct (walk_path_keeps path a Ht) as (a1 & Hrun & Ht1).
  { apply Hr. by left. }
  destruct (IH a1 Ht1) as (a2 & Hrun2 & Ht2).
  { intros q Hq. apply Hr. by right. }
  exists a2. simpl. se_unfold. by rewrite Hrun, Hrun2.
Qed.

Lemma tree_ok_node t m p :
  tree_ok t m → is_Some (m !! p) → node_or_root p ∈ iid <$> t.
Proof.
  intros Ht [v Hv]. rewrite <- (ok_index _ _ Ht _ _ Hv).
  eapply synced_value; [apply Ht|done].
Qed.

Lemma build_tree_run (a : App) :
  (∀ c, c ∈ contacts a → root_id ∉ path_nodes (folder_path c)) →
  ∃ a', build_folder_tree a = (Ok (), a')
    ∧ contacts a' = contacts a
    ∧ tree_ok (folder_tree a') (folder_path_to_id a')
    ∧ ∀ c, c ∈ contacts a →
           is_Some (folder_path_to_id a' !! strip_char sep (folder_path c)).
Proof.
  intros Hr. unfold build_folder_tree. se_unfold. simpl.
  set (a0 := set_folder_path_to_id _ _).
  set (paths := sorted_set ((folder_path <$> contacts a) ++ [EmptyString])).
  assert (Ht0 : tree_ok (folder_tree a0) (folder_path_to_id a0)).
  { subst a0. simpl. split.
    - split.
      + done.
      + intros p v [<- <-]%lookup_singleton_Some. set_solver.
      + intros i Hi. left. set_solver.
    - by intros p v [<- <-]%lookup_singleton_Some.
    - done.
    - simpl. split; [by left|done]. }
  assert (Hpaths : ∀ path, path ∈ paths → root_id ∉ path_nodes path).
  { intros path. unfold paths. rewrite elem_of_sorted_set, elem_of_app.
    intros [(c & -> & Hc)%list_elem_of_fmap | ->%list_elem_of_singleton].
    - by apply Hr.
    - rewrite path_nodes_empty. set_solver. }
  destruct (walk_paths_keeps paths a0 Ht0 Hpaths) as (a' & Hrun & Ht').
  destruct (walk_paths_ok paths a0 (ok_synced _ _ Ht0) Hpaths)
    as (a'' & Hrun' & Hc & Hd).
  rewrite Hrun in Hrun'. injection Hrun' as <-.
  exists a'. split_and!; [done|done|done|].
  intros c Hin. apply elem_of_dom, Hd.
  destruct (decide (strip_char sep (folder_path c) = EmptyString)) as [->|Hne].
  - left. subst a0. simpl. set_solver.
  - right. exists (folder_path c). split; [|by apply path_nodes_self].
    unfold paths. apply elem_of_sorted_set, elem_of_app. left.
    apply list_elem_of_fmap. by exists c.
Qed.

(** X11: [build_folder_tree] makes a well formed folder tree that has a
    node for the folder of every contact.  Unless the first folder on
    the folder path of some contact (the first segment of the path once
    the slashes at both ends are removed) has the name of the root node,
    the rebuild returns normally; tree and index then agree, every item
    but the root comes after its parent and is named by the path of its
    parent joined with its own name, and for every contact the tree
    holds the node of its folder path stripped of slashes at both ends.
    When the folder path has no such slashes, selecting this node makes
    the contact's folder the current folder. *)
Theorem build_folder_tree_ok (a : App) :
  (∀ c, c ∈ contacts a → first_folder (folder_path c) ≠ Some root_id) →
  ∃ a', build_folder_tree a = (Ok (), a')
    ∧ contacts a' = contacts a
    ∧ tree_ok (folder_tree a') (folder_path_to_id a')
    ∧ ∀ c, c ∈ contacts a →
        let n := node_or_root (strip_char sep (folder_path c)) in
        n ∈ iid <$> folder_tree a'
        ∧ (strip_char sep (folder_path c) = folder_path c →
           current_folder (exec on_folder_select (selecting n a'))
           = folder_path c).
Proof.
  intros Hfirst.
  assert (Hr : ∀ c, c ∈ contacts a → root_id ∉ path_nodes (folder_path c)).
  { intros c Hc Hin%root_in_path_nodes. by apply (Hfirst c). }
  destruct (build_tree_run a Hr) as (a' & Hrun & Hc & Ht' & Hnodes).
  exists a'. split_and!; [done|done|done|].
  intros c Hin. cbv zeta. specialize (Hnodes c Hin).
  split; [by eapply tree_ok_node|].
  intros Hs. rewrite Hs in *.
  unfold exec, on_folder_select, selecting. se_run. simpl.
  destruct (decide (folder_path c = EmptyString)) as [->|Hne]; [done|].
  rewrite node_or_root_other by done. apply node_folder_other.
  intros He. rewrite He, (ok_no_root _ _ Ht') in Hnodes.
  by destruct Hnodes.
Qed.

Lemma build_folder_tree_ok_witness :
  let a := app_with [contact "Team/Sub" "Cy"; contact "/Team/" "Al"] in
  ∃ a', build_folder_tree a = (Ok (), a')
        ∧ tree_ok (folder_tree a') (folder_path_to_id a')
        ∧ iid <$> folder_tree a' = [root_id; "Team"; "Team/Sub"].
Proof.
  intros a.
  assert (Hr : ∀ c, c ∈ contacts a →
                    first_folder (folder_path c) ≠ Some root_id).
  { intros c Hc. revert c Hc. apply Forall_forall.
    apply (bool_decide_unpack _). vm_compute. exact I. }
  destruct (build_folder_tree_ok a Hr) as (a' & Hrun & _ & Ht & _).
  exists a'. split; [exact Hrun|]. split; [exact Ht|].
  assert (He : a' = exec build_folder_tree a) by (unfold exec; by rewrite Hrun).
  rewrite He. vm_compute. reflexivity.
Defined.

Lemma selected_folder_indexed (a : App) :
  tree_ok (folder_tree a) (folder_path_to_id a) →
  (∀ s, tree_selection a = Some s → s ∈ iid <$> folder_tree a) →
  is_Some (folder_path_to_id a !! selected_folder (tree_selection a))
  ∧ selected_folder (tree_selection a) ≠ root_id.
Proof.
  intros Ht Hsel.
  pose proof (synced_root _ _ (ok_synced _ _ Ht)) as Hroot.
  destruct (tree_selection a) as [s|]; simpl; [|by rewrite Hroot].
  unfold node_folder. destruct (String.eqb s root_id) eqn:Hs.
  { by rewrite Hroot. }
  apply String.eqb_neq in Hs. split; [|done].
  destruct (synced_item _ _ (ok_synced _ _ Ht) s (Hsel s eq_refl)); done.
Qed.

(** X12: [add_folder] keeps the folder tree well formed.  From a well
    formed tree whose selected node, if any, is an item of the tree, and
    unless the new folder would get the name of the root node,
    [add_folder] returns normally for every answer of the dialog, the
    tree is well formed afterwards, no folder of the index is lost, and
    the contacts and the file are untouched. *)
Theorem add_folder_keeps_tree (a : App) (answer : option string) :
  tree_ok (folder_tree a) (folder_path_to_id a) →
  (∀ s, tree_selection a = Some s → s ∈ iid <$> folder_tree a) →
  (∀ name_, answer = Some name_ →
     join_path (selected_folder (tree_selection a)) (strip name_) ≠ root_id) →
  ∃ a', add_folder answer a = (Ok (), a')
    ∧ tree_ok (folder_tree a') (folder_path_to_id a')
    ∧ dom (folder_path_to_id a) ⊆ dom (folder_path_to_id a')
    ∧ contacts a' = contacts a ∧ csv_file a' = csv_file a
    ∧ tree_selection a' = tree_selection a.
Proof.
  intros Ht Hsel Hroot.
  destruct (selected_folder_indexed a Ht Hsel) as [Hpar Hpr].
  unfold add_folder. se_run.
  destruct answer as [name_|]; [|by exists a].
  specialize (Hroot name_ eq_refl).
  destruct (String.eqb name_ EmptyString); [by exists a|].
  destruct (contains sep (strip name_)) eqn:Hslash.
  { eexists. split; [reflexivity|]. done. }
  set (parent_path := selected_folder (tree_selection a)) in *.
  set (new_path := join_path parent_path (strip name_)) in *.
  destruct (folder_path_to_id a !! new_path) as [v|] eqn:Hnew.
  { eexists. split; [reflexivity|]. done. }
  set (w := mkWalk parent_path
                   (default root_id (folder_path_to_id a !! parent_path))
                   (folder_tree a) (folder_path_to_id a)).
  assert (Hw : walk_ok w).
  { split; simpl; [done| |done]. destruct Hpar as [n Hn]. rewrite Hn. simpl.
    by eapply ok_index. }
  destruct (walk_part_keeps (strip name_) w Hw Hslash Hroot)
    as (w' & Hrun & Hw' & _ & Hd).
  unfold walk_part in Hrun. simpl in Hrun. fold new_path in Hrun.
  rewrite Hnew in Hrun. simpl.
  destruct (Treeview.insert _ new_path (strip name_) (folder_tree a))
    as [t|e]; [|done].
  injection Hrun as <-. simpl in *.
  eexists. split; [reflexivity|]. simpl. split_and!; [apply Hw'| |done..].
  rewrite Hd. set_solver.
Qed.

Lemma add_folder_keeps_tree_witness :
  let a := selecting "Team" (started [contact "Team" "Cy"]) in
  ∃ a', add_folder (Some " Sub ") a = (Ok (), a')
        ∧ tree_ok (folder_tree a') (folder_path_to_id a')
        ∧ iid <$> folder_tree a' = [root_id; "Team"; "Team/Sub"].
Proof.
  intros a.
  assert (Hr : ∀ c, c ∈ contacts (app_with [contact "Team" "Cy"]) →
                    root_id ∉ path_nodes (folder_path c)).
  { intros c Hc. revert c Hc. apply Forall_forall.
    apply (bool_decide_unpack _). vm_compute. exact I. }
  assert (Ht : tree_ok (folder_tree a) (folder_path_to_id a)).
  { destruct (build_tree_run (app_with [contact "Team" "Cy"]) Hr)
      as (a1 & Hrun & _ & Ht1 & _).
    assert (He : a1 = started [contact "Team" "Cy"])
      by (unfold started, exec; by rewrite Hrun).
    rewrite He in Ht1. exact Ht1. }
  assert (Hsel : ∀ s, tree_selection a = Some s → s ∈ iid <$> folder_tree a).
  { intros s [= <-]. apply (bool_decide_unpack _). vm_compute. exact I. }
  assert (Hn : ∀ name_, Some " Sub " = Some name_ →
             join_path (selected_folder (tree_selection a)) (strip name_)
             ≠ root_id).
  { intros name_ [= <-]. vm_compute. discriminate. }
  destruct (add_folder_keeps_tree a (Some " Sub ") Ht Hsel Hn)
    as (a' & Hrun & Ht' & _).
  exists a'. split; [exact Hrun|]. split; [exact Ht'|].
  assert (He : a' = exec (add_folder (Some " Sub ")) a)
    by (unfold exec; by rewrite Hrun).
  rewrite He. vm_compute. reflexivity.
Defined.

Lemma items_ok_iid t : ∀ seen i,
  items_ok seen t → i ∈ iid <$> t → i ≠ EmptyString.
Proof.
  induction t as [|it t IH]; intros seen i Hok Hin; [by apply elem_of_nil in Hin|].
  destruct Hok as [Hit Ht]. rewrite fmap_cons in Hin.
  apply elem_of_cons in Hin as [->|Hin]; [|by eapply IH].
  destruct Hit as [->|(_ & Hne & _)]; done.
Qed.

Lemma tree_ok_delete t m p :
  tree_ok t m → p ≠ EmptyString → p ≠ root_id →
  tree_ok (filter (λ it, in_subtree p (iid it) = false) t)
          (filter (λ kv, in_subtree p kv.1 = false) m).
Proof.
  intros Ht Hp Hroot.
  assert (Hnode : ∀ q v, m !! q = Some v → in_subtree p q = false →
                         in_subtree p v = false).
  { intros q v Hv Hq. rewrite (ok_index _ _ Ht _ _ Hv).
    destruct (decide (q = EmptyString)) as [->|Hne].
    - by apply in_subtree_root.
    - by rewrite node_or_root_other. }
  split.
  - split.
    + apply map_lookup_filter_Some. split; [apply Ht|].
      by apply in_subtree_empty.
    + intros q v [Hv Hq]%map_lookup_filter_Some. simpl in Hq.
      pose proof (synced_value _ _ (ok_synced _ _ Ht) _ _ Hv) as Hin.
      apply list_elem_of_fmap in Hin as (it & -> & Hit).
      apply list_elem_of_fmap. exists it. split; [done|].
      apply list_elem_of_filter. split; [|done]. by eapply Hnode.
    + intros i (it & -> & [Hsub Hit]%list_elem_of_filter)%list_elem_of_fmap.
      destruct (synced_item _ _ (ok_synced _ _ Ht) (iid it)) as [?|[v Hv]];
        [apply list_elem_of_fmap; by exists it|by left|right].
      exists v. by apply map_lookup_filter_Some.
  - intros q v [Hv _]%map_lookup_filter_Some. by eapply ok_index.
  - apply map_lookup_filter_None. left. apply Ht.
  - eapply items_ok_filter; [done|done|apply Ht|done].
Qed.

(** X13: deleting the selected folder.  From a well formed folder tree
    with a folder node selected and no contact selected, a confirmed
    [delete_selected] returns normally; the tree and the index both lose
    exactly the folder and the folders below it, segment by segment (so
    the pass over the tree by parent links and the pass over the index by
    path prefix agree), and the tree stays well formed.  No contact of
    the folder or of a folder below it is left in the store, the file
    holds the store, and the root is selected as the current folder. *)
Theorem delete_folder_keeps_tree (a : App) (node : string) :
  tree_ok (folder_tree a) (folder_path_to_id a) →
  tree_selection a = Some node →
  node ∈ iid <$> folder_tree a →
  node ≠ root_id →
  ∃ a', delete_selected [] true a = (Ok (), a')
    ∧ folder_tree a'
      = filter (λ it, in_subtree node (iid it) = false) (folder_tree a)
    ∧ folder_path_to_id a'
      = filter (λ kv, in_subtree node kv.1 = false) (folder_path_to_id a)
    ∧ tree_ok (folder_tree a') (folder_path_to_id a')
    ∧ Forall (λ c, in_subtree node (folder_path c) = false) (contacts a')
    ∧ file_current a'
    ∧ tree_selection a' = Some root_id
    ∧ current_folder a' = EmptyString.
Proof.
  intros Ht Hsel Hin Hroot.
  assert (Hne : node ≠ EmptyString).
  { eapply items_ok_iid; [apply Ht|done]. }
  unfold delete_selected. se_run. rewrite Hsel.
  rewrite eqb_decide, bool_decide_eq_false_2 by done. simpl.
  unfold Treeview.delete. rewrite bool_decide_eq_true_2 by done.
  simpl. unfold save_contacts, select_root, on_folder_select. se_run. simpl.
  eexists. split; [reflexivity|]. simpl.
  rewrite (prune_filter node Hne Hroot (folder_tree a) [] [node]);
    [|apply Ht|by left| |by intros x Hx%elem_of_nil].
  2:{ intros x ->%list_elem_of_singleton. unfold in_subtree.
      by rewrite String.eqb_refl. }
  split_and!; [done|done|by apply tree_ok_delete| |done..].
  apply Forall_forall. intros c [Hc _]%list_elem_of_filter.
  destruct (in_subtree node (folder_path c)) eqn:Hsub; [|done].
  apply in_subtree_startswith in Hsub. congruence.
Qed.

Lemma delete_folder_keeps_tree_witness :
  let a := selecting "Team"
             (started [contact "Team/Sub" "Cy"; contact "Team2" "Bob"]) in
  ∃ a', delete_selected [] true a = (Ok (), a')
        ∧ iid <$> folder_tree a' = [root_id; "Team2"]
        ∧ tree_ok (folder_tree a') (folder_path_to_id a').
Proof.
  intros a.
  assert (Hr : ∀ c, c ∈ contacts (app_with [contact "Team/Sub" "Cy";
                                            contact "Team2" "Bob"]) →
                    root_id ∉ path_nodes (folder_path c)).
  { intros c Hc. revert c Hc. apply Forall_forall.
    apply (bool_decide_unpack _). vm_compute. exact I. }
  assert (Ht : tree_ok (folder_tree a) (folder_path_to_id a)).
  { destruct (build_tree_run _ Hr) as (a1 & Hrun & _ & Ht1 & _).
    assert (He : a1 = started [contact "Team/Sub" "Cy"; contact "Team2" "Bob"])
      by (unfold started, exec; by rewrite Hrun).
    rewrite He in Ht1. exact Ht1. }
  assert (Hin : "Team" ∈ iid <$> folder_tree a).
  { apply (bool_decide_unpack _). vm_compute. exact I. }
  assert (Hnr : "Team" ≠ root_id) by discriminate.
  destruct (delete_folder_keeps_tree a "Team" Ht eq_refl Hin Hnr)
    as (a' & Hrun & Htree & _ & Ht' & _).
  exists a'. split; [exact Hrun|]. split; [|exact Ht'].
  rewrite Htree. vm_compute. reflexivity.
Defined.

(** ** Launching a program *)








(** ** Starting the application *)

Lemma save_run a :
  save_contacts a = (Ok (), set_csv_file (Some (saved (contacts a))) a).
Proof. reflexivity. Qed.

Lemma bind_run {S A B} (m : SE S A) (f : A → SE S B) s x s' :
  m s = (Ok x, s') → (m ≫= f) s = f x s'.
Proof. intros H. unfold mbind, SE_bind. by rewrite H. Qed.

Lemma saved_load a :
  Forall fitting (contacts a) →
  load_contacts (set_csv_file (Some (saved (contacts a))) a)
  = (Ok (), set_contacts (reloaded <$> contacts a)
              (set_csv_file (Some (saved (contacts a))) a)).
Proof.
  intros Hfit. pose proof (save_then_load_fitting a Hfit) as H.
  rewrite (bind_run _ _ _ _ _ (save_run a)) in H. exact H.
Qed.

(** X17: starting the application on the file that [save_contacts]
    wrote for a store without a field longer than the reader's field
    size limit.  Unless the first folder on the stripped folder path of
    some contact (the first segment of the path once the slashes at both
    ends are removed) has the name of the root node, [__init__] returns
    normally: the store holds the saved contacts in their order, each
    with its folder path stripped and the empty text where it held no
    text; the folder tree is well formed and holds the node of every
    contact's folder; the root is selected and is the current folder. *)
Theorem restart_restores (a : App) :
  Forall fitting (contacts a) →
  (∀ c, c ∈ contacts a →
        first_folder (_norm_path (folder_path c)) ≠ Some root_id) →
  ∃ a', (save_contacts ;; init) a = (Ok (), a')
    ∧ contacts a' = reloaded <$> contacts a
    ∧ tree_ok (folder_tree a') (folder_path_to_id a')
    ∧ (∀ c, c ∈ contacts a' →
         node_or_root (strip_char sep (folder_path c)) ∈ iid <$> folder_tree a')
    ∧ tree_selection a' = Some root_id
    ∧ current_folder a' = EmptyString.
Proof.
  intros Hfit Hfirst.
  rewrite (bind_run _ _ _ _ _ (save_run a)). unfold init.
  rewrite (bind_run _ _ _ _ _ (saved_load a Hfit)).
  set (a1 := set_contacts _ _).
  destruct (build_tree_run a1) as (a2 & Hrun & Hc & Ht & Hnodes).
  { subst a1. intros c (c0 & -> & Hc0)%list_elem_of_fmap.
    intros Hin%root_in_path_nodes. by apply (Hfirst c0). }
  rewrite (bind_run _ _ _ _ _ Hrun).
  eexists. split; [reflexivity|]. split_and!; [done|done| |done|done].
  intros c Hin. eapply tree_ok_node; [done|]. apply Hnodes.
  by rewrite <- Hc.
Qed.

Lemma restart_restores_witness :
  let a := app_with [contact " Team/Sub " "Cy"; contact "" "Al"] in
  ∃ a', (save_contacts ;; init) a = (Ok (), a')
        ∧ contacts a' = [contact "Team/Sub" "Cy"; contact "" "Al"]
        ∧ tree_ok (folder_tree a') (folder_path_to_id a').
Proof.
  intros a.
  assert (Hfit : Forall fitting (contacts a)).
  { apply (bool_decide_unpack _). vm_compute. exact I. }
  assert (Hr : ∀ c, c ∈ contacts a →
                    first_folder (_norm_path (folder_path c)) ≠ Some root_id).
  { intros c Hc. revert c Hc. apply Forall_forall.
    apply (bool_decide_unpack _). vm_compute. exact I. }
  destruct (restart_restores a Hfit Hr) as (a' & Hrun & Hc & Ht & _).
  exists a'. split; [exact Hrun|]. split; [exact Hc | exact Ht].
Defined.

(** ** A click on the contacts table *)

Lemma near_motions_run motions : ∀ a,
  Forall (λ m : bool * option string, m.1 = false) motions →
  (drag_data a = None
   ∨ ∃ idx, drag_data a = Some (mkDrag idx false)) →
  for_each motions (λ m, on_drag_motion m.1 m.2) a = (Ok (), a).
Proof.
  induction motions as [|[far over] motions IH]; intros a Hm Hd; [done|].
  apply Forall_cons in Hm as [Hfar Hm]. simpl in Hfar. subst far.
  rewrite for_each_cons.
  assert (Hstep : on_drag_motion false over a = (Ok (), a)).
  { unfold on_drag_motion. se_run.
    destruct Hd as [->|[idx ->]]; done. }
  cbn [fst snd]. rewrite Hstep. by apply IH.
Qed.

(** X16: a click is not a drag.  When the mouse button is pressed on
    the contacts table, on a row or not, and released anywhere while
    every motion in between stays below the drag threshold, the handlers
    [on_start_drag], [on_drag_motion] and [on_end_drag] together return
    normally and change nothing but the drag state, which is cleared: no
    contact is moved, nothing is saved, no folder is selected. *)
Theorem click_is_no_drag (a : App) (row_id : option nat)
    (motions : list (bool * option string)) (drop : drop_target) :
  Forall (λ m, m.1 = false) motions →
  (on_start_drag row_id ;;
   for_each motions (λ m, on_drag_motion m.1 m.2) ;;
   on_end_drag drop) a
  = (Ok (), set_drag_data None a).
Proof.
  intros Hm.
  set (a0 := (on_start_drag row_id a).2).
  assert (Hstart : on_start_drag row_id a = (Ok (), a0)) by (by destruct row_id).
  assert (Hd : drag_data a0 = None
               ∨ ∃ idx, drag_data a0 = Some (mkDrag idx false)).
  { subst a0. destruct row_id as [idx|]; [right; by exists idx|by left]. }
  rewrite (bind_run _ _ _ _ _ Hstart).
  rewrite (bind_run _ _ _ _ _ (near_motions_run motions a0 Hm Hd)).
  unfold on_end_drag. se_run. subst a0.
  destruct row_id as [idx|]; reflexivity.
Qed.

Lemma click_is_no_drag_witness :
  let a := app_with [contact "A" "Bob"; contact "B" "Cy"] in
  (on_start_drag (Some 0) ;;
   for_each [(false, None); (false, Some "B")]
            (λ m, on_drag_motion m.1 m.2) ;;
   on_end_drag (OverFolderTree "B")) a
  = (Ok (), set_drag_data None a).
Proof.
  intros a. apply click_is_no_drag.
  repeat constructor.
Defined.
